(** * Sliding-puzzle engine: board utilities, solvability, generator,
      move validator and the [Puzzle] session object.

    Shallow embedding of [js/utils/ArrayUtils.js], [js/core/Validator.js],
    [js/utils/Constants.js] (the [MECHANICS] table) and of the [Puzzle]
    class of PuzzleLogic.js.

    Conventions of the embedding:
    - a JS number that the code uses as an integer is a [Z]; array lengths
      and loop counters that only count up from 0 are [nat];
    - a 2D array of numbers is a [list (list Z)];
    - [null]/[undefined] results are [None];
    - [Date.now()] readings and [Math.random()] draws are inputs of the
      functions that read them;
    - [emit] appends to the session's notification log. *)

From Stdlib Require Import ZArith List Lia Bool String QArith Qround.
From stdpp Require Import base option list gmap.

Close Scope Q_scope.
Open Scope Z_scope.

(* ===================================================================== *)
(** * JavaScript array access *)
(* ===================================================================== *)

(** [arr[i]] for an integer [i]: [undefined] outside [0 .. length-1]. *)
Definition js_index {A : Type} (arr : list A) (i : Z) : option A :=
  if i <? 0 then None else arr !! Z.to_nat i.

(** [arr.length] as a JS number. *)
Definition len {A : Type} (arr : list A) : Z := Z.of_nat (length arr).

(* ===================================================================== *)
(** * Constants.js : MECHANICS *)
(* ===================================================================== *)

Record Direction := mkDirection { x : Z; y : Z; name : string }.

Module MECHANICS.
Definition UP    := mkDirection 0 (-1) "up".
Definition DOWN  := mkDirection 0 1 "down".
Definition LEFT  := mkDirection (-1) 0 "left".
Definition RIGHT := mkDirection 1 0 "right".
(** [Object.values(MECHANICS.DIRECTIONS)]: insertion order of the keys. *)
Definition DIRECTIONS : list Direction := [UP; DOWN; LEFT; RIGHT].
Definition EMPTY_TILE : Z := 0.
End MECHANICS.

(* ===================================================================== *)
(** * ArrayUtils.js *)
(* ===================================================================== *)

Abbreviation Board := (list (list Z)).

Record Position := mkPos { row : Z; col : Z }.

Definition Position_eqb (p q : Position) : bool :=
  (row p =? row q) && (col p =? col q).

(** [create2DArray(rows, cols, fillValue)] *)
Definition create2DArray (rows cols : nat) (fillValue : Z) : Board :=
  replicate rows (replicate cols fillValue).

(** [clone2DArray(array)]: [array.map(row => [...row])].  On values the
    copy is the same grid; the identity of the copy matters only in
    [Module Refs] below. *)
Definition clone2DArray (array : Board) : Board :=
  map (fun r => r) array.

(** [flatten2DArray(array2D)]: [array2D.flat()] *)
Definition flatten2DArray (array2D : Board) : list Z := concat array2D.

(** Inner loop of [createSolvedPuzzle] for one [row]: walks the columns
    with the running [number]; returns the row written and the counter. *)
Fixpoint createSolvedRow (size : nat) (row : nat) (cols : list nat) (number : Z)
  : list Z * Z :=
  match cols with
  | [] => ([], number)
  | c :: cs =>
      if (Z.of_nat row =? Z.of_nat size - 1) && (Z.of_nat c =? Z.of_nat size - 1)
      then let '(r, n) := createSolvedRow size row cs number in
           (MECHANICS.EMPTY_TILE :: r, n)
      else let '(r, n) := createSolvedRow size row cs (number + 1) in
           (number :: r, n)
  end.

(** Outer loop of [createSolvedPuzzle]. *)
Fixpoint createSolvedRows (size : nat) (rows : list nat) (number : Z) : Board :=
  match rows with
  | [] => []
  | r :: rs =>
      let '(line, n) := createSolvedRow size r (seq 0 size) number in
      line :: createSolvedRows size rs n
  end.

(** [createSolvedPuzzle(size)]: every cell of the [size] x [size] grid is
    assigned once, in row-major order. *)
Definition createSolvedPuzzle (size : nat) : Board :=
  createSolvedRows size (seq 0 size) 1.

(** Inner loop of [findPosition]: first column of [r] holding [value]. *)
Fixpoint findInRow (r : list Z) (value : Z) (c : Z) : option Z :=
  match r with
  | [] => None
  | v :: vs => if v =? value then Some c else findInRow vs value (c + 1)
  end.

(** Outer loop of [findPosition], from row index [r]. *)
Fixpoint findPositionFrom (puzzle : Board) (value : Z) (r : Z) : option Position :=
  match puzzle with
  | [] => None
  | line :: rest =>
      match findInRow line value 0 with
      | Some c => Some (mkPos r c)
      | None => findPositionFrom rest value (r + 1)
      end
  end.

(** [findPosition(puzzle, value)]; [None] is [null]. *)
Definition findPosition (puzzle : Board) (value : Z) : option Position :=
  findPositionFrom puzzle value 0.

Definition findEmptyPosition (puzzle : Board) : option Position :=
  findPosition puzzle MECHANICS.EMPTY_TILE.

(** [puzzle[row][col]] when both indexes hit; [None] otherwise. *)
Definition cellAt (puzzle : Board) (r c : Z) : option Z :=
  match js_index puzzle r with
  | Some line => js_index line c
  | None => None
  end.

(** [getValueAt(puzzle, row, col)]; [None] is [null] (or an [undefined]
    cell of a ragged grid). The guard reads [puzzle[0].length] only after
    [row < puzzle.length] held, so [puzzle[0]] exists there. *)
Definition getValueAt (puzzle : Board) (r c : Z) : option Z :=
  if (0 <=? r) && (r <? len puzzle) && (0 <=? c)
     && (c <? match puzzle with [] => 0 | line0 :: _ => len line0 end)
  then cellAt puzzle r c
  else None.

(** [newPuzzle[row][col] = value] on a cell that exists. *)
Definition writeCell (puzzle : Board) (r c : Z) (value : Z) : Board :=
  match js_index puzzle r with
  | Some line => <[Z.to_nat r := <[Z.to_nat c := value]> line]> puzzle
  | None => puzzle
  end.

(** [swapPositions(puzzle, pos1, pos2)] on a clone of [puzzle].
    The result is [Some] grid when both positions are cells of the grid.
    [None] stands for every other run of the JS code: a [TypeError] on a
    row that does not exist, or a grid that is no longer a grid of
    integers (an [undefined] read from, or written past, the end of a row).
    No caller in the engine continues with such a value. *)
Definition swapPositions (puzzle : Board) (pos1 pos2 : Position) : option Board :=
  let newPuzzle := clone2DArray puzzle in
  match cellAt newPuzzle (row pos1) (col pos1),
        cellAt newPuzzle (row pos2) (col pos2) with
  | Some temp, Some v2 =>
      let newPuzzle := writeCell newPuzzle (row pos1) (col pos1) v2 in
      Some (writeCell newPuzzle (row pos2) (col pos2) temp)
  | _, _ => None
  end.

(** [getAdjacentPositions(row, col, size)]: up, down, left, right. *)
Definition getAdjacentPositions (r c size : Z) : list Position :=
  flat_map (fun direction =>
              let newRow := r + y direction in
              let newCol := c + x direction in
              if (0 <=? newRow) && (newRow <? size) && (0 <=? newCol) && (newCol <? size)
              then [mkPos newRow newCol] else [])
           MECHANICS.DIRECTIONS.

(** [areAdjacent(pos1, pos2)] *)
Definition areAdjacent (pos1 pos2 : Position) : bool :=
  let rowDiff := Z.abs (row pos1 - row pos2) in
  let colDiff := Z.abs (col pos1 - col pos2) in
  ((rowDiff =? 1) && (colDiff =? 0)) || ((rowDiff =? 0) && (colDiff =? 1)).

(** The positions visited by the two nested [for] loops over a
    [size] x [size] grid, in visiting order. *)
Definition gridPositions (size : nat) : list (nat * nat) :=
  flat_map (fun r => map (fun c => (r, c)) (seq 0 size)) (seq 0 size).

(** Loop of [isPuzzleSolved] over the remaining positions. *)
Fixpoint isPuzzleSolvedLoop (puzzle : Board) (size : nat)
         (todo : list (nat * nat)) (expectedValue : Z) : bool :=
  match todo with
  | [] => true
  | (r, c) :: rest =>
      let here := cellAt puzzle (Z.of_nat r) (Z.of_nat c) in
      if (Z.of_nat r =? Z.of_nat size - 1) && (Z.of_nat c =? Z.of_nat size - 1)
      then bool_decide (here = Some MECHANICS.EMPTY_TILE)
      else if negb (bool_decide (here = Some expectedValue)) then false
      else isPuzzleSolvedLoop puzzle size rest (expectedValue + 1)
  end.

(** [isPuzzleSolved(puzzle)] *)
Definition isPuzzleSolved (puzzle : Board) : bool :=
  let size := length puzzle in
  isPuzzleSolvedLoop puzzle size (gridPositions size) 1.

(** Inner loop of the inversion count: [j] runs over the tiles after
    position [i], whose tile is [ti]. *)
Fixpoint countInversionsInner (ti : Z) (after : list Z) (inversions : nat) : nat :=
  match after with
  | [] => inversions
  | tj :: rest =>
      countInversionsInner ti rest (if tj <? ti then S inversions else inversions)
  end.

(** Outer loop of the inversion count. *)
Fixpoint countInversionsOuter (tilesOnly : list Z) (inversions : nat) : nat :=
  match tilesOnly with
  | [] => inversions
  | ti :: after =>
      countInversionsOuter after (countInversionsInner ti after inversions)
  end.

(** [flatPuzzle.filter(tile => tile !== MECHANICS.EMPTY_TILE)] *)
Definition tilesOnly (puzzle : Board) : list Z :=
  List.filter (fun tile => negb (tile =? MECHANICS.EMPTY_TILE))
              (flatten2DArray puzzle).

(** [isPuzzleSolvable(puzzle)].  [None]: the [TypeError] of
    [emptyPos.row] when an even-sized grid holds no empty tile. *)
Definition isPuzzleSolvable (puzzle : Board) : option bool :=
  let size := length puzzle in
  let inversions := countInversionsOuter (tilesOnly puzzle) 0 in
  if (size mod 2 =? 1)%nat then
    Some (inversions mod 2 =? 0)%nat
  else
    match findEmptyPosition puzzle with
    | None => None
    | Some emptyPos =>
        let emptyRowFromBottom := Z.of_nat size - row emptyPos in
        if Z.rem emptyRowFromBottom 2 =? 1
        then Some (inversions mod 2 =? 0)%nat
        else Some (inversions mod 2 =? 1)%nat
    end.

(** How a call of the engine ends. *)
Inductive Completion (A : Type) : Type :=
| Returns (a : A)              (* the call returns [a] *)
| ThrowsError (message : string) (* [throw new Error(message)] *)
| Fault.                       (* a [TypeError], or a grid outside the
                                  integer grids (see [swapPositions]) *)
Arguments Returns {A} a.
Arguments ThrowsError {A} message.
Arguments Fault {A}.

(** [Math.floor(Math.random() * n)], for the draw [r] of [Math.random()].
    A draw is a double in [0, 1), taken here as the rational it denotes;
    the product is exact.  (The loop calls this with [n <= 4], where the
    rounded product of a double below 1 stays below [n].) *)
Definition randomIndex (r : Q) (n : nat) : Z :=
  Qfloor (r * inject_Z (Z.of_nat n))%Q.

(** The [for] loop of [generateSolvablePuzzle]: [todo] iterations remain,
    [i] is the loop counter, [random i] the draw of iteration [i]. *)
Fixpoint shuffleLoop (size : nat) (random : nat -> Q) (todo : nat) (i : nat)
         (puzzle : Board) (emptyPos : Position) (lastMove : option Position)
  : Completion Board :=
  match todo with
  | O => Returns puzzle
  | S todo' =>
      let adjacent :=
        getAdjacentPositions (row emptyPos) (col emptyPos) (Z.of_nat size) in
      let validMoves :=
        List.filter (fun pos =>
                       match lastMove with
                       | None => true
                       | Some lm => negb ((row pos =? row lm) && (col pos =? col lm))
                       end) adjacent in
      match js_index validMoves (randomIndex (random i) (length validMoves)) with
      | None => Fault (* [randomMove] undefined: [pos2.row] in swapPositions *)
      | Some randomMove =>
          match swapPositions puzzle emptyPos randomMove with
          | None => Fault
          | Some puzzle' =>
              shuffleLoop size random todo' (S i) puzzle' randomMove (Some emptyPos)
          end
      end
  end.

(** [generateSolvablePuzzle(size, shuffleMoves)]; [random i] is the value
    of the [i]-th call of [Math.random()]. *)
Definition generateSolvablePuzzle (size : nat) (shuffleMoves : nat)
           (random : nat -> Q) : Completion Board :=
  let puzzle := createSolvedPuzzle size in
  match findEmptyPosition puzzle with
  | Some emptyPos => shuffleLoop size random shuffleMoves 0 puzzle emptyPos None
  | None =>
      (* [emptyPos] is null: the first iteration reads [emptyPos.row] *)
      match shuffleMoves with O => Returns puzzle | S _ => Fault end
  end.

(* ===================================================================== *)
(** * Validator.js *)
(* ===================================================================== *)

(** [isValidBoardPosition(row, col, size)] *)
Definition isValidBoardPosition (r c size : Z) : bool :=
  (0 <=? r) && (r <? size) && (0 <=? c) && (c <? size).

(** The shapes of [result.details] in [validateTileMove]. *)
Inductive Details :=
| NoDetails
| OutOfBoundsDetails (r c boardSize : Z)
| EmptyTileDetails (position : Position)
| NoEmptyDetails (puzzle : Board)
| NotAdjacentDetails (tilePosition emptyPosition : Position) (distance : Z)
| ValidDetails (tileValue : option Z) (tilePosition emptyPosition : Position).

Record ValidationResult :=
  mkValidation { valid : bool; reason : string; details : Details }.

(** [validateTileMove(puzzle, row, col)] *)
Definition validateTileMove (puzzle : Board) (r c : Z) : ValidationResult :=
  if negb (isValidBoardPosition r c (len puzzle)) then
    mkValidation false "Position out of bounds" (OutOfBoundsDetails r c (len puzzle))
  else
    let tileValue := getValueAt puzzle r c in
    if bool_decide (tileValue = Some MECHANICS.EMPTY_TILE) then
      mkValidation false "Cannot move empty tile" (EmptyTileDetails (mkPos r c))
    else
      match findEmptyPosition puzzle with
      | None => mkValidation false "Empty tile not found" (NoEmptyDetails puzzle)
      | Some emptyPos =>
          let tilePos := mkPos r c in
          if negb (areAdjacent tilePos emptyPos) then
            mkValidation false "Tile not adjacent to empty space"
              (NotAdjacentDetails tilePos emptyPos
                 (Z.abs (r - row emptyPos) + Z.abs (c - col emptyPos)))
          else
            mkValidation true "Valid move" (ValidDetails tileValue tilePos emptyPos)
      end.

Record ValidMove :=
  mkValidMove { vm_row : Z; vm_col : Z; vm_tileValue : option Z; vm_direction : string }.

(** [getValidMoves(puzzle)] *)
Definition getValidMoves (puzzle : Board) : list ValidMove :=
  match findEmptyPosition puzzle with
  | None => []
  | Some emptyPos =>
      let size := len puzzle in
      flat_map (fun direction =>
                  let tileRow := row emptyPos + y direction in
                  let tileCol := col emptyPos + x direction in
                  if isValidBoardPosition tileRow tileCol size
                  then [mkValidMove tileRow tileCol
                          (getValueAt puzzle tileRow tileCol) (name direction)]
                  else [])
               MECHANICS.DIRECTIONS
  end.

(* ===================================================================== *)
(** * PuzzleLogic.js : class Puzzle *)
(* ===================================================================== *)

(** The [moveData] object built by [_executeMove]. *)
Record MoveData := mkMoveData {
  moveNumber : Z;
  tileValue : option Z;
  from : Position;
  to : Position;
  previousState : Board;
  md_currentState : Board;
  movesRemaining : Z;
  timestamp : Z
}.

(** Notifications passed to [emit].  The statistics and difficulty labels
    of the payloads are floating-point presentation data and are left out;
    every other payload field is kept. *)
Inductive Event :=
| PUZZLE_GENERATED (puzzle : Board) (maxMoves : Z)
| PUZZLE_STATE_SET (puzzle : Board) (maxMoves : Z)
| INVALID_MOVE (reason : string) (position : Position)
               (emptyPosition : option Position)
| TILE_MOVED (moveData : MoveData)
| MOVE_UNDONE (undoneMove : MoveData) (currentState : Board) (moveCount : Z)
| PUZZLE_SOLVED (moveHistory : list MoveData) (solvedState : Board)
| GAME_OVER (reason : string) (moveHistory : list MoveData) (currentState : Board)
| PUZZLE_RESET (resetState : Board).

(** The fields of a [Puzzle] object, and the log of what it emitted. *)
Record Puzzle := mkPuzzle {
  size : nat;
  initialState : Board;
  currentState : Board;
  solvedState : Board;
  moveHistory : list MoveData;
  moveCount : Z;
  maxMoves : Z;
  startTime : option Z;
  endTime : option Z;
  isComplete : bool;
  emitted : list Event
}.

Definition emit (p : Puzzle) (e : Event) : Puzzle :=
  mkPuzzle (size p) (initialState p) (currentState p) (solvedState p)
           (moveHistory p) (moveCount p) (maxMoves p) (startTime p) (endTime p)
           (isComplete p) (emitted p ++ [e]).

Definition set_currentState (p : Puzzle) (b : Board) : Puzzle :=
  mkPuzzle (size p) (initialState p) b (solvedState p)
           (moveHistory p) (moveCount p) (maxMoves p) (startTime p) (endTime p)
           (isComplete p) (emitted p).

Definition set_initialState (p : Puzzle) (b : Board) : Puzzle :=
  mkPuzzle (size p) b (currentState p) (solvedState p)
           (moveHistory p) (moveCount p) (maxMoves p) (startTime p) (endTime p)
           (isComplete p) (emitted p).

Definition set_moveHistory (p : Puzzle) (h : list MoveData) : Puzzle :=
  mkPuzzle (size p) (initialState p) (currentState p) (solvedState p)
           h (moveCount p) (maxMoves p) (startTime p) (endTime p)
           (isComplete p) (emitted p).

Definition set_moveCount (p : Puzzle) (n : Z) : Puzzle :=
  mkPuzzle (size p) (initialState p) (currentState p) (solvedState p)
           (moveHistory p) n (maxMoves p) (startTime p) (endTime p)
           (isComplete p) (emitted p).

Definition set_maxMoves (p : Puzzle) (n : Z) : Puzzle :=
  mkPuzzle (size p) (initialState p) (currentState p) (solvedState p)
           (moveHistory p) (moveCount p) n (startTime p) (endTime p)
           (isComplete p) (emitted p).

Definition set_startTime (p : Puzzle) (t : option Z) : Puzzle :=
  mkPuzzle (size p) (initialState p) (currentState p) (solvedState p)
           (moveHistory p) (moveCount p) (maxMoves p) t (endTime p)
           (isComplete p) (emitted p).

Definition set_endTime (p : Puzzle) (t : option Z) : Puzzle :=
  mkPuzzle (size p) (initialState p) (currentState p) (solvedState p)
           (moveHistory p) (moveCount p) (maxMoves p) (startTime p) t
           (isComplete p) (emitted p).

Definition set_isComplete (p : Puzzle) (b : bool) : Puzzle :=
  mkPuzzle (size p) (initialState p) (currentState p) (solvedState p)
           (moveHistory p) (moveCount p) (maxMoves p) (startTime p) (endTime p)
           b (emitted p).

(** [new Puzzle(size)]: the field initialisers, then [_initializePuzzle]. *)
Definition newPuzzle (size : nat) : Puzzle :=
  let solved := createSolvedPuzzle size in
  mkPuzzle size (clone2DArray solved) (clone2DArray solved) solved
           [] 0 100 None None false [].

(** The assignments shared by [generatePuzzle], [setPuzzleState] and
    [reset]: history, counter, timer and completion flag cleared. *)
Definition clearProgress (p : Puzzle) : Puzzle :=
  set_isComplete
    (set_endTime (set_startTime (set_moveCount (set_moveHistory p []) 0) None) None)
    false.

(** [generatePuzzle(shuffleMoves, maxMoves)] *)
Definition generatePuzzle (p : Puzzle) (random : nat -> Q)
           (shuffleMoves : nat) (maxMoves' : Z) : Completion unit * Puzzle :=
  let p := set_maxMoves p maxMoves' in
  match generateSolvablePuzzle (size p) shuffleMoves random with
  | Returns b =>
      let p := set_currentState p b in
      let p := set_initialState p (clone2DArray (currentState p)) in
      let p := clearProgress p in
      (Returns tt,
       emit p (PUZZLE_GENERATED (clone2DArray (currentState p)) (maxMoves p)))
  | ThrowsError m => (ThrowsError m, p)
  | Fault => (Fault, p)
  end.

(** [setPuzzleState(puzzleState, maxMoves)].  [Array.isArray] holds for
    every [Board]. *)
Definition setPuzzleState (p : Puzzle) (puzzleState : Board) (maxMoves' : Z)
  : Completion unit * Puzzle :=
  if negb (length puzzleState =? size p)%nat then
    (ThrowsError "Invalid puzzle state", p)
  else
    match isPuzzleSolvable puzzleState with
    | None => (Fault, p)
    | Some false => (ThrowsError "Puzzle state is not solvable", p)
    | Some true =>
        let p := set_currentState p (clone2DArray puzzleState) in
        let p := set_initialState p (clone2DArray puzzleState) in
        let p := set_maxMoves p maxMoves' in
        let p := clearProgress p in
        (Returns tt,
         emit p (PUZZLE_STATE_SET (clone2DArray (currentState p)) (maxMoves p)))
    end.

(** [_executeMove(tilePos, emptyPos)]; [now] is the reading of
    [Date.now()] for the record's timestamp. *)
Definition _executeMove (p : Puzzle) (now : Z) (tilePos emptyPos : Position)
  : Completion MoveData * Puzzle :=
  let tileValue := getValueAt (currentState p) (row tilePos) (col tilePos) in
  let previousState := clone2DArray (currentState p) in
  match swapPositions (currentState p) tilePos emptyPos with
  | None => (Fault, p)
  | Some swapped =>
      let p := set_currentState p swapped in
      let p := set_moveCount p (moveCount p + 1) in
      let moveData :=
        mkMoveData (moveCount p) tileValue tilePos emptyPos previousState
                   (clone2DArray (currentState p))
                   (maxMoves p - moveCount p) now in
      let p := set_moveHistory p (moveHistory p ++ [moveData]) in
      (Returns moveData, emit p (TILE_MOVED moveData))
  end.

(** [getMoveHistory()]: [[...this.moveHistory]] *)
Definition getMoveHistory (p : Puzzle) : list MoveData :=
  map (fun m => m) (moveHistory p).

(** [_handlePuzzleComplete()] *)
Definition _handlePuzzleComplete (p : Puzzle) (now : Z) : Puzzle :=
  let p := set_isComplete p true in
  let p := set_endTime p (Some now) in
  emit p (PUZZLE_SOLVED (getMoveHistory p) (clone2DArray (currentState p))).

(** [_handleGameOver()] *)
Definition _handleGameOver (p : Puzzle) (now : Z) : Puzzle :=
  let p := set_endTime p (Some now) in
  emit p (GAME_OVER "Out of moves" (getMoveHistory p)
                    (clone2DArray (currentState p))).

(** [moveTile(row, col)].  [tStart], [tMove] and [tEnd] are the readings
    of [Date.now()] for the timer start, the move record and the end
    stamp. *)
Definition moveTile (p : Puzzle) (tStart tMove tEnd : Z) (r c : Z)
  : Completion bool * Puzzle :=
  if isComplete p then (Returns false, p)
  else
    let p := match startTime p with
             | None => set_startTime p (Some tStart)
             | Some _ => p
             end in
    if (r <? 0) || (r >=? Z.of_nat (size p)) || (c <? 0) || (c >=? Z.of_nat (size p))
    then (Returns false,
          emit p (INVALID_MOVE "Position out of bounds" (mkPos r c) None))
    else
      let tilePos := mkPos r c in
      match findEmptyPosition (currentState p) with
      | None => (Fault, p) (* [areAdjacent] reads [pos2.row] of null *)
      | Some emptyPos =>
          if negb (areAdjacent tilePos emptyPos)
          then (Returns false,
                emit p (INVALID_MOVE "Tile not adjacent to empty space"
                                     tilePos (Some emptyPos)))
          else
            match _executeMove p tMove tilePos emptyPos with
            | (Returns _, p) =>
                if isPuzzleSolved (currentState p)
                then (Returns true, _handlePuzzleComplete p tEnd)
                else if moveCount p >=? maxMoves p
                     then (Returns true, _handleGameOver p tEnd)
                     else (Returns true, p)
            | (ThrowsError m, p) => (ThrowsError m, p)
            | (Fault, p) => (Fault, p)
            end
      end.

(** [moveTileByValue(tileValue)] *)
Definition moveTileByValue (p : Puzzle) (tStart tMove tEnd : Z) (tileValue' : Z)
  : Completion bool * Puzzle :=
  if tileValue' =? MECHANICS.EMPTY_TILE then (Returns false, p)
  else match findPosition (currentState p) tileValue' with
       | None => (Returns false, p)
       | Some tilePos => moveTile p tStart tMove tEnd (row tilePos) (col tilePos)
       end.

(** [arr.pop()]: the last element and the shortened array. *)
Definition js_pop {A : Type} (arr : list A) : option (A * list A) :=
  match rev arr with
  | [] => None
  | lastItem :: front => Some (lastItem, rev front)
  end.

(** [undoLastMove()] *)
Definition undoLastMove (p : Puzzle) : Completion bool * Puzzle :=
  if (length (moveHistory p) =? 0)%nat || isComplete p then (Returns false, p)
  else
    match js_pop (moveHistory p) with
    | None => (Fault, p)
    | Some (lastMove, rest) =>
        let p := set_moveHistory p rest in
        let p := set_currentState p (previousState lastMove) in
        let p := set_moveCount p (moveCount p - 1) in
        (Returns true,
         emit p (MOVE_UNDONE lastMove (clone2DArray (currentState p)) (moveCount p)))
    end.

(** [canUndo()] *)
Definition canUndo (p : Puzzle) : bool :=
  (0 <? length (moveHistory p))%nat && negb (isComplete p).

(** [getCurrentState()] *)
Definition getCurrentState (p : Puzzle) : Board := clone2DArray (currentState p).

(** [getSolvedState()] *)
Definition getSolvedState (p : Puzzle) : Board := clone2DArray (solvedState p).

(** [isSolved()] *)
Definition isSolved (p : Puzzle) : bool := isPuzzleSolved (currentState p).

(** [getMoveCount()] *)
Definition getMoveCount (p : Puzzle) : Z := moveCount p.

(** [getMovesRemaining()] *)
Definition getMovesRemaining (p : Puzzle) : Z :=
  Z.max 0 (maxMoves p - moveCount p).

(** [getEmptyPosition()] *)
Definition getEmptyPosition (p : Puzzle) : option Position :=
  findEmptyPosition (currentState p).

(** [Puzzle.getValidMoves()]: the positions next to the empty cell. *)
Definition puzzleGetValidMoves (p : Puzzle) : Completion (list Position) :=
  match findEmptyPosition (currentState p) with
  | None => Fault (* [emptyPos.row] of null *)
  | Some emptyPos =>
      Returns (getAdjacentPositions (row emptyPos) (col emptyPos)
                                    (Z.of_nat (size p)))
  end.

(** [reset()] *)
Definition reset (p : Puzzle) : Puzzle :=
  let p := set_currentState p (clone2DArray (initialState p)) in
  let p := clearProgress p in
  emit p (PUZZLE_RESET (clone2DArray (currentState p))).

(** [restart(shuffleMoves)] *)
Definition restart (p : Puzzle) (random : nat -> Q) (shuffleMoves : nat)
  : Completion unit * Puzzle :=
  generatePuzzle p random shuffleMoves (maxMoves p).

(** [createPuzzle(size)] *)
Definition createPuzzle (size : nat) : Puzzle := newPuzzle size.

(** [createPuzzleFromState(puzzleState, maxMoves)] *)
Definition createPuzzleFromState (puzzleState : Board) (maxMoves' : Z)
  : Completion Puzzle :=
  let puzzle := newPuzzle (length puzzleState) in
  match setPuzzleState puzzle puzzleState maxMoves' with
  | (Returns _, puzzle) => Returns puzzle
  | (ThrowsError m, _) => ThrowsError m
  | (Fault, _) => Fault
  end.

(** Sessions that the public operations of the class produce, from a
    constructed object on. *)
Inductive reachable : Puzzle -> Prop :=
| reach_new size' : reachable (newPuzzle size')
| reach_generate p random shuffleMoves maxMoves' :
    reachable p -> reachable (generatePuzzle p random shuffleMoves maxMoves').2
| reach_setPuzzleState p puzzleState maxMoves' :
    reachable p -> reachable (setPuzzleState p puzzleState maxMoves').2
| reach_moveTile p tStart tMove tEnd r c :
    reachable p -> reachable (moveTile p tStart tMove tEnd r c).2
| reach_moveTileByValue p tStart tMove tEnd v :
    reachable p -> reachable (moveTileByValue p tStart tMove tEnd v).2
| reach_undoLastMove p :
    reachable p -> reachable (undoLastMove p).2
| reach_reset p :
    reachable p -> reachable (reset p)
| reach_restart p random shuffleMoves :
    reachable p -> reachable (restart p random shuffleMoves).2.

Definition scenarioA : Board := [[1;2;3];[4;5;6];[7;0;8]].
Definition scenarioB : Board :=
  [[1;2;3;4];[5;6;7;8];[9;10;11;12];[13;15;14;0]].
Definition almostA : Board := [[1;2;3];[4;5;6];[0;7;8]].

(** [exportState()] on values: the fields, as they are. *)
Record ExportedState := mkExported {
  ex_size : nat;
  ex_currentState : Board;
  ex_initialState : Board;
  ex_moveHistory : list MoveData;
  ex_moveCount : Z;
  ex_maxMoves : Z;
  ex_startTime : option Z;
  ex_endTime : option Z;
  ex_isComplete : bool
}.

Definition exportState (p : Puzzle) : ExportedState :=
  mkExported (size p) (currentState p) (initialState p) (moveHistory p)
             (moveCount p) (maxMoves p) (startTime p) (endTime p) (isComplete p).

(* ===================================================================== *)
(** * The boards of a session as heap objects *)
(* ===================================================================== *)

(** JS arrays are objects: a 2D array is an outer array whose elements
    are references to row arrays.  This module keeps the references, to
    tell a copy from an alias. *)
Module Refs.

Abbreviation ref := positive.

Inductive obj :=
| Row (cells : list Z)
| Grid (rows : list ref).

Abbreviation heap := (gmap positive obj).

(** A new array object. *)
Definition alloc (h : heap) (o : obj) : ref * heap :=
  let r := fresh (dom h) in (r, <[r := o]> h).

Definition readRow (h : heap) (r : ref) : option (list Z) :=
  match h !! r with
  | Some (Row cells) => Some cells
  | _ => None
  end.

(** The grid of integers that reference [g] denotes in [h]. *)
Definition readGrid (h : heap) (g : ref) : option Board :=
  match h !! g with
  | Some (Grid rows) => mapM (readRow h) rows
  | _ => None
  end.

(** The objects a grid is made of: the outer array and its rows. *)
Definition footprint (h : heap) (g : ref) : list ref :=
  match h !! g with
  | Some (Grid rows) => g :: rows
  | _ => [g]
  end.

(** [array.map(row => [...row])]: one new row object per row. *)
Fixpoint cloneRows (h : heap) (rows : list ref) : option (list ref * heap) :=
  match rows with
  | [] => Some ([], h)
  | r :: rs =>
      match readRow h r with
      | None => None
      | Some cells =>
          let (r2, h1) := alloc h (Row cells) in
          match cloneRows h1 rs with
          | None => None
          | Some (rs2, h2) => Some (r2 :: rs2, h2)
          end
      end
  end.

(** [clone2DArray(array)]: new rows, then the new outer array. *)
Definition clone2DArray (h : heap) (g : ref) : option (ref * heap) :=
  match h !! g with
  | Some (Grid rows) =>
      match cloneRows h rows with
      | Some (rows2, h1) => Some (alloc h1 (Grid rows2))
      | None => None
      end
  | _ => None
  end.

(** A caller's [board[i][j] = v] on a cell that exists. *)
Definition writeCell (h : heap) (g : ref) (i j : nat) (v : Z) : heap :=
  match h !! g with
  | Some (Grid rows) =>
      match rows !! i with
      | Some r =>
          match h !! r with
          | Some (Row cells) => <[r := Row (<[j := v]> cells)]> h
          | _ => h
          end
      | None => h
      end
  | _ => h
  end.

(** The board references of a move record. *)
Record MoveRefs := mkMoveRefs { previousState : ref; md_currentState : ref }.

(** The board-valued fields of a [Puzzle] object. *)
Record Puzzle := mkPuzzle {
  currentState : ref;
  initialState : ref;
  solvedState : ref;
  moveHistory : list MoveRefs
}.

(** Every board reference the session holds. *)
Definition boards (p : Puzzle) : list ref :=
  currentState p :: initialState p :: solvedState p
    :: flat_map (fun m => [previousState m; md_currentState m]) (moveHistory p).

(** [getCurrentState()] *)
Definition getCurrentState (h : heap) (p : Puzzle) : option (ref * heap) :=
  clone2DArray h (currentState p).

(** [getSolvedState()] *)
Definition getSolvedState (h : heap) (p : Puzzle) : option (ref * heap) :=
  clone2DArray h (solvedState p).

(** The board-valued fields of the object [exportState()] returns. *)
Record Exported := mkExported {
  ex_currentState : ref;
  ex_initialState : ref;
  ex_moveHistory : list MoveRefs
}.

(** [exportState()]: the object literal copies the references. *)
Definition exportState (p : Puzzle) : Exported :=
  mkExported (currentState p) (initialState p) (moveHistory p).

(** The session's references all denote grids. *)
Definition wellFormed (h : heap) (p : Puzzle) : Prop :=
  Forall (fun g => is_Some (readGrid h g)) (boards p).

(** [h2] differs from [h1] at most on the objects of grid [g]: what a
    caller can change through the reference [g] alone. *)
Definition changedThrough (h1 : heap) (g : ref) (h2 : heap) : Prop :=
  forall q : ref, q ∉ footprint h1 g -> h2 !! q = h1 !! q.

(** A new 2D array holding the grid [b]: its rows, then the outer
    array ([create2DArray] followed by the cell assignments). *)
Fixpoint allocRows (h : heap) (b : Board) : list ref * heap :=
  match b with
  | [] => ([], h)
  | cells :: rest =>
      let (r, h1) := alloc h (Row cells) in
      let (rs, h2) := allocRows h1 rest in
      (r :: rs, h2)
  end.

Definition allocGrid (h : heap) (b : Board) : ref * heap :=
  let (rows, h1) := allocRows h b in alloc h1 (Grid rows).

(** [new Puzzle(size)]: [_initializePuzzle] builds the solved grid and
    clones it twice. *)
Definition newPuzzle (h : heap) (size : nat) : option (Puzzle * heap) :=
  let (solved, h1) := allocGrid h (createSolvedPuzzle size) in
  match clone2DArray h1 solved with
  | None => None
  | Some (current, h2) =>
      match clone2DArray h2 solved with
      | None => None
      | Some (initial, h3) => Some (mkPuzzle current initial solved [], h3)
      end
  end.

(** The session [new Puzzle(3)] in an empty heap. *)
Definition session0 : Puzzle * heap :=
  match newPuzzle ∅ 3 with
  | Some ph => ph
  | None => (mkPuzzle 1%positive 1%positive 1%positive [], ∅)
  end.

(** [result] is a copy of grid [g] that shares no object with the
    session: it denotes the same integers, it is none of the session's
    references, and whatever a caller changes through it, every board
    of the session, and the next answers of [getCurrentState] and
    [getSolvedState], stay what they were. *)
Definition freshCopy (h : heap) (p : Puzzle) (g : ref)
           (result : option (ref * heap)) : Prop :=
  exists r h',
    result = Some (r, h')
    /\ readGrid h' r = readGrid h g
    /\ (r ∉ boards p)
    /\ forall h2,
        changedThrough h' r h2 ->
        Forall (fun q => readGrid h2 q = readGrid h q) (boards p)
        /\ (exists r2 h3, getCurrentState h2 p = Some (r2, h3)
                          /\ readGrid h3 r2 = readGrid h (currentState p))
        /\ (exists r2 h3, getSolvedState h2 p = Some (r2, h3)
                          /\ readGrid h3 r2 = readGrid h (solvedState p)).

End Refs.


(* ===================================================================== *)
(** * ArrayUtils.js : the remaining functions *)
(* ===================================================================== *)

(** [arr.slice(i, j)] for [0 <= i <= j]. *)
Definition js_slice {A : Type} (arr : list A) (i j : nat) : list A :=
  take (j - i) (drop i arr).

(** The [for] loop of [arrayTo2D], from index [i].  One unit of [fuel]
    per iteration; [None] when the fuel is spent before the loop ends. *)
Fixpoint arrayTo2DLoop {A : Type} (fuel : nat) (array1D : list A) (cols i : nat)
  : option (list (list A)) :=
  if (i <? length array1D)%nat then
    match fuel with
    | O => None
    | S fuel' =>
        option_map (cons (js_slice array1D i (i + cols)))
                   (arrayTo2DLoop fuel' array1D cols (i + cols))
    end
  else Some [].

(** [arrayTo2D(array1D, cols)].  With [cols >= 1] the loop makes at most
    [array1D.length] iterations; with [cols = 0] on a non-empty array it
    never ends ([None]). *)
Definition arrayTo2D {A : Type} (array1D : list A) (cols : nat)
  : option (list (list A)) :=
  arrayTo2DLoop (length array1D) array1D cols 0.

(** [line[c] = value]: inside the array, or just past its end (the array
    grows by one).  [None]: further out, where JS leaves holes. *)
Definition js_write (line : list Z) (c : nat) (value : Z) : option (list Z) :=
  if (c <? length line)%nat then Some (<[c := value]> line)
  else if (c =? length line)%nat then Some (line ++ [value])
  else None.

(** [setValueAt(puzzle, row, col, value)].  The guard compares [col] with
    the length of the first row; [None] is a write that leaves holes in a
    shorter row. *)
Definition setValueAt (puzzle : Board) (r c value : Z) : option Board :=
  let newPuzzle := clone2DArray puzzle in
  if (0 <=? r) && (r <? len puzzle) && (0 <=? c)
     && (c <? match puzzle with [] => 0 | line0 :: _ => len line0 end)
  then
    match js_index newPuzzle r with
    | Some line =>
        match js_write line (Z.to_nat c) value with
        | Some line' => Some (<[Z.to_nat r := line']> newPuzzle)
        | None => None
        end
    | None => None
    end
  else Some newPuzzle.

(** The [for] loop of [shuffleArray]: [i] counts down to 1, [k] counts the
    calls of [Math.random()].  The destructuring assignment reads
    [shuffled[j]] and [shuffled[i]], then writes [shuffled[i]], then
    [shuffled[j]].  [None]: an index outside the array (no draw in [0,1)
    gives one).  The rounded product of a double below 1 with [i + 1]
    stays below [i + 1], so [randomIndex] is the index JS computes. *)
Fixpoint shuffleArrayLoop {A : Type} (random : nat -> Q) (k i : nat)
         (shuffled : list A) : option (list A) :=
  match i with
  | O => Some shuffled
  | S i' =>
      let j := randomIndex (random k) (i + 1) in
      match js_index shuffled j, shuffled !! i with
      | Some atJ, Some atI =>
          shuffleArrayLoop random (S k) i'
                           (<[Z.to_nat j := atI]> (<[i := atJ]> shuffled))
      | _, _ => None
      end
  end.

(** [shuffleArray(array)] *)
Definition shuffleArray {A : Type} (random : nat -> Q) (array : list A)
  : option (list A) :=
  let shuffled := map (fun a => a) array in
  shuffleArrayLoop random 0 (length shuffled - 1) shuffled.

(** Inner loop of [arrays2DEqual]: some [j < row1.length] with
    [row1[j] !== row2[j]] ([row2[j]] may be undefined). *)
Fixpoint cellsDiffer (row1 row2 : list Z) : bool :=
  match row1, row2 with
  | [], _ => false
  | _ :: _, [] => true
  | v1 :: rest1, v2 :: rest2 => negb (v1 =? v2) || cellsDiffer rest1 rest2
  end.

(** Outer loop of [arrays2DEqual]; it runs after the lengths of the
    outer arrays were found equal, so [arr2[i]] exists. *)
Fixpoint arrays2DEqualLoop (arr1 arr2 : Board) : bool :=
  match arr1, arr2 with
  | [], _ => true
  | _ :: _, [] => false
  | row1 :: rest1, row2 :: rest2 =>
      if negb (length row1 =? length row2)%nat then false
      else if cellsDiffer row1 row2 then false
      else arrays2DEqualLoop rest1 rest2
  end.

(** [arrays2DEqual(arr1, arr2)] *)
Definition arrays2DEqual (arr1 arr2 : Board) : bool :=
  if negb (length arr1 =? length arr2)%nat then false
  else arrays2DEqualLoop arr1 arr2.

(** Distance of the tile [value] at ([r], [c]) from its target cell:
    [Math.floor((value - 1) / size)] and [(value - 1) % size]. *)
Definition tileDistance (size : Z) (r c value : Z) : Z :=
  let targetRow := (value - 1) / size in
  let targetCol := Z.rem (value - 1) size in
  Z.abs (r - targetRow) + Z.abs (c - targetCol).

(** The loops of [getManhattanDistance] over the remaining positions.
    [None]: a cell that does not exist (a [TypeError] on a missing row, or
    [NaN] from an undefined cell). *)
Fixpoint getManhattanLoop (puzzle : Board) (size : nat)
         (todo : list (nat * nat)) (distance : Z) : option Z :=
  match todo with
  | [] => Some distance
  | (r, c) :: rest =>
      match cellAt puzzle (Z.of_nat r) (Z.of_nat c) with
      | None => None
      | Some value =>
          getManhattanLoop puzzle size rest
            (if negb (value =? MECHANICS.EMPTY_TILE)
             then distance + tileDistance (Z.of_nat size) (Z.of_nat r) (Z.of_nat c) value
             else distance)
      end
  end.

(** [getManhattanDistance(puzzle, size)] *)
Definition getManhattanDistance (puzzle : Board) (size : nat) : option Z :=
  getManhattanLoop puzzle size (gridPositions size) 0.

(* ===================================================================== *)
(** * Constants.js : board geometry *)
(* ===================================================================== *)

Module BOARD.
Definition MIN_SIZE : Z := 3.
Definition MAX_SIZE : Z := 5.
Definition TILE_SIZE : Z := 80.
Definition TILE_GAP : Z := 2.
Definition PADDING : Z := 20.
End BOARD.

(** [getBoardDimensions(size)]: width and height in pixels. *)
Definition getBoardDimensions (size : Z) : Z * Z :=
  let totalTileSize := BOARD.TILE_SIZE * size in
  let totalGapSize := BOARD.TILE_GAP * (size - 1) in
  let dimension := totalTileSize + totalGapSize + BOARD.PADDING * 2 in
  (dimension, dimension).

(** [getTilePosition(row, col)]: x and y in pixels. *)
Definition getTilePosition (r c : Z) : Z * Z :=
  (BOARD.PADDING + c * (BOARD.TILE_SIZE + BOARD.TILE_GAP),
   BOARD.PADDING + r * (BOARD.TILE_SIZE + BOARD.TILE_GAP)).

(* ===================================================================== *)
(** * Validator.js : the remaining functions *)
(* ===================================================================== *)

Module VALIDATION.
(** [VALIDATION.LEVEL]; the table has no [BOARD] entry. *)
Definition MIN_LEVEL : Z := 1.
Definition MAX_LEVEL : Z := 50.
End VALIDATION.

(** [isValidBoardSize(size)] for an integer [size]. *)
Definition isValidBoardSize (size : Z) : bool :=
  (size >=? VALIDATION.MIN_LEVEL) && (size <=? VALIDATION.MAX_LEVEL).

(** [isValidTileValue(value, size)] for an integer [value]. *)
Definition isValidTileValue (value size : Z) : bool :=
  (value >=? MECHANICS.EMPTY_TILE) && (value <? size * size).

(** [validateTileMoveByValue(puzzle, tileValue)] *)
Definition validateTileMoveByValue (puzzle : Board) (tileValue' : Z)
  : ValidationResult :=
  if negb (isValidTileValue tileValue' (len puzzle)) then
    mkValidation false "Invalid tile value" NoDetails
  else
    match findPosition puzzle tileValue' with
    | None => mkValidation false "Tile not found in puzzle" NoDetails
    | Some tilePos => validateTileMove puzzle (row tilePos) (col tilePos)
    end.

(** An entry of [result.misplacedTiles]. *)
Record MisplacedTile := mkMisplaced {
  mt_position : Position;
  mt_currentValue : option Z;
  mt_expectedValue : option Z
}.

(** The result of [validateWinCondition]; [details.completionPercentage]
    is a floating-point figure and is left out. *)
Record WinCondition := mkWin {
  solved : bool;
  correctTiles : Z;
  totalTiles : Z;
  misplacedTiles : list MisplacedTile;
  remainingMoves : Z;
  perfectSolution : bool
}.

(** The loops of [validateWinCondition] over the remaining positions. *)
Fixpoint validateWinLoop (puzzle solvedState : Board) (todo : list (nat * nat))
         (correct : Z) (misplaced : list MisplacedTile)
  : Z * list MisplacedTile :=
  match todo with
  | [] => (correct, misplaced)
  | (r, c) :: rest =>
      let currentValue := cellAt puzzle (Z.of_nat r) (Z.of_nat c) in
      let expectedValue := cellAt solvedState (Z.of_nat r) (Z.of_nat c) in
      if bool_decide (currentValue = expectedValue)
      then validateWinLoop puzzle solvedState rest (correct + 1) misplaced
      else validateWinLoop puzzle solvedState rest correct
             (misplaced ++ [mkMisplaced (mkPos (Z.of_nat r) (Z.of_nat c))
                                        currentValue expectedValue])
  end.

(** [validateWinCondition(puzzle)] *)
Definition validateWinCondition (puzzle : Board) : WinCondition :=
  let size := length puzzle in
  let solvedState := createSolvedPuzzle size in
  let total := Z.of_nat size * Z.of_nat size in
  let '(correct, misplaced) :=
    validateWinLoop puzzle solvedState (gridPositions size) 0 [] in
  let isSolved := correct =? total in
  mkWin isSolved correct total misplaced (len misplaced) isSolved.

(** A tile kept by a pass of [calculateLinearConflicts]: its value and
    its column (row pass) or row (column pass). *)
Record LineTile := mkLineTile { lt_value : Z; lt_at : Z }.

(** The two nested loops that count the conflicts of one line:
    [target] gives the target column (row pass) or row (column pass). *)
Fixpoint lineConflictsInner (target : Z -> Z) (tile1 : LineTile)
         (after : list LineTile) (conflicts : Z) : Z :=
  match after with
  | [] => conflicts
  | tile2 :: rest =>
      lineConflictsInner target tile1 rest
        (if ((lt_at tile1 <? lt_at tile2)
             && (target (lt_value tile1) >? target (lt_value tile2)))
            || ((lt_at tile1 >? lt_at tile2)
                && (target (lt_value tile1) <? target (lt_value tile2)))
         then conflicts + 1 else conflicts)
  end.

Fixpoint lineConflicts (target : Z -> Z) (tiles : list LineTile) (conflicts : Z) : Z :=
  match tiles with
  | [] => conflicts
  | tile1 :: after =>
      lineConflicts target after (lineConflictsInner target tile1 after conflicts)
  end.

(** [tilesInCorrectRow] for [row]: the non-empty cells whose target row
    is [row], with their columns.  An undefined cell is skipped (its
    target is NaN). *)
Definition tilesInCorrectRow (puzzle : Board) (size : nat) (r : nat) : list LineTile :=
  flat_map (fun c =>
              match cellAt puzzle (Z.of_nat r) (Z.of_nat c) with
              | Some value =>
                  if negb (value =? MECHANICS.EMPTY_TILE)
                     && ((value - 1) / Z.of_nat size =? Z.of_nat r)
                  then [mkLineTile value (Z.of_nat c)] else []
              | None => []
              end)
           (seq 0 size).

(** [tilesInCorrectCol] for [col]. *)
Definition tilesInCorrectCol (puzzle : Board) (size : nat) (c : nat) : list LineTile :=
  flat_map (fun r =>
              match cellAt puzzle (Z.of_nat r) (Z.of_nat c) with
              | Some value =>
                  if negb (value =? MECHANICS.EMPTY_TILE)
                     && (Z.rem (value - 1) (Z.of_nat size) =? Z.of_nat c)
                  then [mkLineTile value (Z.of_nat r)] else []
              | None => []
              end)
           (seq 0 size).

(** [calculateLinearConflicts(puzzle)]: the row pass, then the column
    pass, on one counter. *)
Definition calculateLinearConflicts (puzzle : Board) : Z :=
  let size := length puzzle in
  let afterRows :=
    fold_left (fun conflicts r =>
                 lineConflicts (fun value => Z.rem (value - 1) (Z.of_nat size))
                               (tilesInCorrectRow puzzle size r) conflicts)
              (seq 0 size) 0 in
  fold_left (fun conflicts c =>
               lineConflicts (fun value => (value - 1) / Z.of_nat size)
                             (tilesInCorrectCol puzzle size c) conflicts)
            (seq 0 size) afterRows.

(** The messages pushed on [result.errors] by [validateTileValues] and
    [validatePuzzleState]: one constructor per message, its arguments
    the values interpolated in the text. *)
Inductive ValidationError :=
| ExpectedTiles (expectedTotal got : Z)
    (* `Expected ${expectedTotal} tiles, got ${flatPuzzle.length}` *)
| InvalidTileValues (invalidValues : list (nat * Z))
    (* `Invalid tile values found: ...`, as (index, value) *)
| MissingValues (missingValues : list Z)
    (* `Missing values: ...` *)
| PuzzleCannotBeEmpty
    (* 'Puzzle cannot be empty' *)
| RowInvalidLength (i : nat) (expected got : Z)
    (* `Row ${i} has invalid length. Expected ${size}, got ...` *)
| NotSolvable.
    (* 'Puzzle configuration is not solvable' *)

(** The result of [validateTileValues]. *)
Record TileValidation := mkTileValidation {
  tv_valid : bool;
  tv_errors : list ValidationError;
  tv_warnings : list ValidationError
}.

(** The [forEach] of [validateTileValues]: [foundValues] and
    [invalidValues] after the remaining values.  [expectedValues] holds
    [0 .. expectedTotal - 1].  [None]: a value already in [foundValues]
    is met; the code then calls [foundValues.get], which a [Set] does not
    have (a [TypeError]). *)
Fixpoint scanTileValues (expectedTotal : Z) (values : list Z) (index : nat)
         (foundValues : gset Z) (invalidValues : list (nat * Z))
  : option (gset Z * list (nat * Z)) :=
  match values with
  | [] => Some (foundValues, invalidValues)
  | value :: rest =>
      if negb ((0 <=? value) && (value <=? expectedTotal - 1)) then
        scanTileValues expectedTotal rest (S index) foundValues
                       (invalidValues ++ [(index, value)])
      else if bool_decide (value ∈ foundValues) then None
      else scanTileValues expectedTotal rest (S index)
                          ({[value]} ∪ foundValues) invalidValues
  end.

(** [[...expectedValues]]: [0 .. expectedTotal - 1] in insertion order. *)
Definition expectedValuesList (expectedTotal : Z) : list Z :=
  map Z.of_nat (seq 0 (Z.to_nat expectedTotal)).

(** [validateTileValues(flatPuzzle, size)].  The duplicates list is
    still empty whenever the scan ends, so its message is never pushed. *)
Definition validateTileValues (flatPuzzle : list Z) (size : nat)
  : Completion TileValidation :=
  let expectedTotal := Z.of_nat size * Z.of_nat size in
  let errors1 :=
    if negb (len flatPuzzle =? expectedTotal)
    then [ExpectedTiles expectedTotal (len flatPuzzle)] else [] in
  match scanTileValues expectedTotal flatPuzzle 0 ∅ [] with
  | None => Fault
  | Some (foundValues, invalidValues) =>
      let errors2 :=
        if (0 <? length invalidValues)%nat
        then [InvalidTileValues invalidValues] else [] in
      let missingValues :=
        List.filter (fun v => negb (bool_decide (v ∈ foundValues)))
                    (expectedValuesList expectedTotal) in
      let errors3 :=
        if (0 <? length missingValues)%nat
        then [MissingValues missingValues] else [] in
      let errors := errors1 ++ errors2 ++ errors3 in
      Returns (mkTileValidation (length errors =? 0)%nat errors [])
  end.

(** [result.details] of [validatePuzzleState]. *)
Record StateDetails := mkStateDetails {
  sd_size : nat;
  sd_totalTiles : Z;
  sd_solvable : bool;
  sd_solved : bool;
  sd_emptyPosition : option Position;
  sd_validMoves : nat
}.

(** The result of [validatePuzzleState]. *)
Record StateValidation := mkStateValidation {
  sv_valid : bool;
  sv_errors : list ValidationError;
  sv_warnings : list ValidationError;
  sv_details : option StateDetails
}.

(** The row loop of [validatePuzzleState], from row [i]. *)
Fixpoint rowLengthErrors (size : nat) (rows : Board) (i : nat)
  : list ValidationError :=
  match rows with
  | [] => []
  | line :: rest =>
      (if negb (length line =? size)%nat
       then [RowInvalidLength i (Z.of_nat size) (len line)] else [])
      ++ rowLengthErrors size rest (S i)
  end.

(** [validatePuzzleState(puzzle)] on a 2D array.  [Fault]: the message
    for a rejected board size reads [VALIDATION.BOARD.MIN_SIZE], and
    [VALIDATION] has no [BOARD] (a [TypeError]); or [validateTileValues]
    faults. *)
Definition validatePuzzleState (puzzle : Board) : Completion StateValidation :=
  if (length puzzle =? 0)%nat then
    Returns (mkStateValidation false [PuzzleCannotBeEmpty] [] None)
  else
    let size := length puzzle in
    let rowErrors := rowLengthErrors size puzzle 0 in
    if (0 <? length rowErrors)%nat then
      Returns (mkStateValidation false rowErrors [] None)
    else if negb (isValidBoardSize (Z.of_nat size)) then Fault
    else
      match validateTileValues (flatten2DArray puzzle) size with
      | Fault => Fault
      | ThrowsError m => ThrowsError m
      | Returns tileValidation =>
          let errors :=
            if negb (tv_valid tileValidation) then tv_errors tileValidation else [] in
          let warnings :=
            if negb (tv_valid tileValidation) then tv_warnings tileValidation else [] in
          if (length errors =? 0)%nat then
            match isPuzzleSolvable puzzle with
            | None => Fault
            | Some false =>
                Returns (mkStateValidation false [NotSolvable] warnings None)
            | Some true =>
                Returns (mkStateValidation true [] warnings
                           (Some (mkStateDetails size
                                    (Z.of_nat size * Z.of_nat size)
                                    true
                                    (isPuzzleSolved puzzle)
                                    (findEmptyPosition puzzle)
                                    (length (getValidMoves puzzle)))))
            end
          else Returns (mkStateValidation false errors warnings None)
      end.

(* ===================================================================== *)
(** * PuzzleLogic.js : importState *)
(* ===================================================================== *)

(** [value || fallback] for a number: 0 is falsy. *)
Definition orNumber (value fallback : Z) : Z :=
  if value =? 0 then fallback else value.

(** [value || null] for a timestamp that may be null. *)
Definition orNull (value : option Z) : option Z :=
  match value with
  | Some t => if t =? 0 then None else Some t
  | None => None
  end.

(** [importState(data)] for a [data] object with every field present
    ([moveHistory] an array, which is truthy even when empty).  The
    boards of [data] are adopted as they are.  The session's log type has
    no PUZZLE_STATE_IMPORTED entry: the payload of that notification is
    returned beside the session. *)
Definition importState (p : Puzzle) (data : ExportedState) : Puzzle * Board :=
  let p' :=
    mkPuzzle (ex_size data)
             (ex_initialState data)
             (ex_currentState data)
             (createSolvedPuzzle (ex_size data))
             (ex_moveHistory data)
             (orNumber (ex_moveCount data) 0)
             (orNumber (ex_maxMoves data) 100)
             (orNull (ex_startTime data))
             (orNull (ex_endTime data))
             (ex_isComplete data || false)
             (emitted p) in
  (p', clone2DArray (currentState p')).
(* ===================================================================== *)
(** * The parity rule, in the words of the specification *)
(* ===================================================================== *)

(** Specification, section 4.2: the inversions of [value] are the pairs
    [i < j] with [value[i] > value[j]]. *)
Definition spec_inversionPairs (value : list Z) : list (nat * nat) :=
  List.filter (fun ij => (fst ij <? snd ij)%nat
                         && (nth (snd ij) value 0 <? nth (fst ij) value 0))
              (list_prod (seq 0 (length value)) (seq 0 (length value))).

Definition spec_inversions (value : list Z) : nat :=
  length (spec_inversionPairs value).

(** Specification, section 4.2: the rule for an odd board size. *)
Definition spec_oddRule (inversions : nat) : bool := Nat.even inversions.

(** Specification, section 4.2: the rule for an even board size [S] whose
    empty cell is in 0-based row [emptyRow]. *)
Definition spec_evenRule (S : Z) (emptyRow : Z) (inversions : nat) : bool :=
  let emptyRowFromBottom := S - emptyRow in
  (Z.odd emptyRowFromBottom && Nat.even inversions)
  || (Z.even emptyRowFromBottom && Nat.odd inversions).

(** Specification, section 4.2, assembled: flatten, drop the empty value,
    count inversions, apply the rule of the board size.  An even board
    without an empty cell has no verdict. *)
Definition spec_isSolvable (board : Board) : option bool :=
  let S := len board in
  let inversions :=
    spec_inversions (List.filter (fun v => negb (v =? 0)) (concat board)) in
  if Z.odd S then Some (spec_oddRule inversions)
  else option_map (fun emptyPos => spec_evenRule S (row emptyPos) inversions)
                  (findEmptyPosition board).

(* ===================================================================== *)
(** * Vocabulary of the proofs *)
(* ===================================================================== *)

(** Tiles after position [i] that are smaller than the tile [ti]. *)
Definition smallerAfter (ti : Z) (after : list Z) : nat :=
  length (List.filter (fun tj => tj <? ti) after).

(** Tiles of [M] larger than [t]. *)
Definition largerIn (t : Z) (M : list Z) : nat :=
  length (List.filter (fun m => t <? m) M).

(** The inversion count as a sum over the first tile of each pair. *)
Fixpoint inv (tiles : list Z) : nat :=
  match tiles with
  | [] => 0
  | ti :: after => smallerAfter ti after + inv after
  end.

(** Inversions with the first tile in [X] and the second in [R]. *)
Fixpoint cross (X R : list Z) : nat :=
  match X with
  | [] => 0
  | x :: X' => smallerAfter x R + cross X' R
  end.

(** Counting the pairs of [l1] x [l2] that satisfy [P]. *)
Definition countPairs (P : nat -> nat -> bool) (l1 l2 : list nat) : nat :=
  length (List.filter (fun ij => P (fst ij) (snd ij)) (list_prod l1 l2)).

(** The verdict of [isPuzzleSolvable] in terms of [inv]. *)
Definition verdict (size : nat) (tiles : list Z) (emptyRow : Z) : bool :=
  if Nat.odd size then Nat.even (inv tiles)
  else if Z.odd (Z.of_nat size - emptyRow) then Nat.even (inv tiles)
       else Nat.odd (inv tiles).

(** A grid of [S] rows of [S] cells. *)
Definition square (S : nat) (b : Board) : Prop :=
  length b = S /\ Forall (fun line => length line = S) b.

(** A well-formed board as far as the proofs need it: square, and no
    value twice. *)
Definition wellFormedBoard (S : nat) (b : Board) : Prop :=
  square S b /\ NoDup (concat b).

Definition inGrid (S : nat) (p : Position) : Prop :=
  0 <= row p < Z.of_nat S /\ 0 <= col p < Z.of_nat S.

(** Row-major index of a position. *)
Definition flatIndex (S : nat) (p : Position) : nat :=
  Z.to_nat (row p) * S + Z.to_nat (col p).

(** The non-empty tiles of a flat list. *)
Definition nz (l : list Z) : list Z :=
  List.filter (fun tile => negb (tile =? MECHANICS.EMPTY_TILE)) l.

(** [t] is one step up, down, left or right of [e]. *)
Definition slides (e t : Position) : Prop :=
  (row t = row e /\ (col t = col e + 1 \/ col t = col e - 1))
  \/ (col t = col e /\ (row t = row e + 1 \/ row t = row e - 1)).

(** The filter of the shuffle loop: everything but [lastMove]. *)
Definition notLastMove (lastMove : option Position) (pos : Position) : bool :=
  match lastMove with
  | None => true
  | Some lm => negb ((row pos =? row lm) && (col pos =? col lm))
  end.

(** The lazy timer start at the head of [moveTile]. *)
Definition startTimer (p : Puzzle) (tStart : Z) : Puzzle :=
  match startTime p with
  | None => set_startTime p (Some tStart)
  | Some _ => p
  end.

(** [createPuzzleFromState(board, maxMoves)] when it returns; the fresh
    3x3 session otherwise. *)
Definition sessionFrom (board : Board) (maxMoves' : Z) : Puzzle :=
  match createPuzzleFromState board maxMoves' with
  | Returns p => p
  | _ => newPuzzle 3
  end.

(** The session of the budget scenario: board [almostA], budget 1. *)
Definition budgetSession : Puzzle := sessionFrom almostA 1.

(** [budgetSession] after its one allowed move (tile 7, row 2, col 1). *)
Definition exhaustedSession (tStart tMove tEnd : Z) : Puzzle :=
  (moveTile budgetSession tStart tMove tEnd 2 1).2.

(** The cell of the solved board of size [S] at ([r], [c]): the 1-based
    row-major rank, and 0 in the last cell. *)
Definition solvedCell (S r c : nat) : Z :=
  if (Z.of_nat r =? Z.of_nat S - 1) && (Z.of_nat c =? Z.of_nat S - 1)
  then 0
  else Z.of_nat r * Z.of_nat S + Z.of_nat c + 1.

(** The solved board in closed form. *)
Definition solvedGrid (S : nat) : Board :=
  map (fun r => map (fun c => solvedCell S r c) (seq 0 S)) (seq 0 S).

(** The cell of [puzzle] at ([r], [c]) holds the value of the solved
    board of size [S]. *)
Definition cellSolved (S : nat) (puzzle : Board) (rc : nat * nat) : bool :=
  bool_decide (cellAt puzzle (Z.of_nat rc.1) (Z.of_nat rc.2)
               = Some (solvedCell S rc.1 rc.2)).

(** The comparison [validateWinCondition] makes at one position. *)
Definition sameCell (puzzle solvedState : Board) (rc : nat * nat) : bool :=
  bool_decide (cellAt puzzle (Z.of_nat rc.1) (Z.of_nat rc.2)
               = cellAt solvedState (Z.of_nat rc.1) (Z.of_nat rc.2)).

(** The records of [history] lead from the board [start] to the board
    [final]: each record's [previousState] is the board the record before
    it left. *)
Fixpoint historyChain (start : Board) (history : list MoveData) (final : Board)
  : Prop :=
  match history with
  | [] => start = final
  | m :: rest =>
      previousState m = start /\ historyChain (md_currentState m) rest final
  end.

(** The [k]-th record of the history carries move number [k + 1]. *)
Definition numbered (history : list MoveData) : Prop :=
  forall (k : nat) (m : MoveData),
    history !! k = Some m -> moveNumber m = Z.of_nat k + 1.

(** What the fields of a [Puzzle] object satisfy between calls. *)
Record sessionInvariant (p : Puzzle) : Prop := mkSessionInvariant {
  inv_count : moveCount p = Z.of_nat (length (moveHistory p));
  inv_chain : historyChain (initialState p) (moveHistory p) (currentState p);
  inv_numbered : numbered (moveHistory p);
  inv_complete : isComplete p = true -> isPuzzleSolved (currentState p) = true;
  inv_ended : isComplete p = true -> is_Some (endTime p);
  inv_timer : is_Some (endTime p) \/ moveHistory p <> [] -> is_Some (startTime p);
  inv_solved : solvedState p = createSolvedPuzzle (size p)
}.


(** The values of [flatPuzzle] that [expectedValues] has. *)
Definition inRangeValues (expectedTotal : Z) (flatPuzzle : list Z) : list Z :=
  List.filter (fun v => (0 <=? v) && (v <=? expectedTotal - 1)) flatPuzzle.

(** What [getManhattanDistance] adds for the cell at [rc]. *)
Definition distanceTerm (puzzle : Board) (size : nat) (rc : nat * nat) : Z :=
  match cellAt puzzle (Z.of_nat rc.1) (Z.of_nat rc.2) with
  | Some value =>
      if negb (value =? MECHANICS.EMPTY_TILE)
      then tileDistance (Z.of_nat size) (Z.of_nat rc.1) (Z.of_nat rc.2) value
      else 0
  | None => 0
  end.

(** The sum of the distances over a list of cells. *)
Definition distanceSum (puzzle : Board) (size : nat) (cells : list (nat * nat)) : Z :=
  fold_right (fun rc acc => distanceTerm puzzle size rc + acc) 0 cells.

(** A valid board of size [S], as [validatePuzzleState] checks it:
    square, holding each of 0 .. S*S - 1 once. *)
Definition validBoard (S : nat) (b : Board) : Prop :=
  square S b
  /\ Permutation (concat b) (expectedValuesList (Z.of_nat S * Z.of_nat S)).


(** Sessions of play: from [new Puzzle(size)] with a size of at least 1,
    through the public operations, where [setPuzzleState] is given
    valid boards only and [Math.random()] may return anything. *)
Inductive played : Puzzle -> Prop :=
| played_new size' : (1 <= size')%nat -> played (newPuzzle size')
| played_generate p random shuffleMoves maxMoves' :
    played p -> played (generatePuzzle p random shuffleMoves maxMoves').2
| played_setPuzzleState p puzzleState maxMoves' :
    played p -> validBoard (length puzzleState) puzzleState ->
    played (setPuzzleState p puzzleState maxMoves').2
| played_moveTile p tStart tMove tEnd r c :
    played p -> played (moveTile p tStart tMove tEnd r c).2
| played_moveTileByValue p tStart tMove tEnd v :
    played p -> played (moveTileByValue p tStart tMove tEnd v).2
| played_undoLastMove p :
    played p -> played (undoLastMove p).2
| played_reset p :
    played p -> played (reset p)
| played_restart p random shuffleMoves :
    played p -> played (restart p random shuffleMoves).2.


(** Two tiles of a line that [calculateLinearConflicts] does not count:
    the first stands before the second, and its target does not come
    after the second's. *)
Definition inOrder (target : Z -> Z) (tile1 tile2 : LineTile) : Prop :=
  lt_at tile1 < lt_at tile2
  /\ target (lt_value tile1) <= target (lt_value tile2).

(** Every tile of the line is in order with every tile after it. *)
Fixpoint lineInOrder (target : Z -> Z) (tiles : list LineTile) : Prop :=
  match tiles with
  | [] => True
  | tile1 :: after =>
      List.Forall (inOrder target tile1) after /\ lineInOrder target after
  end.

(** [expectedValues.has(value)] for an integer [value]. *)
Definition inExpectedRange (expectedTotal value : Z) : bool :=
  (0 <=? value) && (value <=? expectedTotal - 1).
(* ===================================================================== *)
(** * Inversion counting *)
(* ===================================================================== *)

Section Inversions.

Lemma countInversionsInner_spec ti after acc :
  countInversionsInner ti after acc = (acc + smallerAfter ti after)%nat.
Proof.
  revert acc. induction after as [|tj rest IH]; intros acc; simpl.
  - unfold smallerAfter. simpl. lia.
  - rewrite IH. unfold smallerAfter. simpl.
    destruct (tj <? ti); simpl; lia.
Qed.

Lemma countInversionsOuter_spec tiles acc :
  countInversionsOuter tiles acc = (acc + inv tiles)%nat.
Proof.
  revert acc. induction tiles as [|ti after IH]; intros acc; simpl.
  - lia.
  - rewrite IH, countInversionsInner_spec. lia.
Qed.

Lemma filter_map_length {A B} (f : A -> B) (P : B -> bool) (l : list A) :
  length (List.filter P (map f l)) = length (List.filter (fun a => P (f a)) l).
Proof.
  induction l as [|a l IH]; simpl; [reflexivity|].
  destruct (P (f a)); simpl; rewrite IH; reflexivity.
Qed.

Lemma filter_ext_length {A} (P Q : A -> bool) (l : list A) :
  (forall a, In a l -> P a = Q a) ->
  length (List.filter P l) = length (List.filter Q l).
Proof.
  induction l as [|a l IH]; intros H; simpl; [reflexivity|].
  rewrite (H a) by (left; reflexivity).
  destruct (Q a); simpl; rewrite IH; auto; intros; apply H; right; auto.
Qed.

Lemma countPairs_nil P l2 : countPairs P [] l2 = 0%nat.
Proof. reflexivity. Qed.

Lemma countPairs_cons P a l1 l2 :
  countPairs P (a :: l1) l2
  = (length (List.filter (P a) l2) + countPairs P l1 l2)%nat.
Proof.
  unfold countPairs. simpl. rewrite List.filter_app, List.length_app.
  rewrite filter_map_length. reflexivity.
Qed.

Lemma countPairs_ext P Q l1 l2 :
  (forall i j, In i l1 -> In j l2 -> P i j = Q i j) ->
  countPairs P l1 l2 = countPairs Q l1 l2.
Proof.
  intros H. unfold countPairs. apply filter_ext_length.
  intros [i j] Hin. apply in_prod_iff in Hin. simpl. apply H; tauto.
Qed.

Lemma countPairs_map_l P l1 l2 :
  countPairs P (map S l1) l2 = countPairs (fun i j => P (S i) j) l1 l2.
Proof.
  induction l1 as [|a l1 IH]; [reflexivity|].
  simpl map. rewrite !countPairs_cons, IH. reflexivity.
Qed.

Lemma countPairs_map_r P l1 l2 :
  countPairs P l1 (map S l2) = countPairs (fun i j => P i (S j)) l1 l2.
Proof.
  induction l1 as [|a l1 IH]; [reflexivity|].
  rewrite !countPairs_cons, IH, filter_map_length. reflexivity.
Qed.

Lemma countPairs_skip_r P l1 b l2 :
  (forall i, In i l1 -> P i b = false) ->
  countPairs P l1 (b :: l2) = countPairs P l1 l2.
Proof.
  induction l1 as [|a l1 IH]; intros H; [reflexivity|].
  rewrite !countPairs_cons, IH by (intros; apply H; right; auto).
  simpl. rewrite (H a) by (left; reflexivity). reflexivity.
Qed.

(** Filtering the indexes of a list or its elements counts the same. *)
Lemma filter_index_length (P : Z -> bool) (l : list Z) :
  length (List.filter (fun j => P (nth j l 0)) (seq 0 (length l)))
  = length (List.filter P l).
Proof.
  induction l as [|a l IH]; [reflexivity|].
  simpl. rewrite <- seq_shift.
  destruct (P a); simpl; rewrite filter_map_length, IH; reflexivity.
Qed.

Lemma spec_inversions_inv (value : list Z) :
  spec_inversions value = inv value.
Proof.
  unfold spec_inversions, spec_inversionPairs.
  change (countPairs (fun i j => (i <? j)%nat && (nth j value 0 <? nth i value 0))
                     (seq 0 (length value)) (seq 0 (length value)) = inv value).
  induction value as [|v rest IH]; [reflexivity|].
  change (length (v :: rest)) with (S (length rest)).
  rewrite <- cons_seq, <- seq_shift.
  rewrite countPairs_cons. simpl inv. f_equal.
  - simpl List.filter. rewrite filter_map_length. simpl.
    apply (filter_index_length (fun tj => tj <? v)).
  - rewrite countPairs_skip_r.
    2:{ intros i Hi. apply in_map_iff in Hi as (k & <- & _). reflexivity. }
    rewrite countPairs_map_l, countPairs_map_r. exact IH.
Qed.

Lemma mod2_even n : (n mod 2 =? 0)%nat = Nat.even n.
Proof.
  destruct (Nat.even n) eqn:E.
  - apply Nat.even_spec in E. destruct E as [k ->].
    rewrite Nat.mul_comm, Nat.Div0.mod_mul. reflexivity.
  - apply Nat.eqb_neq. intros H.
    assert (Nat.even n = true); [|congruence].
    apply Nat.even_spec. exists (n / 2)%nat.
    pose proof (Nat.div_mod_eq n 2). lia.
Qed.

Lemma mod2_odd n : (n mod 2 =? 1)%nat = Nat.odd n.
Proof.
  rewrite <- Nat.negb_even, <- mod2_even.
  pose proof (Nat.mod_upper_bound n 2 ltac:(lia)).
  destruct (n mod 2)%nat as [|[|k]] eqn:E; simpl; try reflexivity; lia.
Qed.

End Inversions.

(* ===================================================================== *)
(** * C1: the solvability analyzer follows the parity rule *)
(* ===================================================================== *)

Lemma Z_parity_of_nat n :
  Z.odd (Z.of_nat n) = Nat.odd n /\ Z.even (Z.of_nat n) = Nat.even n.
Proof.
  induction n as [|n [IHo IHe]]; [split; reflexivity|].
  rewrite Nat2Z.inj_succ, Z.odd_succ, Z.even_succ, Nat.odd_succ, Nat.even_succ.
  split; assumption.
Qed.

Lemma rem2_odd e : 0 <= e -> (Z.rem e 2 =? 1) = Z.odd e.
Proof.
  intros He. rewrite Z.rem_mod_nonneg by lia. rewrite Zmod_odd.
  destruct (Z.odd e); reflexivity.
Qed.

Lemma findInRow_bounds line value c0 c :
  findInRow line value c0 = Some c ->
  c0 <= c < c0 + len line /\ js_index line (c - c0) = Some value.
Proof.
  unfold len. revert c0. induction line as [|v vs IH]; intros c0 H; simpl in H.
  - discriminate.
  - destruct (v =? value) eqn:E.
    + inversion H; subst c. apply Z.eqb_eq in E. subst v.
      rewrite Z.sub_diag. simpl length. split; [lia | reflexivity].
    + apply IH in H. destruct H as [Hb Hc]. simpl length. split; [lia|].
      unfold js_index in *.
      destruct (c - (c0 + 1) <? 0) eqn:E1; [discriminate|].
      apply Z.ltb_ge in E1.
      destruct (c - c0 <? 0) eqn:E2; [apply Z.ltb_lt in E2; lia|].
      replace (Z.to_nat (c - c0)) with (S (Z.to_nat (c - (c0 + 1)))) by lia.
      exact Hc.
Qed.

Lemma findPositionFrom_bounds puzzle value r0 p :
  findPositionFrom puzzle value r0 = Some p ->
  r0 <= row p < r0 + len puzzle
  /\ cellAt puzzle (row p - r0) (col p) = Some value.
Proof.
  unfold len. revert r0. induction puzzle as [|line rest IH]; intros r0 H; simpl in H.
  - discriminate.
  - destruct (findInRow line value 0) as [c|] eqn:E.
    + inversion H; subst p. simpl. apply findInRow_bounds in E.
      rewrite Z.sub_diag. split; [lia|].
      unfold cellAt. simpl. rewrite Z.sub_0_r in E. apply E.
    + apply IH in H. destruct H as [Hb Hc]. simpl length. split; [lia|].
      unfold cellAt, js_index in *.
      destruct (row p - (r0 + 1) <? 0) eqn:E1; [discriminate|].
      apply Z.ltb_ge in E1.
      destruct (row p - r0 <? 0) eqn:E2; [apply Z.ltb_lt in E2; lia|].
      replace (Z.to_nat (row p - r0)) with (S (Z.to_nat (row p - (r0 + 1)))) by lia.
      exact Hc.
Qed.

Lemma findPosition_bounds puzzle value p :
  findPosition puzzle value = Some p ->
  0 <= row p < len puzzle /\ cellAt puzzle (row p) (col p) = Some value.
Proof.
  intros H. apply findPositionFrom_bounds in H.
  rewrite Z.sub_0_r in H. exact H.
Qed.

Lemma isPuzzleSolvable_verdict (puzzle : Board) :
  isPuzzleSolvable puzzle =
  if Nat.odd (length puzzle)
  then Some (Nat.even (inv (tilesOnly puzzle)))
  else option_map (fun emptyPos =>
                     verdict (length puzzle) (tilesOnly puzzle) (row emptyPos))
                  (findEmptyPosition puzzle).
Proof.
  unfold isPuzzleSolvable, verdict.
  rewrite countInversionsOuter_spec, Nat.add_0_l, !mod2_odd, !mod2_even.
  destruct (Nat.odd (length puzzle)) eqn:Hodd; [reflexivity|].
  destruct (findEmptyPosition puzzle) as [emptyPos|] eqn:Hempty; [|reflexivity].
  cbn [option_map]. apply findPosition_bounds in Hempty.
  destruct Hempty as [Hrow _]. unfold len in Hrow.
  rewrite rem2_odd by lia.
  destruct (Z.odd (Z.of_nat (length puzzle) - row emptyPos)); reflexivity.
Qed.

(** C1. [isPuzzleSolvable] computes the parity rule of the specification:
    on an odd board, the inversion count (pairs [i < j] with
    [value[i] > value[j]] among the non-empty tiles) is even; on an even
    board, with [emptyRowFromBottom = S - emptyRow], either that number is
    odd and the inversions even, or it is even and the inversions odd.
    The 4x4 board [1..13,15,14,0] is reported unsolvable. *)
Theorem isPuzzleSolvable_parity_rule :
  (forall puzzle : Board, isPuzzleSolvable puzzle = spec_isSolvable puzzle)
  /\ isPuzzleSolvable scenarioB = Some false.
Proof.
  split; [|reflexivity].
  intros puzzle. rewrite isPuzzleSolvable_verdict.
  unfold spec_isSolvable, len.
  rewrite (proj1 (Z_parity_of_nat (length puzzle))).
  change (List.filter (fun v => negb (v =? 0)) (concat puzzle))
    with (tilesOnly puzzle).
  rewrite spec_inversions_inv.
  destruct (Nat.odd (length puzzle)) eqn:Hodd; [reflexivity|].
  destruct (findEmptyPosition puzzle) as [emptyPos|]; [|reflexivity].
  cbn [option_map]. unfold verdict, spec_evenRule. rewrite Hodd.
  rewrite <- Z.negb_odd, <- Nat.negb_even.
  destruct (Z.odd (Z.of_nat (length puzzle) - row emptyPos)),
           (Nat.even (inv (tilesOnly puzzle))); reflexivity.
Qed.

(* ===================================================================== *)
(** * C2: the generator only makes legal slides *)
(* ===================================================================== *)

Section Parity.

Lemma smallerAfter_app x l1 l2 :
  smallerAfter x (l1 ++ l2) = (smallerAfter x l1 + smallerAfter x l2)%nat.
Proof. unfold smallerAfter. rewrite List.filter_app, List.length_app. reflexivity. Qed.

Lemma smallerAfter_cons x a l :
  smallerAfter x (a :: l) = ((if (a <? x)%Z then 1 else 0) + smallerAfter x l)%nat.
Proof. unfold smallerAfter. simpl. destruct (a <? x); reflexivity. Qed.

Lemma inv_app X R : inv (X ++ R) = (inv X + cross X R + inv R)%nat.
Proof.
  induction X as [|x X IH]; simpl; [reflexivity|].
  rewrite IH, smallerAfter_app. lia.
Qed.

Lemma cross_move X t M Y : cross X (t :: M ++ Y) = cross X (M ++ t :: Y).
Proof.
  induction X as [|x X IH]; simpl; [reflexivity|].
  rewrite IH. f_equal.
  rewrite smallerAfter_cons, !smallerAfter_app, smallerAfter_cons. lia.
Qed.

Lemma cross_cons_r M t Y :
  cross M (t :: Y) = (largerIn t M + cross M Y)%nat.
Proof.
  induction M as [|m M IH]; simpl; [reflexivity|].
  rewrite IH, smallerAfter_cons. unfold largerIn. simpl.
  destruct (t <? m); simpl; lia.
Qed.

Lemma smaller_larger t M :
  t ∉ M -> (smallerAfter t M + largerIn t M)%nat = length M.
Proof.
  unfold smallerAfter, largerIn.
  induction M as [|m M IH]; intros Hnot; simpl; [reflexivity|].
  apply not_elem_of_cons in Hnot as [Hne Hnot]. specialize (IH Hnot).
  destruct (m <? t) eqn:E1, (t <? m) eqn:E2; simpl; try lia.
Qed.

Lemma inv_move X t M Y :
  t ∉ M ->
  exists k, (inv (X ++ t :: M ++ Y) + inv (X ++ M ++ t :: Y)
             = 2 * k + length M)%nat.
Proof.
  intros Hnot.
  rewrite !inv_app, cross_move. cbn [inv].
  rewrite !inv_app, cross_cons_r, smallerAfter_app.
  pose proof (smaller_larger t M Hnot) as Hsl.
  exists (inv X + cross X (M ++ t :: Y) + smallerAfter t Y
          + inv M + cross M Y + inv Y)%nat. lia.
Qed.

Lemma inv_move_parity X t M Y :
  t ∉ M ->
  Nat.even (inv (X ++ M ++ t :: Y))
  = xorb (Nat.odd (length M)) (Nat.even (inv (X ++ t :: M ++ Y))).
Proof.
  intros Hnot. destruct (inv_move X t M Y Hnot) as [k Hk].
  assert (Hpar : Nat.even (inv (X ++ t :: M ++ Y) + inv (X ++ M ++ t :: Y))
                 = Nat.even (length M)).
  { rewrite Hk, Nat.add_comm, Nat.even_add_mul_2. reflexivity. }
  rewrite Nat.even_add in Hpar. rewrite <- Nat.negb_even.
  destruct (Nat.even (inv (X ++ t :: M ++ Y))),
           (Nat.even (inv (X ++ M ++ t :: Y))),
           (Nat.even (length M)); simpl in *; congruence.
Qed.

End Parity.

Section Flat.
Variable S : nat.

Lemma js_index_lookup {A} (l : list A) (i : Z) :
  0 <= i -> js_index l i = l !! Z.to_nat i.
Proof.
  intros Hi. unfold js_index.
  destruct (i <? 0) eqn:E; [apply Z.ltb_lt in E; lia | reflexivity].
Qed.

Lemma concat_lookup (b : Board) (r c : nat) :
  Forall (fun line => length line = S) b -> (c < S)%nat ->
  concat b !! (r * S + c)%nat = b !! r ≫= (fun line => line !! c).
Proof.
  intros Hall Hc. revert r.
  induction Hall as [|line rest Hlen Hall IH]; intros r.
  - reflexivity.
  - destruct r as [|r]; simpl.
    + rewrite lookup_app_l by lia. reflexivity.
    + rewrite lookup_app_r by lia.
      replace (S + r * S + c - length line)%nat with (r * S + c)%nat by lia.
      apply IH.
Qed.

Lemma concat_length (b : Board) :
  Forall (fun line => length line = S) b ->
  length (concat b) = (length b * S)%nat.
Proof.
  induction 1 as [|line rest Hlen Hall IH]; simpl; [reflexivity|].
  rewrite List.length_app, IH. lia.
Qed.

Lemma concat_insert (b : Board) (r c : nat) (line : list Z) (v : Z) :
  Forall (fun line => length line = S) b -> (c < S)%nat ->
  b !! r = Some line ->
  concat (<[r := <[c := v]> line]> b) = <[(r * S + c)%nat := v]> (concat b).
Proof.
  intros Hall Hc. revert r.
  induction Hall as [|l0 rest Hlen Hall IH]; intros r Hr.
  - discriminate.
  - destruct r as [|r]; simpl in *.
    + inversion Hr; subst l0. rewrite insert_app_l by lia. reflexivity.
    + rewrite IH by assumption.
      rewrite insert_app_r_alt by lia. f_equal. f_equal. lia.
Qed.

Lemma cellAt_flat (b : Board) (p : Position) :
  square S b -> inGrid S p ->
  cellAt b (row p) (col p) = concat b !! flatIndex S p.
Proof.
  intros [Hlen Hall] [Hr Hc]. unfold cellAt, flatIndex.
  rewrite concat_lookup by (assumption || lia).
  rewrite js_index_lookup by lia.
  destruct (b !! Z.to_nat (row p)) as [line|]; simpl; [|reflexivity].
  apply js_index_lookup. lia.
Qed.

Lemma flatIndex_lt (p : Position) : inGrid S p -> (flatIndex S p < S * S)%nat.
Proof. intros [Hr Hc]. unfold flatIndex. nia. Qed.

Lemma flatIndex_inj (p q : Position) :
  inGrid S p -> inGrid S q -> flatIndex S p = flatIndex S q -> p = q.
Proof.
  intros [Hr Hc] [Hr' Hc']. unfold flatIndex. intros H.
  destruct p as [r c], q as [r' c']; simpl in *.
  assert (Z.to_nat r = Z.to_nat r') by nia.
  assert (Z.to_nat c = Z.to_nat c') by nia.
  f_equal; lia.
Qed.

Lemma cellAt_is_Some (b : Board) (p : Position) :
  square S b -> inGrid S p -> is_Some (cellAt b (row p) (col p)).
Proof.
  intros Hsq Hin. rewrite cellAt_flat by assumption.
  apply lookup_lt_is_Some. destruct Hsq as [Hlen Hall].
  rewrite concat_length, Hlen by assumption. apply flatIndex_lt, Hin.
Qed.

Lemma writeCell_flat (b : Board) (p : Position) (v : Z) :
  square S b -> inGrid S p ->
  concat (writeCell b (row p) (col p) v) = <[flatIndex S p := v]> (concat b)
  /\ square S (writeCell b (row p) (col p) v).
Proof.
  intros [Hlen Hall] [Hr Hc]. unfold writeCell, flatIndex.
  rewrite js_index_lookup by lia.
  destruct (b !! Z.to_nat (row p)) as [line|] eqn:E.
  - split.
    + apply concat_insert; (assumption || lia).
    + split; [rewrite length_insert; assumption|].
      apply Forall_insert; [assumption|].
      rewrite length_insert.
      eapply Forall_lookup_1 in Hall; eauto.
  - apply lookup_ge_None in E. lia.
Qed.

Lemma swapPositions_flat (b : Board) (p1 p2 : Position) :
  square S b -> inGrid S p1 -> inGrid S p2 ->
  exists v1 v2 b',
    concat b !! flatIndex S p1 = Some v1
    /\ concat b !! flatIndex S p2 = Some v2
    /\ swapPositions b p1 p2 = Some b'
    /\ concat b' = <[flatIndex S p2 := v1]> (<[flatIndex S p1 := v2]> (concat b))
    /\ square S b'.
Proof.
  intros Hsq H1 H2. unfold swapPositions, clone2DArray. rewrite map_id.
  destruct (cellAt_is_Some b p1 Hsq H1) as [v1 E1].
  destruct (cellAt_is_Some b p2 Hsq H2) as [v2 E2].
  rewrite E1, E2. exists v1, v2. eexists.
  rewrite <- !cellAt_flat by assumption.
  split; [exact E1|]. split; [exact E2|]. split; [reflexivity|].
  destruct (writeCell_flat b p1 v2 Hsq H1) as [Hc1 Hsq1].
  destruct (writeCell_flat _ p2 v1 Hsq1 H2) as [Hc2 Hsq2].
  rewrite Hc2, Hc1. split; [reflexivity | assumption].
Qed.

Lemma findInRow_complete line value c0 c :
  line !! c = Some value -> is_Some (findInRow line value c0).
Proof.
  revert c0 c. induction line as [|v vs IH]; intros c0 c H; [discriminate|].
  simpl. destruct (v =? value) eqn:E; [eexists; reflexivity|].
  destruct c as [|c]; simpl in H.
  - inversion H; subst. rewrite Z.eqb_refl in E. discriminate.
  - eapply IH; eauto.
Qed.

Lemma findPositionFrom_complete (b : Board) value r0 r c line :
  b !! r = Some line -> line !! c = Some value ->
  is_Some (findPositionFrom b value r0).
Proof.
  revert r0 r. induction b as [|l0 rest IH]; intros r0 r Hr Hc; [discriminate|].
  simpl. destruct (findInRow l0 value 0) eqn:E; [eexists; reflexivity|].
  destruct r as [|r]; simpl in Hr.
  - inversion Hr; subst l0.
    destruct (findInRow_complete line value 0 c Hc) as [? E']. congruence.
  - eapply IH; eauto.
Qed.

Lemma cellAt_inGrid (b : Board) (r c : Z) (v : Z) :
  square S b -> cellAt b r c = Some v -> inGrid S (mkPos r c).
Proof.
  intros [Hlen Hall] H. unfold cellAt, js_index in H.
  destruct (r <? 0) eqn:Er; [discriminate|]. apply Z.ltb_ge in Er.
  destruct (b !! Z.to_nat r) as [line|] eqn:El; [|discriminate].
  destruct (c <? 0) eqn:Ec; [discriminate|]. apply Z.ltb_ge in Ec.
  pose proof (lookup_lt_Some _ _ _ El) as Hr.
  pose proof (lookup_lt_Some _ _ _ H) as Hc.
  eapply Forall_lookup_1 in Hall; eauto. simpl in Hall.
  unfold inGrid; simpl. lia.
Qed.

Lemma findPosition_unique (b : Board) (p : Position) (v : Z) :
  square S b -> NoDup (concat b) -> inGrid S p ->
  cellAt b (row p) (col p) = Some v ->
  findPosition b v = Some p.
Proof.
  intros Hsq Hnd Hin Hcell.
  assert (Hex : is_Some (findPosition b v)).
  { destruct Hin as [Hr Hc]. unfold cellAt in Hcell.
    rewrite js_index_lookup in Hcell by lia.
    destruct (b !! Z.to_nat (row p)) as [line|] eqn:El; [|discriminate].
    rewrite js_index_lookup in Hcell by lia.
    eapply findPositionFrom_complete; eauto. }
  destruct Hex as [q Hq]. rewrite Hq. f_equal.
  apply findPosition_bounds in Hq. destruct Hq as [_ Hq].
  assert (Hinq : inGrid S q).
  { destruct q as [qr qc]. eapply cellAt_inGrid; eauto. }
  apply flatIndex_inj; try assumption.
  rewrite cellAt_flat in Hq, Hcell by assumption.
  eapply NoDup_lookup; eauto.
Qed.

End Flat.

Section FlatSwap.

Lemma insert_middle {A} (X : list A) (a v : A) (R : list A) :
  <[length X := v]> (X ++ a :: R) = X ++ v :: R.
Proof. induction X as [|x X IH]; simpl; [reflexivity|]. rewrite IH. reflexivity. Qed.

Lemma split_two {A} (l : list A) (i j : nat) (a c : A) :
  (i < j)%nat -> l !! i = Some a -> l !! j = Some c ->
  exists X M Y, l = X ++ a :: M ++ c :: Y
                /\ length X = i /\ length M = (j - i - 1)%nat.
Proof.
  intros Hij Hi Hj.
  pose proof (take_drop_middle l i a Hi) as Hl.
  assert (Hj' : drop (Datatypes.S i) l !! (j - i - 1)%nat = Some c).
  { rewrite lookup_drop. rewrite <- Hj. f_equal. lia. }
  pose proof (take_drop_middle _ _ _ Hj') as Hr.
  exists (take i l), (take (j - i - 1) (drop (Datatypes.S i) l)),
         (drop (Datatypes.S (j - i - 1)) (drop (Datatypes.S i) l)).
  split; [rewrite Hr; symmetry; exact Hl|].
  pose proof (lookup_lt_Some _ _ _ Hi). pose proof (lookup_lt_Some _ _ _ Hj).
  split; [rewrite length_take; lia|].
  rewrite length_take, length_drop. lia.
Qed.

Lemma swap_split {A} (X M Y : list A) (a c : A) :
  <[(length X + Datatypes.S (length M))%nat := a]>
    (<[length X := c]> (X ++ a :: M ++ c :: Y))
  = X ++ c :: M ++ a :: Y.
Proof.
  rewrite insert_middle.
  rewrite insert_app_r. f_equal.
  change (c :: M ++ c :: Y) with ((c :: M) ++ c :: Y).
  change (Datatypes.S (length M)) with (length (c :: M)).
  rewrite insert_middle. reflexivity.
Qed.

Lemma swap_perm {A} (X M Y : list A) (a c : A) :
  Permutation (X ++ a :: M ++ c :: Y) (X ++ c :: M ++ a :: Y).
Proof.
  apply Permutation_app_head.
  rewrite <- !Permutation_middle. apply perm_swap.
Qed.

Lemma nz_app l1 l2 : nz (l1 ++ l2) = nz l1 ++ nz l2.
Proof. apply List.filter_app. Qed.

Lemma nz_id (M : list Z) : 0 ∉ M -> nz M = M.
Proof.
  induction M as [|m M IH]; intros H; [reflexivity|].
  apply not_elem_of_cons in H as [Hne H]. unfold nz in *. simpl.
  destruct (m =? MECHANICS.EMPTY_TILE) eqn:E.
  - apply Z.eqb_eq in E. unfold MECHANICS.EMPTY_TILE in E. congruence.
  - simpl. rewrite IH by assumption. reflexivity.
Qed.

Lemma nz_cons_tile t l : t <> 0 -> nz (t :: l) = t :: nz l.
Proof.
  intros H. unfold nz. simpl.
  destruct (t =? MECHANICS.EMPTY_TILE) eqn:E; [|reflexivity].
  apply Z.eqb_eq in E. contradiction.
Qed.

Lemma nz_cons_empty l : nz (0 :: l) = nz l.
Proof. reflexivity. Qed.

(** The empty cell at index [i] and the tile at index [j] trade places. *)
Lemma nz_swap (l : list Z) (i j : nat) (tv : Z) :
  NoDup l -> i <> j -> l !! i = Some 0 -> l !! j = Some tv ->
  let l' := <[j := 0]> (<[i := tv]> l) in
  NoDup l'
  /\ l' !! j = Some 0
  /\ Nat.even (inv (nz l'))
     = xorb (Nat.odd (Nat.max i j - Nat.min i j - 1)) (Nat.even (inv (nz l))).
Proof.
  intros Hnd Hij Hi Hj l'.
  assert (Hlookup : l' !! j = Some 0).
  { subst l'. apply list_lookup_insert_eq. rewrite length_insert.
    eapply lookup_lt_Some; eauto. }
  assert (Htv : tv <> 0).
  { intros ->. apply Hij. eapply NoDup_lookup; eauto. }
  destruct (Nat.lt_total i j) as [Hlt | [Heq | Hgt]]; [|contradiction|].
  - destruct (split_two l i j 0 tv Hlt Hi Hj) as (X & M & Y & Hl & HX & HM).
    assert (Hl' : l' = X ++ tv :: M ++ 0 :: Y).
    { subst l'. rewrite Hl.
      replace j with (length X + Datatypes.S (length M))%nat by lia.
      rewrite <- HX. apply swap_split. }
    pose proof Hnd as Hnd0.
    rewrite Hl in Hnd.
    apply NoDup_app in Hnd as (HndX & HXd & Hnd).
    apply NoDup_cons in Hnd as (H0 & Hnd).
    apply NoDup_app in Hnd as (HndM & HMd & Hnd).
    apply NoDup_cons in Hnd as (Htv' & HndY).
    assert (H0M : 0 ∉ M).
    { intros Hin. apply H0, elem_of_app. left. exact Hin. }
    assert (HtM : tv ∉ M).
    { intros Hin. apply (HMd _ Hin), elem_of_cons. left. reflexivity. }
    split; [|split; [assumption|]].
    + rewrite Hl', (swap_perm X M Y tv 0), <- Hl. exact Hnd0.
    + rewrite Hl, Hl'.
      rewrite !nz_app, nz_cons_empty, (nz_cons_tile tv) by assumption.
      rewrite !nz_app, nz_cons_empty, (nz_cons_tile tv) by assumption.
      rewrite (nz_id M) by assumption.
      rewrite (inv_move_parity (nz X) tv M (nz Y)) by assumption.
      replace (Nat.max i j - Nat.min i j - 1)%nat with (length M) by lia.
      destruct (Nat.odd (length M)), (Nat.even (inv (nz X ++ tv :: M ++ nz Y)));
        reflexivity.
  - destruct (split_two l j i tv 0 Hgt Hj Hi) as (X & M & Y & Hl & HX & HM).
    assert (Hl' : l' = X ++ 0 :: M ++ tv :: Y).
    { subst l'. rewrite list_insert_insert_ne by (intros ?; subst; contradiction). rewrite Hl.
      replace i with (length X + Datatypes.S (length M))%nat by lia.
      rewrite <- HX. apply swap_split. }
    pose proof Hnd as Hnd0.
    rewrite Hl in Hnd.
    apply NoDup_app in Hnd as (HndX & HXd & Hnd).
    apply NoDup_cons in Hnd as (Htv' & Hnd).
    apply NoDup_app in Hnd as (HndM & HMd & Hnd).
    apply NoDup_cons in Hnd as (H0 & HndY).
    assert (H0M : 0 ∉ M).
    { intros Hin. apply (HMd _ Hin), elem_of_cons. left. reflexivity. }
    assert (HtM : tv ∉ M).
    { intros Hin. apply Htv', elem_of_app. left. exact Hin. }
    split; [|split; [assumption|]].
    + rewrite Hl', (swap_perm X M Y 0 tv), <- Hl. exact Hnd0.
    + rewrite Hl, Hl'.
      rewrite !nz_app, nz_cons_empty, (nz_cons_tile tv) by assumption.
      rewrite !nz_app, nz_cons_empty, (nz_cons_tile tv) by assumption.
      rewrite (nz_id M) by assumption.
      rewrite (inv_move_parity (nz X) tv M (nz Y)) by assumption.
      replace (Nat.max i j - Nat.min i j - 1)%nat with (length M) by lia.
      reflexivity.
Qed.

End FlatSwap.

Section Slide.
Variable S : nat.

Lemma odd_pred n : (1 <= n)%nat -> Nat.odd (n - 1) = Nat.even n.
Proof.
  intros H. destruct n as [|n]; [lia|].
  replace (Datatypes.S n - 1)%nat with n by lia.
  rewrite Nat.even_succ. reflexivity.
Qed.

(** How far apart the flat indexes of two neighbours are. *)
Lemma slides_gap (e t : Position) :
  inGrid S e -> inGrid S t -> slides e t ->
  let i := flatIndex S e in
  let j := flatIndex S t in
  i <> j
  /\ ((row t = row e /\ (Nat.max i j - Nat.min i j - 1 = 0)%nat)
      \/ ((row t = row e + 1 \/ row t = row e - 1)
          /\ (Nat.max i j - Nat.min i j - 1 = S - 1)%nat)).
Proof.
  intros [Hre Hce] [Hrt Hct] Hs. unfold flatIndex.
  destruct e as [re ce], t as [rt ct]; unfold slides in Hs; simpl in *.
  destruct Hs as [[Hr [Hc|Hc]] | [Hc [Hr|Hr]]]; subst.
  - replace (Z.to_nat (ce + 1)) with (Datatypes.S (Z.to_nat ce)) by lia.
    generalize (Z.to_nat re * S)%nat (Z.to_nat ce). intros a c.
    split; [lia|]. left. split; [reflexivity | lia].
  - replace (Z.to_nat ce) with (Datatypes.S (Z.to_nat (ce - 1))) by lia.
    generalize (Z.to_nat re * S)%nat (Z.to_nat (ce - 1)). intros a c.
    split; [lia|]. left. split; [reflexivity | lia].
  - replace (Z.to_nat (re + 1)) with (Datatypes.S (Z.to_nat re)) by lia.
    assert (Hc : (Z.to_nat ce < S)%nat) by lia.
    revert Hc. cbn [Nat.mul].
    generalize (Z.to_nat re * S)%nat (Z.to_nat ce). intros a c Hc.
    split; [lia|]. right. split; [left; reflexivity | lia].
  - replace (Z.to_nat re) with (Datatypes.S (Z.to_nat (re - 1))) by lia.
    assert (Hc : (Z.to_nat ce < S)%nat) by lia.
    revert Hc. cbn [Nat.mul].
    generalize (Z.to_nat (re - 1) * S)%nat (Z.to_nat ce). intros a c Hc.
    split; [lia|]. right. split; [right; reflexivity | lia].
Qed.

Lemma tilesOnly_nz (b : Board) : tilesOnly b = nz (concat b).
Proof. reflexivity. Qed.

(** A legal slide keeps the board a permutation grid and keeps the
    verdict of the analyzer. *)
Lemma slide_step (b : Board) (e t : Position) :
  square S b -> NoDup (concat b) ->
  inGrid S e -> inGrid S t ->
  cellAt b (row e) (col e) = Some 0 ->
  slides e t ->
  exists b',
    swapPositions b e t = Some b'
    /\ square S b' /\ NoDup (concat b')
    /\ cellAt b' (row t) (col t) = Some 0
    /\ isPuzzleSolvable b' = isPuzzleSolvable b.
Proof.
  intros Hsq Hnd He Ht Hcell Hs.
  destruct (swapPositions_flat S b e t Hsq He Ht)
    as (v1 & tv & b' & Hi & Hj & Hswap & Hflat & Hsq').
  rewrite cellAt_flat with (S := S) in Hcell by assumption.
  assert (v1 = 0) by congruence. subst v1.
  destruct (slides_gap e t He Ht Hs) as [Hij Hgap].
  destruct (nz_swap (concat b) _ _ tv Hnd Hij Hi Hj) as (Hnd' & H0 & Hpar).
  rewrite <- Hflat in Hnd', H0, Hpar.
  assert (Hcell' : cellAt b' (row t) (col t) = Some 0).
  { rewrite cellAt_flat with (S := S) by assumption. exact H0. }
  exists b'. do 4 (split; [assumption|]).
  assert (HS : (1 <= S)%nat) by (destruct He; lia).
  rewrite !isPuzzleSolvable_verdict, !tilesOnly_nz.
  destruct Hsq as [Hlen Hall], Hsq' as [Hlen' Hall'].
  rewrite Hlen, Hlen'.
  unfold findEmptyPosition, MECHANICS.EMPTY_TILE.
  rewrite (findPosition_unique S b e 0), (findPosition_unique S b' t 0);
    try (assumption || (split; assumption)).
  2:{ rewrite cellAt_flat with (S := S) by (assumption || (split; assumption)).
      exact Hi. }
  cbn [option_map]. unfold verdict.
  destruct (Nat.odd S) eqn:HoddS.
  - f_equal. rewrite Hpar.
    destruct Hgap as [[_ ->] | [_ ->]]; [reflexivity|].
    rewrite odd_pred, <- Nat.negb_odd, HoddS by assumption. reflexivity.
  - f_equal. rewrite <- !Nat.negb_even, Hpar.
    destruct Hgap as [[-> ->] | [Hrow ->]]; [simpl; reflexivity|].
    rewrite odd_pred, <- Nat.negb_odd, HoddS by assumption.
    assert (Hodd : Z.odd (Z.of_nat S - row t)
                   = negb (Z.odd (Z.of_nat S - row e))).
    { destruct Hrow as [-> | ->].
      - replace (Z.of_nat S - (row e + 1)) with (Z.of_nat S - row e - 1) by lia.
        rewrite Z.odd_sub. simpl. apply xorb_true_r.
      - replace (Z.of_nat S - (row e - 1)) with (Z.of_nat S - row e + 1) by lia.
        rewrite Z.odd_add. simpl. apply xorb_true_r. }
    rewrite Hodd.
    destruct (Z.odd (Z.of_nat S - row e)), (Nat.even (inv (nz (concat b))));
      reflexivity.
Qed.

End Slide.

Section Generator.
Variable S : nat.

Lemma getAdjacentPositions_In (e : Position) (d : Direction) :
  In d MECHANICS.DIRECTIONS ->
  inGrid S (mkPos (row e + y d) (col e + x d)) ->
  In (mkPos (row e + y d) (col e + x d))
     (getAdjacentPositions (row e) (col e) (Z.of_nat S)).
Proof.
  intros Hd [Hr Hc]. simpl in Hr, Hc. unfold getAdjacentPositions.
  apply in_flat_map. exists d. split; [assumption|].
  replace ((0 <=? row e + y d) && (row e + y d <? Z.of_nat S)
           && (0 <=? col e + x d) && (col e + x d <? Z.of_nat S)) with true.
  - left. reflexivity.
  - symmetry. rewrite !andb_true_iff. repeat split; lia.
Qed.

Lemma getAdjacentPositions_slides (e t : Position) :
  In t (getAdjacentPositions (row e) (col e) (Z.of_nat S)) ->
  inGrid S t /\ slides e t.
Proof.
  unfold getAdjacentPositions. intros H.
  apply in_flat_map in H as (d & Hd & Ht).
  destruct ((0 <=? row e + y d) && (row e + y d <? Z.of_nat S)
            && (0 <=? col e + x d) && (col e + x d <? Z.of_nat S)) eqn:E;
    [|contradiction].
  destruct Ht as [<- | []].
  rewrite !andb_true_iff in E. destruct E as [[[E1 E2] E3] E4].
  split; [unfold inGrid; simpl; lia|].
  unfold slides; simpl.
  destruct Hd as [<- | [<- | [<- | [<- | []]]]]; simpl; lia.
Qed.

Lemma validMoves_nonempty (e : Position) (lastMove : option Position) :
  (2 <= S)%nat -> inGrid S e ->
  List.filter (notLastMove lastMove)
              (getAdjacentPositions (row e) (col e) (Z.of_nat S)) <> [].
Proof.
  intros HS [Hr Hc].
  set (dv := if 1 <=? row e then MECHANICS.UP else MECHANICS.DOWN).
  set (dh := if 1 <=? col e then MECHANICS.LEFT else MECHANICS.RIGHT).
  assert (Hv : In (mkPos (row e + y dv) (col e + x dv))
                  (getAdjacentPositions (row e) (col e) (Z.of_nat S))).
  { apply getAdjacentPositions_In.
    - subst dv. destruct (1 <=? row e); simpl; auto.
    - subst dv. unfold inGrid.
      destruct (1 <=? row e) eqn:E; simpl; lia. }
  assert (Hh : In (mkPos (row e + y dh) (col e + x dh))
                  (getAdjacentPositions (row e) (col e) (Z.of_nat S))).
  { apply getAdjacentPositions_In.
    - subst dh. destruct (1 <=? col e); simpl; auto.
    - subst dh. unfold inGrid.
      destruct (1 <=? col e) eqn:E; simpl; lia. }
  assert (Hone : notLastMove lastMove (mkPos (row e + y dv) (col e + x dv)) = true
                 \/ notLastMove lastMove (mkPos (row e + y dh) (col e + x dh)) = true).
  { unfold notLastMove. destruct lastMove as [lm|]; [|left; reflexivity].
    simpl.
    destruct (row e + y dv =? row lm) eqn:E1; [|left; reflexivity].
    destruct (row e + y dh =? row lm) eqn:E2; [|right; reflexivity].
    exfalso. apply Z.eqb_eq in E1, E2. subst dv dh.
    destruct (1 <=? row e), (1 <=? col e); simpl in *; lia. }
  intros Hnil.
  destruct Hone as [H1 | H1].
  - assert (Hin := proj2 (filter_In _ _ _) (conj Hv H1)).
    rewrite Hnil in Hin. destruct Hin.
  - assert (Hin := proj2 (filter_In _ _ _) (conj Hh H1)).
    rewrite Hnil in Hin. destruct Hin.
Qed.

Lemma randomIndex_bounds (r : Q) (n : nat) :
  (0 <= r)%Q -> (r < 1)%Q -> (0 < n)%nat ->
  0 <= randomIndex r n < Z.of_nat n.
Proof.
  intros H0 H1 Hn. unfold randomIndex.
  assert (Hpos : (0 < inject_Z (Z.of_nat n))%Q).
  { change 0%Q with (inject_Z 0). rewrite <- Zlt_Qlt. lia. }
  split.
  - change 0 with (Qfloor 0). apply Qfloor_resp_le.
    apply Qmult_le_0_compat; [assumption | apply Qlt_le_weak, Hpos].
  - rewrite Zlt_Qlt. eapply Qle_lt_trans; [apply Qfloor_le|].
    eapply Qlt_le_trans; [apply Qmult_lt_compat_r; eassumption|].
    rewrite Qmult_1_l. apply Qle_refl.
Qed.

Hypothesis size_ge_2 : (2 <= S)%nat.
Variable random : nat -> Q.
Hypothesis random_range : forall i, (0 <= random i)%Q /\ (random i < 1)%Q.

(** Every iteration of the shuffle loop is a legal slide. *)
Lemma shuffleLoop_solvable (todo : nat) :
  forall (i : nat) (b : Board) (e : Position) (lastMove : option Position),
    square S b -> NoDup (concat b) -> inGrid S e ->
    cellAt b (row e) (col e) = Some 0 ->
    exists b',
      shuffleLoop S random todo i b e lastMove = Returns b'
      /\ square S b' /\ NoDup (concat b')
      /\ isPuzzleSolvable b' = isPuzzleSolvable b.
Proof.
  induction todo as [|todo IH]; intros i b e lastMove Hsq Hnd He Hcell.
  - exists b. simpl. auto.
  - cbn [shuffleLoop].
    change (fun pos : Position =>
              match lastMove with
              | Some lm => negb ((row pos =? row lm) && (col pos =? col lm))
              | None => true
              end) with (notLastMove lastMove).
    set (validMoves := List.filter (notLastMove lastMove)
                         (getAdjacentPositions (row e) (col e) (Z.of_nat S))).
    assert (Hne : validMoves <> []) by (apply validMoves_nonempty; assumption).
    assert (Hlen : (0 < length validMoves)%nat).
    { destruct validMoves; [contradiction | simpl; lia]. }
    destruct (random_range i) as [Hr0 Hr1].
    pose proof (randomIndex_bounds (random i) _ Hr0 Hr1 Hlen) as Hidx.
    rewrite js_index_lookup by lia.
    destruct (lookup_lt_is_Some_2 validMoves
                (Z.to_nat (randomIndex (random i) (length validMoves)))
                ltac:(lia)) as [t Ht].
    rewrite Ht.
    assert (Hin : In t validMoves).
    { apply list_elem_of_In. eapply list_elem_of_lookup_2; eauto. }
    apply filter_In in Hin as [Hin _].
    apply getAdjacentPositions_slides in Hin as [HtG Hslide].
    destruct (slide_step S b e t Hsq Hnd He HtG Hcell Hslide)
      as (b1 & Hswap & Hsq1 & Hnd1 & Hcell1 & Hsolv1).
    rewrite Hswap.
    destruct (IH (Datatypes.S i) b1 t (Some e) Hsq1 Hnd1 HtG Hcell1)
      as (b' & Hloop & Hsq' & Hnd' & Hsolv').
    exists b'. rewrite Hloop. repeat split; try apply Hsq'; try assumption.
    congruence.
Qed.

End Generator.

Lemma solved_start (S : nat) :
  S = 3%nat \/ S = 4%nat \/ S = 5%nat ->
  exists e,
    findEmptyPosition (createSolvedPuzzle S) = Some e
    /\ square S (createSolvedPuzzle S)
    /\ NoDup (concat (createSolvedPuzzle S))
    /\ inGrid S e
    /\ cellAt (createSolvedPuzzle S) (row e) (col e) = Some 0
    /\ isPuzzleSolvable (createSolvedPuzzle S) = Some true.
Proof.
  intros [-> | [-> | ->]]; eexists; (split; [reflexivity|]);
    (split; [split; [reflexivity | repeat constructor]|]);
    (split; [apply (bool_decide_unpack _); vm_compute; exact I|]);
    (split; [unfold inGrid; simpl; lia|]);
    (split; reflexivity).
Qed.

(** C2. For every board size [S] in {3,4,5}, every number [K] of shuffle
    steps and every sequence of draws of [Math.random()] (each in [0,1)),
    [generateSolvablePuzzle(S, K)] returns a board on which
    [isPuzzleSolvable] answers true. *)
Theorem generateSolvablePuzzle_solvable
        (S : nat) (K : nat) (random : nat -> Q) :
  S = 3%nat \/ S = 4%nat \/ S = 5%nat ->
  (forall i, (0 <= random i)%Q /\ (random i < 1)%Q) ->
  exists board,
    generateSolvablePuzzle S K random = Returns board
    /\ isPuzzleSolvable board = Some true.
Proof.
  intros HS Hrandom.
  destruct (solved_start S HS) as (e & Hfind & Hsq & Hnd & He & Hcell & Hsolv).
  assert (HS2 : (2 <= S)%nat) by (destruct HS as [-> | [-> | ->]]; lia).
  destruct (shuffleLoop_solvable S HS2 random Hrandom K 0
              (createSolvedPuzzle S) e None Hsq Hnd He Hcell)
    as (b' & Hloop & _ & _ & Hsolv').
  exists b'. unfold generateSolvablePuzzle. rewrite Hfind.
  split; [exact Hloop | congruence].
Qed.

Lemma generateSolvablePuzzle_solvable_witness :
  exists board,
    generateSolvablePuzzle 4 7 (fun i => if Nat.even i then 1 # 3 else 4 # 5)%Q
    = Returns board
    /\ isPuzzleSolvable board = Some true.
Proof.
  apply generateSolvablePuzzle_solvable.
  - right; left; reflexivity.
  - intros i. destruct (Nat.even i); split; vm_compute; congruence.
Defined.

(* ===================================================================== *)
(** * The session: moves, undo, budget *)
(* ===================================================================== *)

Section SessionFacts.

Lemma clone2DArray_id (b : Board) : clone2DArray b = b.
Proof. unfold clone2DArray. apply map_id. Qed.

Lemma js_pop_push {A} (arr : list A) (item : A) :
  js_pop (arr ++ [item]) = Some (item, arr).
Proof. unfold js_pop. rewrite rev_unit, rev_involutive. reflexivity. Qed.

(** What a call of [moveTile] that returns [true] did. *)
Lemma moveTile_true (p p1 : Puzzle) (tStart tMove tEnd r c : Z) :
  moveTile p tStart tMove tEnd r c = (Returns true, p1) ->
  isComplete p = false
  /\ moveCount p1 = moveCount p + 1
  /\ (exists moveData,
         moveHistory p1 = moveHistory p ++ [moveData]
         /\ previousState moveData = currentState p)
  /\ (isComplete p1 = true <-> isPuzzleSolved (currentState p1) = true).
Proof.
  unfold moveTile. destruct (isComplete p) eqn:Hc; [discriminate|].
  set (p' := match startTime p with
             | Some _ => p
             | None => set_startTime p (Some tStart)
             end).
  assert (Hp' : currentState p' = currentState p
                /\ moveCount p' = moveCount p
                /\ moveHistory p' = moveHistory p
                /\ isComplete p' = isComplete p).
  { subst p'. destruct (startTime p); simpl; auto. }
  destruct Hp' as (Hcur & Hcnt & Hhist & Hcompl).
  destruct ((r <? 0) || (r >=? Z.of_nat (size p'))
            || (c <? 0) || (c >=? Z.of_nat (size p'))); [discriminate|].
  destruct (findEmptyPosition (currentState p')) as [emptyPos|]; [|discriminate].
  destruct (negb (areAdjacent (mkPos r c) emptyPos)); [discriminate|].
  unfold _executeMove.
  destruct (swapPositions (currentState p') (mkPos r c) emptyPos) as [swapped|];
    [|discriminate].
  cbn [set_currentState set_moveCount set_moveHistory emit currentState
       moveCount maxMoves moveHistory].
  destruct (isPuzzleSolved swapped) eqn:Hsolved.
  - intros H. inversion H; subst p1; clear H. simpl.
    rewrite Hcnt, Hhist, Hcur, clone2DArray_id, Hsolved.
    split; [reflexivity|]. split; [reflexivity|].
    split; [eexists; split; reflexivity | tauto].
  - destruct (moveCount p' + 1 >=? maxMoves p');
      intros H; inversion H; subst p1; clear H; simpl;
      rewrite Hcnt, Hhist, Hcur, clone2DArray_id, Hsolved, Hcompl, Hc;
      (split; [reflexivity|]); (split; [reflexivity|]);
      (split; [eexists; split; reflexivity | split; discriminate]).
Qed.

End SessionFacts.


(** C3 (the code departs from the claim).  The session with budget 1 on
    [[1,2,3],[4,5,6],[0,7,8]] makes one non-winning move: the budget is
    reached and GAME_OVER is emitted, but [isComplete] stays false, so the
    next [moveTile] still returns true and changes board, move count and
    history, and [undoLastMove] still returns true and restores the
    previous board. *)
Theorem exhausted_session_still_moves (t1 t2 t3 t4 t5 t6 : Z) :
  let p1 := exhaustedSession t1 t2 t3 in
  let p2 := (moveTile p1 t4 t5 t6 2 2).2 in
  let p3 := (undoLastMove p1).2 in
  createPuzzleFromState almostA 1 = Returns budgetSession
  /\ (moveTile budgetSession t1 t2 t3 2 1).1 = Returns true
  /\ isSolved p1 = false
  /\ moveCount p1 = maxMoves p1
  /\ last (emitted p1)
     = Some (GAME_OVER "Out of moves" (moveHistory p1) (currentState p1))
  /\ isComplete p1 = false
  /\ (moveTile p1 t4 t5 t6 2 2).1 = Returns true
  /\ currentState p1 = [[1;2;3];[4;5;6];[7;0;8]]
  /\ currentState p2 = [[1;2;3];[4;5;6];[7;8;0]]
  /\ moveCount p2 = 2
  /\ length (moveHistory p2) = 2%nat
  /\ (undoLastMove p1).1 = Returns true
  /\ currentState p3 = almostA
  /\ moveCount p3 = 0.
Proof. cbv zeta. repeat apply conj; vm_compute; reflexivity. Qed.

(** A move that does not solve the board never ends the session, whatever
    the budget. *)
Lemma unsolved_move_keeps_running
      (p p1 : Puzzle) (tStart tMove tEnd r c : Z) :
  moveTile p tStart tMove tEnd r c = (Returns true, p1) ->
  isPuzzleSolved (currentState p1) = false ->
  isComplete p1 = false.
Proof.
  intros Hmove Hunsolved.
  apply moveTile_true in Hmove as (_ & _ & _ & Hcompl).
  destruct (isComplete p1); [|reflexivity].
  rewrite (proj1 Hcompl eq_refl) in Hunsolved. discriminate.
Qed.

(** [_handleGameOver] leaves the completion flag as it was. *)
Lemma _handleGameOver_isComplete (p : Puzzle) (now : Z) :
  isComplete (_handleGameOver p now) = isComplete p.
Proof. reflexivity. Qed.

(** A winning move followed by [undoLastMove]: the undo is refused, the
    board stays solved and the move count stays 1. *)
Lemma undo_after_winning_move_refused :
  let p := sessionFrom scenarioA 100 in
  let p1 := (moveTile p 1 2 3 2 2).2 in
  let p2 := (undoLastMove p1).2 in
  isComplete p = false
  /\ (moveTile p 1 2 3 2 2).1 = Returns true
  /\ (undoLastMove p1).1 = Returns false
  /\ currentState p2 <> currentState p
  /\ moveCount p2 <> moveCount p
  /\ length (moveHistory p2) <> length (moveHistory p).
Proof.
  cbv zeta. repeat apply conj; vm_compute; congruence.
Qed.

(** C4 (amended).  A [moveTile] that returns true and leaves the session
    running (the board is not solved and the move count is still below
    the budget), followed at once by [undoLastMove], restores the board,
    the move count and the move history of before the move. *)
Theorem move_then_undo_roundtrip
        (p p1 : Puzzle) (tStart tMove tEnd r c : Z) :
  moveTile p tStart tMove tEnd r c = (Returns true, p1) ->
  isPuzzleSolved (currentState p1) = false ->
  moveCount p1 < maxMoves p1 ->
  exists p2,
    undoLastMove p1 = (Returns true, p2)
    /\ currentState p2 = currentState p
    /\ moveCount p2 = moveCount p
    /\ moveHistory p2 = moveHistory p
    /\ length (moveHistory p2) = length (moveHistory p).
Proof.
  intros Hmove Hunsolved _.
  apply moveTile_true in Hmove
    as (_ & Hcount & (moveData & Hhist & Hprev) & Hcompl).
  assert (Hrunning : isComplete p1 = false).
  { destruct (isComplete p1); [|reflexivity].
    rewrite (proj1 Hcompl eq_refl) in Hunsolved. discriminate. }
  unfold undoLastMove. rewrite Hrunning, Hhist, js_pop_push.
  rewrite List.length_app. simpl length.
  replace (length (moveHistory p) + 1 =? 0)%nat with false
    by (symmetry; apply Nat.eqb_neq; lia).
  simpl. eexists. split; [reflexivity|]. simpl.
  repeat split; [assumption | lia].
Qed.

Lemma move_then_undo_roundtrip_witness :
  let p := sessionFrom almostA 100 in
  let p1 := (moveTile p 1 2 3 2 1).2 in
  exists p2,
    undoLastMove p1 = (Returns true, p2)
    /\ currentState p2 = currentState p
    /\ moveCount p2 = moveCount p
    /\ moveHistory p2 = moveHistory p
    /\ length (moveHistory p2) = length (moveHistory p).
Proof.
  apply (move_then_undo_roundtrip (sessionFrom almostA 100) _ 1 2 3 2 1).
  - vm_compute; reflexivity.
  - vm_compute; reflexivity.
  - vm_compute; reflexivity.
Defined.

(** C5 (the code departs from the claim).  On a fresh session, a rejected
    move (tile not adjacent, or position out of bounds) returns false but
    sets the start timestamp, which was unset. *)
Theorem rejected_move_starts_timer (tStart tMove tEnd : Z) :
  let p := newPuzzle 3 in
  startTime p = None
  /\ moveTile p tStart tMove tEnd 0 0
     = (Returns false,
        emit (set_startTime p (Some tStart))
             (INVALID_MOVE "Tile not adjacent to empty space"
                           (mkPos 0 0) (Some (mkPos 2 2))))
  /\ startTime (moveTile p tStart tMove tEnd 0 0).2 = Some tStart
  /\ moveTile p tStart tMove tEnd 7 0
     = (Returns false,
        emit (set_startTime p (Some tStart))
             (INVALID_MOVE "Position out of bounds" (mkPos 7 0) None))
  /\ startTime (moveTile p tStart tMove tEnd 7 0).2 = Some tStart.
Proof. cbv zeta. repeat apply conj; vm_compute; reflexivity. Qed.

(** What a rejected move leaves alone: everything but the notification
    log and, on a running session whose timer was unset, the timer
    start. *)
Lemma moveTile_false_frame (p p1 : Puzzle) (tStart tMove tEnd r c : Z) :
  moveTile p tStart tMove tEnd r c = (Returns false, p1) ->
  currentState p1 = currentState p
  /\ initialState p1 = initialState p
  /\ moveCount p1 = moveCount p
  /\ moveHistory p1 = moveHistory p
  /\ isComplete p1 = isComplete p
  /\ endTime p1 = endTime p
  /\ startTime p1
     = startTime (if isComplete p then p else startTimer p tStart).
Proof.
  unfold moveTile. destruct (isComplete p) eqn:Hc.
  { intros H; inversion H; subst p1. rewrite Hc. auto 10. }
  fold (startTimer p tStart).
  assert (Hp' : currentState (startTimer p tStart) = currentState p
                /\ initialState (startTimer p tStart) = initialState p
                /\ moveCount (startTimer p tStart) = moveCount p
                /\ moveHistory (startTimer p tStart) = moveHistory p
                /\ isComplete (startTimer p tStart) = false
                /\ endTime (startTimer p tStart) = endTime p).
  { unfold startTimer. destruct (startTime p) eqn:E; simpl; auto 10. }
  revert Hp'. generalize (startTimer p tStart). intros p' Hp'.
  destruct ((r <? 0) || (r >=? Z.of_nat (size p'))
            || (c <? 0) || (c >=? Z.of_nat (size p'))).
  { intros H; inversion H; subst p1; simpl. intuition auto. }
  destruct (findEmptyPosition (currentState p')) as [emptyPos|]; [|discriminate].
  destruct (negb (areAdjacent (mkPos r c) emptyPos)).
  { intros H; inversion H; subst p1; simpl. intuition auto. }
  unfold _executeMove.
  destruct (swapPositions (currentState p') (mkPos r c) emptyPos); [|discriminate].
  cbn [set_currentState set_moveCount set_moveHistory emit currentState
       moveCount maxMoves moveHistory].
  destruct (isPuzzleSolved _); [discriminate|].
  destruct (_ >=? _); discriminate.
Qed.

(** On the unsolvable 4x4 board, [setPuzzleState] ends by a throw, not by
    returning a value. *)
Lemma setPuzzleState_unsolvable_throws :
  isPuzzleSolvable scenarioB = Some false
  /\ (setPuzzleState (newPuzzle 4) scenarioB 100).1
     = ThrowsError "Puzzle state is not solvable"
  /\ ~ (exists result p',
          setPuzzleState (newPuzzle 4) scenarioB 100 = (Returns result, p')).
Proof.
  split; [vm_compute; reflexivity|]. split; [vm_compute; reflexivity|].
  intros (result & p' & H). vm_compute in H. discriminate.
Qed.

(** C6 (amended).  When the board handed to [setPuzzleState] has the
    session's size and [isPuzzleSolvable] rejects it, the call throws
    [Error('Puzzle state is not solvable')] and the session is left as it
    was: board, initial board, history, counters, flags and log. *)
Theorem setPuzzleState_unsolvable
        (p : Puzzle) (puzzleState : Board) (maxMoves' : Z) :
  length puzzleState = size p ->
  isPuzzleSolvable puzzleState = Some false ->
  setPuzzleState p puzzleState maxMoves'
  = (ThrowsError "Puzzle state is not solvable", p).
Proof.
  intros Hlen Hsolv. unfold setPuzzleState.
  rewrite Hlen, Nat.eqb_refl, Hsolv. reflexivity.
Qed.

Lemma setPuzzleState_unsolvable_witness :
  setPuzzleState (newPuzzle 4) scenarioB 100
  = (ThrowsError "Puzzle state is not solvable", newPuzzle 4).
Proof.
  apply (setPuzzleState_unsolvable (newPuzzle 4) scenarioB 100).
  - vm_compute; reflexivity.
  - vm_compute; reflexivity.
Defined.

(** C7.  On [[1,2,3],[4,5,6],[7,0,8]], [getValidMoves] returns tile 5
    (up), tile 7 (left) and tile 8 (right), in that order, each with its
    direction name; [moveTile(2, 2)] on a session holding that board
    returns true and yields [[1,2,3],[4,5,6],[7,8,0]], the solved board of
    size 3, so [isSolved()] is true afterwards. *)
Theorem scenarioA_moves (maxMoves' tStart tMove tEnd : Z) :
  getValidMoves scenarioA
  = [mkValidMove 1 1 (Some 5) "up";
     mkValidMove 2 0 (Some 7) "left";
     mkValidMove 2 2 (Some 8) "right"]
  /\ createPuzzleFromState scenarioA maxMoves'
     = Returns (sessionFrom scenarioA maxMoves')
  /\ currentState (sessionFrom scenarioA maxMoves') = scenarioA
  /\ puzzleGetValidMoves (sessionFrom scenarioA maxMoves')
     = Returns [mkPos 1 1; mkPos 2 0; mkPos 2 2]
  /\ isSolved (sessionFrom scenarioA maxMoves') = false
  /\ (moveTile (sessionFrom scenarioA maxMoves') tStart tMove tEnd 2 2).1
     = Returns true
  /\ currentState
       (moveTile (sessionFrom scenarioA maxMoves') tStart tMove tEnd 2 2).2
     = [[1;2;3];[4;5;6];[7;8;0]]
  /\ createSolvedPuzzle 3 = [[1;2;3];[4;5;6];[7;8;0]]
  /\ isSolved
       (moveTile (sessionFrom scenarioA maxMoves') tStart tMove tEnd 2 2).2
     = true.
Proof. repeat apply conj; vm_compute; reflexivity. Qed.

(** Selecting the empty cell through [moveTile]: the reason emitted is
    the adjacency one, not the empty-tile one. *)
Lemma moveTile_empty_cell_reason :
  cellAt (currentState (newPuzzle 3)) 2 2 = Some MECHANICS.EMPTY_TILE
  /\ reason (validateTileMove (currentState (newPuzzle 3)) 2 2)
     = "Cannot move empty tile"%string
  /\ last (emitted (moveTile (newPuzzle 3) 1 2 3 2 2).2)
     = Some (INVALID_MOVE "Tile not adjacent to empty space"
                          (mkPos 2 2) (Some (mkPos 2 2)))
  /\ ~ (exists position emptyPosition,
          last (emitted (moveTile (newPuzzle 3) 1 2 3 2 2).2)
          = Some (INVALID_MOVE "Cannot move empty tile" position emptyPosition)).
Proof.
  split; [vm_compute; reflexivity|]. split; [vm_compute; reflexivity|].
  split; [vm_compute; reflexivity|].
  intros (position & emptyPosition & H). vm_compute in H. discriminate.
Qed.

Lemma areAdjacent_same (pos : Position) : areAdjacent pos pos = false.
Proof. unfold areAdjacent. rewrite !Z.sub_diag. reflexivity. Qed.

(** C8 (amended).  On a well-formed board, for an in-bounds position
    whose cell is empty: [validateTileMove] fails with the reason
    'Cannot move empty tile'; [moveTile] on a running session rejects the
    move as well (returns false, board untouched), and the reason it
    emits is 'Tile not adjacent to empty space'. *)
Theorem empty_tile_selected (S : nat) (b : Board) (r c : Z) :
  wellFormedBoard S b ->
  inGrid S (mkPos r c) ->
  cellAt b r c = Some MECHANICS.EMPTY_TILE ->
  validateTileMove b r c
  = mkValidation false "Cannot move empty tile" (EmptyTileDetails (mkPos r c))
  /\ forall (p : Puzzle) (tStart tMove tEnd : Z),
      currentState p = b -> size p = S -> isComplete p = false ->
      moveTile p tStart tMove tEnd r c
      = (Returns false,
         emit (startTimer p tStart)
              (INVALID_MOVE "Tile not adjacent to empty space"
                            (mkPos r c) (Some (mkPos r c))))
      /\ currentState (moveTile p tStart tMove tEnd r c).2 = b.
Proof.
  intros [Hsq Hnd] Hin Hcell. pose proof Hin as [Hr Hc]. simpl in Hr, Hc.
  pose proof Hsq as [Hlen Hall].
  split.
  - unfold validateTileMove, isValidBoardPosition, len. rewrite Hlen.
    replace ((0 <=? r) && (r <? Z.of_nat S) && (0 <=? c) && (c <? Z.of_nat S))
      with true by (symmetry; rewrite !andb_true_iff; repeat split; lia).
    cbn [negb]. unfold getValueAt, len. rewrite Hlen.
    assert (Hwidth : match b with [] => 0 | line0 :: _ => Z.of_nat (length line0) end
                     = Z.of_nat S).
    { destruct b as [|line0 rest]; [simpl in Hlen; lia|].
      inversion Hall as [|? ? Hline0 _]. rewrite Hline0. reflexivity. }
    rewrite Hwidth.
    replace ((0 <=? r) && (r <? Z.of_nat S) && (0 <=? c) && (c <? Z.of_nat S))
      with true by (symmetry; rewrite !andb_true_iff; repeat split; lia).
    rewrite Hcell. reflexivity.
  - intros p tStart tMove tEnd Hcur Hsize Hrun.
    assert (Hgoal : moveTile p tStart tMove tEnd r c
                    = (Returns false,
                       emit (startTimer p tStart)
                            (INVALID_MOVE "Tile not adjacent to empty space"
                                          (mkPos r c) (Some (mkPos r c))))).
    { unfold moveTile. rewrite Hrun. fold (startTimer p tStart).
      assert (Hp' : currentState (startTimer p tStart) = b
                    /\ size (startTimer p tStart) = S).
      { unfold startTimer. destruct (startTime p); simpl; auto. }
      destruct Hp' as [Hcur' Hsize']. rewrite Hsize', Hcur'.
      replace ((r <? 0) || (r >=? Z.of_nat S) || (c <? 0) || (c >=? Z.of_nat S))
        with false by (symmetry; rewrite !orb_false_iff; repeat split; lia).
      unfold findEmptyPosition.
      rewrite (findPosition_unique S b (mkPos r c) MECHANICS.EMPTY_TILE)
        by assumption.
      rewrite areAdjacent_same. reflexivity. }
    split; [exact Hgoal|]. rewrite Hgoal. simpl.
    unfold startTimer. destruct (startTime p); simpl; assumption.
Qed.

Lemma empty_tile_selected_witness :
  validateTileMove (createSolvedPuzzle 3) 2 2
  = mkValidation false "Cannot move empty tile" (EmptyTileDetails (mkPos 2 2))
  /\ moveTile (newPuzzle 3) 10 11 12 2 2
     = (Returns false,
        emit (startTimer (newPuzzle 3) 10)
             (INVALID_MOVE "Tile not adjacent to empty space"
                           (mkPos 2 2) (Some (mkPos 2 2)))).
Proof.
  assert (Hwf : wellFormedBoard 3 (createSolvedPuzzle 3)).
  { split; [split; [reflexivity | repeat constructor]|].
    apply (bool_decide_unpack _). vm_compute. exact I. }
  assert (Hin : inGrid 3 (mkPos 2 2)) by (unfold inGrid; simpl; lia).
  assert (Hcell : cellAt (createSolvedPuzzle 3) 2 2 = Some MECHANICS.EMPTY_TILE)
    by (vm_compute; reflexivity).
  destruct (empty_tile_selected 3 (createSolvedPuzzle 3) 2 2 Hwf Hin Hcell)
    as [Hvalidate Hmove].
  split; [exact Hvalidate|].
  apply (Hmove (newPuzzle 3) 10 11 12); vm_compute; reflexivity.
Defined.

(** An over-budget session: [exhaustedSession] after one more move. *)
Lemma over_budget_reachable :
  reachable (moveTile (exhaustedSession 1 2 3) 4 5 6 2 2).2
  /\ maxMoves (moveTile (exhaustedSession 1 2 3) 4 5 6 2 2).2
     < moveCount (moveTile (exhaustedSession 1 2 3) 4 5 6 2 2).2.
Proof.
  split; [|vm_compute; reflexivity].
  apply reach_moveTile. unfold exhaustedSession. apply reach_moveTile.
  assert (Hbudget : budgetSession
                    = (setPuzzleState (newPuzzle (length almostA)) almostA 1).2)
    by (vm_compute; reflexivity).
  rewrite Hbudget. apply reach_setPuzzleState, reach_new.
Qed.

(** C10.  In every reachable session, [getMovesRemaining()] is
    [max(0, maxMoves - moveCount)], hence never negative, and it is 0
    when the move count exceeds the budget. *)
Theorem getMovesRemaining_clamped (p : Puzzle) :
  reachable p ->
  getMovesRemaining p = Z.max 0 (maxMoves p - moveCount p)
  /\ 0 <= getMovesRemaining p
  /\ (maxMoves p < moveCount p -> getMovesRemaining p = 0).
Proof.
  intros _. unfold getMovesRemaining. repeat split; lia.
Qed.

Lemma getMovesRemaining_clamped_witness :
  let p := (moveTile (exhaustedSession 1 2 3) 4 5 6 2 2).2 in
  maxMoves p < moveCount p
  /\ getMovesRemaining p = Z.max 0 (maxMoves p - moveCount p)
  /\ 0 <= getMovesRemaining p
  /\ getMovesRemaining p = 0.
Proof.
  pose proof (getMovesRemaining_clamped
                (moveTile (exhaustedSession 1 2 3) 4 5 6 2 2).2
                (proj1 over_budget_reachable)) as (H1 & H2 & H3).
  cbv zeta. split; [vm_compute; reflexivity|].
  split; [exact H1|]. split; [exact H2|].
  apply H3. vm_compute; reflexivity.
Defined.

(* ===================================================================== *)
(** * C9: copies and aliases of the session's boards *)
(* ===================================================================== *)

Section RefsFacts.
Import Refs.

Lemma alloc_spec (h : heap) (o : obj) :
  h !! (alloc h o).1 = None
  /\ (alloc h o).2 !! (alloc h o).1 = Some o
  /\ h ⊆ (alloc h o).2.
Proof.
  unfold alloc. simpl.
  assert (Hfresh : h !! fresh (dom h) = None).
  { apply not_elem_of_dom, is_fresh. }
  split; [exact Hfresh|]. split; [apply lookup_insert_eq|].
  apply insert_subseteq, Hfresh.
Qed.

Lemma readRow_weaken (h h' : heap) (r : ref) (cells : list Z) :
  h ⊆ h' -> readRow h r = Some cells -> readRow h' r = Some cells.
Proof.
  intros Hsub. unfold readRow.
  destruct (h !! r) as [[cells0|rows]|] eqn:E; try discriminate.
  rewrite (lookup_weaken _ _ _ _ E Hsub). auto.
Qed.

Lemma readRows_weaken (h h' : heap) (rows : list ref) (b : Board) :
  h ⊆ h' ->
  Forall2 (fun r cells => readRow h r = Some cells) rows b ->
  Forall2 (fun r cells => readRow h' r = Some cells) rows b.
Proof.
  intros Hsub H. induction H; constructor; eauto using readRow_weaken.
Qed.

Lemma readGrid_weaken (h h' : heap) (g : ref) (b : Board) :
  h ⊆ h' -> readGrid h g = Some b -> readGrid h' g = Some b.
Proof.
  intros Hsub. unfold readGrid.
  destruct (h !! g) as [[cells|rows]|] eqn:E; try discriminate.
  rewrite (lookup_weaken _ _ _ _ E Hsub).
  rewrite !mapM_Some. apply readRows_weaken, Hsub.
Qed.

Lemma lookup_None_weaken (h h' : heap) (q : ref) :
  h ⊆ h' -> h' !! q = None -> h !! q = None.
Proof.
  intros Hsub Hnone. destruct (h !! q) as [o|] eqn:E; [|reflexivity].
  rewrite (lookup_weaken _ _ _ _ E Hsub) in Hnone. discriminate.
Qed.

(** Cloning rows: new objects only, same integers. *)
Lemma cloneRows_spec (rows : list ref) :
  forall (h : heap) (b : Board),
    Forall2 (fun r cells => readRow h r = Some cells) rows b ->
    exists rows' h',
      cloneRows h rows = Some (rows', h')
      /\ h ⊆ h'
      /\ Forall (fun r => h !! r = None) rows'
      /\ Forall2 (fun r cells => readRow h' r = Some cells) rows' b.
Proof.
  induction rows as [|r rs IH]; intros h b Hread.
  - inversion Hread; subst. exists [], h. simpl.
    split; [reflexivity|]. split; [reflexivity|]. split; constructor.
  - inversion Hread as [|? cells ? b' Hr Hrs]; subst.
    cbn [cloneRows]. rewrite Hr.
    destruct (alloc_spec h (Row cells)) as (Hnew & Hat & Hsub).
    destruct (alloc h (Row cells)) as [r2 h1] eqn:Ealloc. simpl in *.
    destruct (IH h1 b' (readRows_weaken h h1 rs b' Hsub Hrs))
      as (rs2 & h2 & Hclone & Hsub2 & Hfresh & Hread2).
    rewrite Hclone. exists (r2 :: rs2), h2.
    split; [reflexivity|].
    split; [etransitivity; eassumption|].
    split.
    + constructor; [assumption|].
      eapply Forall_impl; [exact Hfresh|].
      intros q Hq. eapply lookup_None_weaken; eassumption.
    + constructor; [|assumption].
      apply (readRow_weaken h1 h2); [assumption|].
      unfold readRow. rewrite Hat. reflexivity.
Qed.

(** [clone2DArray]: a grid made of new objects, same integers. *)
Lemma clone2DArray_spec (h : heap) (g : ref) (b : Board) :
  readGrid h g = Some b ->
  exists r h',
    clone2DArray h g = Some (r, h')
    /\ h ⊆ h'
    /\ (forall q, q ∈ footprint h' r -> h !! q = None)
    /\ readGrid h' r = Some b.
Proof.
  unfold readGrid, clone2DArray.
  destruct (h !! g) as [[cells|rows]|] eqn:E; try discriminate.
  rewrite mapM_Some. intros Hread.
  destruct (cloneRows_spec rows h b Hread)
    as (rows' & h1 & Hclone & Hsub & Hfresh & Hread1).
  rewrite Hclone.
  destruct (alloc_spec h1 (Grid rows')) as (Hnew & Hat & Hsub1).
  destruct (alloc h1 (Grid rows')) as [r h'] eqn:Ealloc. simpl in *.
  exists r, h'. split; [reflexivity|].
  split; [etransitivity; eassumption|].
  split.
  - intros q. unfold footprint. rewrite Hat.
    intros Hq. apply elem_of_cons in Hq as [-> | Hq].
    + eapply lookup_None_weaken; eassumption.
    + rewrite Forall_forall in Hfresh. apply Hfresh. exact Hq.
  - unfold readGrid. rewrite Hat. apply mapM_Some.
    apply (readRows_weaken h1 h'); assumption.
Qed.

(** A cell write through [g] changes objects of [g] only. *)
Lemma writeCell_changedThrough (h : heap) (g : ref) (i j : nat) (v : Z) :
  changedThrough h g (writeCell h g i j v).
Proof.
  unfold changedThrough, writeCell, footprint. intros q Hq.
  destruct (h !! g) as [[cells|rows]|] eqn:E; try reflexivity.
  destruct (rows !! i) as [r|] eqn:Ei; [|reflexivity].
  destruct (h !! r) as [[cells|rows']|] eqn:Er; try reflexivity.
  apply lookup_insert_ne. intros ->. apply Hq.
  apply elem_of_cons. right. eapply list_elem_of_lookup_2; eassumption.
Qed.

Lemma currentState_in_boards (p : Puzzle) : currentState p ∈ boards p.
Proof. unfold boards. apply elem_of_cons. left. reflexivity. Qed.

Lemma solvedState_in_boards (p : Puzzle) : solvedState p ∈ boards p.
Proof.
  unfold boards. do 2 (apply elem_of_cons; right).
  apply elem_of_cons. left. reflexivity.
Qed.

(** A clone of a session board is a fresh copy. *)
Lemma clone_freshCopy (h : heap) (p : Puzzle) (g : ref) :
  wellFormed h p -> g ∈ boards p -> freshCopy h p g (clone2DArray h g).
Proof.
  intros Hwf Hg. unfold wellFormed in Hwf. rewrite Forall_forall in Hwf.
  destruct (Hwf g Hg) as [b Hb].
  destruct (clone2DArray_spec h g b Hb) as (r & h' & Hclone & Hsub & Hfresh & Hread).
  exists r, h'. split; [exact Hclone|]. split; [congruence|].
  assert (Hr : h !! r = None).
  { apply Hfresh. unfold footprint.
    destruct (h' !! r) as [[?|?]|]; apply elem_of_cons; left; reflexivity. }
  split.
  { intros Hin. destruct (Hwf r Hin) as [b' Hb'].
    unfold readGrid in Hb'. rewrite Hr in Hb'. discriminate. }
  intros h2 Hchanged.
  assert (Hsub2 : h ⊆ h2).
  { apply map_subseteq_spec. intros q o Hq.
    rewrite Hchanged.
    - eapply lookup_weaken; eassumption.
    - intros Hin. rewrite (Hfresh q Hin) in Hq. discriminate. }
  assert (Hsame : forall q, q ∈ boards p -> readGrid h2 q = readGrid h q).
  { intros q Hq. destruct (Hwf q Hq) as [bq Hbq].
    rewrite Hbq. eapply readGrid_weaken; eassumption. }
  split; [rewrite Forall_forall; exact Hsame|].
  assert (Hagain : forall q, q ∈ boards p ->
              exists r2 h3, clone2DArray h2 q = Some (r2, h3)
                            /\ readGrid h3 r2 = readGrid h q).
  { intros q Hq. destruct (Hwf q Hq) as [bq Hbq].
    pose proof (Hsame q Hq) as Hq2. rewrite Hbq in Hq2.
    destruct (clone2DArray_spec h2 q bq Hq2) as (r2 & h3 & Hc & _ & _ & Hr2).
    exists r2, h3. split; [exact Hc | congruence]. }
  split; apply Hagain;
    [apply currentState_in_boards | apply solvedState_in_boards].
Qed.

(** A reference the session holds is no fresh copy of anything. *)
Lemma alias_not_freshCopy (h : heap) (p : Puzzle) (g q : ref) :
  q ∈ boards p -> ~ freshCopy h p g (Some (q, h)).
Proof.
  intros Hq (r & h' & Heq & _ & Hnot & _).
  inversion Heq; subst r h'. contradiction.
Qed.

End RefsFacts.

(** [exportState()] hands out the session's own current board: a cell
    write through the exported reference shows in the session's board and
    in the next answer of [getCurrentState]. *)
Lemma exportState_aliases_board :
  let p := Refs.session0.1 in
  let h := Refs.session0.2 in
  let exported := Refs.ex_currentState (Refs.exportState p) in
  let h2 := Refs.writeCell h exported 0 0 99 in
  exported = Refs.currentState p
  /\ Refs.changedThrough h exported h2
  /\ Refs.readGrid h (Refs.currentState p) = Some [[1;2;3];[4;5;6];[7;8;0]]
  /\ Refs.readGrid h2 (Refs.currentState p) = Some [[99;2;3];[4;5;6];[7;8;0]]
  /\ ~ Refs.freshCopy h p (Refs.currentState p) (Some (exported, h)).
Proof.
  cbv zeta. split; [reflexivity|].
  split; [apply writeCell_changedThrough|].
  split; [vm_compute; reflexivity|].
  split; [vm_compute; reflexivity|].
  apply alias_not_freshCopy, currentState_in_boards.
Qed.

(** C9 (amended).  The boards returned by [getCurrentState()] and
    [getSolvedState()] are fresh copies: new objects holding the same
    integers, so that nothing a caller changes through them reaches the
    session's current, initial or solved board, the boards stored in the
    move history, or later query results.  ([exportState()] returns the
    session's own arrays.) *)
Theorem query_boards_are_fresh_copies (h : Refs.heap) (p : Refs.Puzzle) :
  Refs.wellFormed h p ->
  Refs.freshCopy h p (Refs.currentState p) (Refs.getCurrentState h p)
  /\ Refs.freshCopy h p (Refs.solvedState p) (Refs.getSolvedState h p)
  /\ Refs.ex_currentState (Refs.exportState p) = Refs.currentState p
  /\ Refs.ex_initialState (Refs.exportState p) = Refs.initialState p
  /\ forall g i j v, Refs.changedThrough h g (Refs.writeCell h g i j v).
Proof.
  intros Hwf. unfold Refs.getCurrentState, Refs.getSolvedState.
  split; [apply clone_freshCopy; [assumption | apply currentState_in_boards]|].
  split; [apply clone_freshCopy; [assumption | apply solvedState_in_boards]|].
  split; [reflexivity|]. split; [reflexivity|].
  intros g i j v. apply writeCell_changedThrough.
Qed.

Lemma session0_wellFormed : Refs.wellFormed Refs.session0.2 Refs.session0.1.
Proof.
  unfold Refs.wellFormed. repeat constructor; vm_compute; eexists; reflexivity.
Defined.

Lemma query_boards_are_fresh_copies_witness :
  Refs.freshCopy Refs.session0.2 Refs.session0.1
                 (Refs.currentState Refs.session0.1)
                 (Refs.getCurrentState Refs.session0.2 Refs.session0.1)
  /\ Refs.freshCopy Refs.session0.2 Refs.session0.1
                    (Refs.solvedState Refs.session0.1)
                    (Refs.getSolvedState Refs.session0.2 Refs.session0.1).
Proof.
  destruct (query_boards_are_fresh_copies
              Refs.session0.2 Refs.session0.1 session0_wellFormed)
    as (Hcurrent & Hsolved & _).
  split; assumption.
Defined.

(* ===================================================================== *)
(** * The solved board *)
(* ===================================================================== *)

Section Solved.

(** One row of [createSolvedPuzzle], from column [c0]. *)
Lemma createSolvedRow_spec (S r n : nat) :
  forall (c0 : nat) (number : Z),
    (c0 + n <= S)%nat ->
    number = Z.of_nat r * Z.of_nat S + Z.of_nat c0 + 1 ->
    createSolvedRow S r (seq c0 n) number
    = (map (fun c => solvedCell S r c) (seq c0 n),
       if (Z.of_nat r =? Z.of_nat S - 1) && (c0 + n =? S)%nat && (0 <? n)%nat
       then number + Z.of_nat n - 1 else number + Z.of_nat n).
Proof.
  induction n as [|n IH]; intros c0 number Hle Hnum.
  - simpl. rewrite andb_false_r. f_equal. lia.
  - cbn [seq createSolvedRow map].
    unfold solvedCell at 1.
    destruct ((Z.of_nat r =? Z.of_nat S - 1) && (Z.of_nat c0 =? Z.of_nat S - 1))
      eqn:Elast.
    + apply andb_true_iff in Elast as [Er Ec].
      apply Z.eqb_eq in Er, Ec.
      assert (n = 0%nat) by lia. subst n. simpl.
      replace (Z.of_nat r =? Z.of_nat S - 1) with true
        by (symmetry; apply Z.eqb_eq; exact Er).
      replace (c0 + 1 =? S)%nat with true
        by (symmetry; apply Nat.eqb_eq; lia).
      simpl. f_equal. lia.
    + rewrite (IH (Datatypes.S c0) (number + 1)) by lia.
      f_equal; [f_equal; lia|].
      replace (Datatypes.S c0 + n =? S)%nat with (c0 + Datatypes.S n =? S)%nat
        by (f_equal; lia).
      destruct (Z.of_nat r =? Z.of_nat S - 1) eqn:Er; simpl in *.
      * destruct (c0 + Datatypes.S n =? S)%nat eqn:Es; simpl.
        -- apply Nat.eqb_eq in Es. apply Z.eqb_neq in Elast.
           destruct n as [|n]; [lia|]. simpl. lia.
        -- lia.
      * lia.
Qed.

(** The rows of [createSolvedPuzzle], from row [r0]. *)
Lemma createSolvedRows_spec (S m : nat) :
  forall (r0 : nat) (number : Z),
    (r0 + m <= S)%nat ->
    number = Z.of_nat r0 * Z.of_nat S + 1 ->
    createSolvedRows S (seq r0 m) number
    = map (fun r => map (fun c => solvedCell S r c) (seq 0 S)) (seq r0 m).
Proof.
  induction m as [|m IH]; intros r0 number Hle Hnum; [reflexivity|].
  cbn [seq createSolvedRows map].
  rewrite (createSolvedRow_spec S r0 S 0 number) by lia.
  f_equal.
  destruct m as [|m]; [reflexivity|].
  apply IH; [lia|].
  replace (Z.of_nat r0 =? Z.of_nat S - 1) with false
    by (symmetry; apply Z.eqb_neq; lia).
  simpl. lia.
Qed.

Lemma createSolvedPuzzle_closed (S : nat) : createSolvedPuzzle S = solvedGrid S.
Proof.
  unfold createSolvedPuzzle, solvedGrid.
  apply createSolvedRows_spec; simpl; lia.
Qed.

Lemma solvedGrid_square (S : nat) : square S (solvedGrid S).
Proof.
  unfold square, solvedGrid. split.
  - rewrite length_map, length_seq. reflexivity.
  - apply Forall_forall. intros line Hin.
    apply list_elem_of_In, in_map_iff in Hin as (r & <- & _).
    rewrite length_map, length_seq. reflexivity.
Qed.

Lemma cellAt_solvedGrid (S r c : nat) :
  (r < S)%nat -> (c < S)%nat ->
  cellAt (solvedGrid S) (Z.of_nat r) (Z.of_nat c) = Some (solvedCell S r c).
Proof.
  intros Hr Hc. unfold cellAt, solvedGrid.
  rewrite js_index_lookup, Nat2Z.id by lia.
  rewrite list_lookup_fmap, lookup_seq_lt by assumption. simpl.
  rewrite js_index_lookup, Nat2Z.id by lia.
  rewrite list_lookup_fmap, lookup_seq_lt by assumption. reflexivity.
Qed.

(** The [j]-th position the nested loops visit, starting at row [r0]. *)
Lemma gridRows_lookup (S m : nat) :
  forall (r0 j r c : nat),
    flat_map (fun r => map (fun c => (r, c)) (seq 0 S)) (seq r0 m) !! j
    = Some (r, c) ->
    (r * S + c = r0 * S + j)%nat /\ (c < S)%nat /\ (r0 <= r < r0 + m)%nat.
Proof.
  induction m as [|m IH]; intros r0 j r c H; [discriminate|].
  cbn [seq flat_map] in H.
  destruct (Nat.lt_ge_cases j S) as [Hlt | Hge].
  - rewrite lookup_app_l in H by (rewrite length_map, length_seq; exact Hlt).
    rewrite list_lookup_fmap, lookup_seq_lt in H by assumption.
    simpl in H. inversion H; subst. lia.
  - rewrite lookup_app_r in H by (rewrite length_map, length_seq; exact Hge).
    rewrite length_map, length_seq in H.
    apply IH in H. lia.
Qed.

Lemma gridPositions_lookup (S j r c : nat) :
  gridPositions S !! j = Some (r, c) ->
  (r * S + c = j)%nat /\ (c < S)%nat /\ (r < S)%nat.
Proof.
  intros H. apply gridRows_lookup in H. lia.
Qed.

Lemma gridPositions_In (S r c : nat) :
  In (r, c) (gridPositions S) <-> (r < S)%nat /\ (c < S)%nat.
Proof.
  unfold gridPositions. rewrite in_flat_map. split.
  - intros (r' & Hr & Hc). apply in_map_iff in Hc as (c' & Heq & Hc).
    inversion Heq; subst. apply in_seq in Hr, Hc. lia.
  - intros [Hr Hc]. exists r. split; [apply in_seq; lia|].
    apply in_map_iff. exists c. split; [reflexivity | apply in_seq; lia].
Qed.

Lemma gridPositions_length (S : nat) : length (gridPositions S) = (S * S)%nat.
Proof.
  assert (H : forall l : list nat,
             length (flat_map (fun r => map (fun c => (r, c)) (seq 0 S)) l)
             = (length l * S)%nat).
  { induction l as [|r l IH]; [reflexivity|].
    cbn [flat_map]. rewrite List.length_app, IH, length_map, length_seq.
    simpl. lia. }
  unfold gridPositions. rewrite H, length_seq. reflexivity.
Qed.

(** The loop of [isPuzzleSolved] over a tail of the visiting order. *)
Lemma isPuzzleSolvedLoop_spec (puzzle : Board) (S : nat) (todo : list (nat * nat)) :
  forall expected : Z,
    (forall j r c, todo !! j = Some (r, c) ->
                   Z.of_nat r * Z.of_nat S + Z.of_nat c + 1 = expected + Z.of_nat j) ->
    (forall j r c, todo !! j = Some (r, c) ->
                   (r = S - 1)%nat /\ (c = S - 1)%nat -> (1 <= S)%nat ->
                   Datatypes.S j = length todo) ->
    (forall r c, In (r, c) todo -> (1 <= S)%nat) ->
    isPuzzleSolvedLoop puzzle S todo expected
    = forallb (cellSolved S puzzle) todo.
Proof.
  induction todo as [|[r c] rest IH]; intros expected Hrank Hlast Hpos;
    [reflexivity|].
  cbn [isPuzzleSolvedLoop forallb]. unfold cellSolved at 1, solvedCell. simpl fst; simpl snd.
  assert (HS : (1 <= S)%nat) by (eapply Hpos; left; reflexivity).
  pose proof (Hrank 0%nat r c eq_refl) as H0.
  destruct ((Z.of_nat r =? Z.of_nat S - 1) && (Z.of_nat c =? Z.of_nat S - 1))
    eqn:Elast.
  - apply andb_true_iff in Elast as [Er Ec]. apply Z.eqb_eq in Er, Ec.
    assert (Hlen : 1%nat = length ((r, c) :: rest)).
    { apply (Hlast 0%nat r c eq_refl); [lia | exact HS]. }
    destruct rest; [|simpl in Hlen; lia].
    simpl. rewrite andb_true_r. reflexivity.
  - replace (Z.of_nat r * Z.of_nat S + Z.of_nat c + 1) with expected by lia.
    destruct (bool_decide (cellAt puzzle (Z.of_nat r) (Z.of_nat c) = Some expected));
      [|reflexivity].
    simpl. apply IH.
    + intros j r' c' Hj. specialize (Hrank (Datatypes.S j) r' c' Hj). lia.
    + intros j r' c' Hj Hl HS'.
      specialize (Hlast (Datatypes.S j) r' c' Hj Hl HS'). simpl in Hlast. lia.
    + intros r' c' Hin. eapply Hpos. right. exact Hin.
Qed.

Lemma isPuzzleSolved_forallb (puzzle : Board) :
  isPuzzleSolved puzzle
  = forallb (cellSolved (length puzzle) puzzle) (gridPositions (length puzzle)).
Proof.
  unfold isPuzzleSolved. set (S := length puzzle).
  apply isPuzzleSolvedLoop_spec.
  - intros j r c Hj. apply gridPositions_lookup in Hj. lia.
  - intros j r c Hj [Hr Hc] HS. rewrite gridPositions_length.
    apply gridPositions_lookup in Hj. subst r c.
    destruct Hj as (Hj & _ & _). rewrite <- Hj.
    destruct S as [|S']; [lia|]. simpl. lia.
  - intros r c Hin. apply gridPositions_In in Hin. lia.
Qed.

Lemma isPuzzleSolved_cells (puzzle : Board) :
  isPuzzleSolved puzzle = true
  <-> forall r c : nat,
      (r < length puzzle)%nat -> (c < length puzzle)%nat ->
      cellAt puzzle (Z.of_nat r) (Z.of_nat c)
      = Some (solvedCell (length puzzle) r c).
Proof.
  rewrite isPuzzleSolved_forallb, forallb_forall. split.
  - intros H r c Hr Hc.
    specialize (H (r, c) (proj2 (gridPositions_In _ r c) (conj Hr Hc))).
    apply bool_decide_eq_true_1 in H. exact H.
  - intros H [r c] Hin. apply gridPositions_In in Hin as [Hr Hc].
    apply bool_decide_eq_true_2. apply H; assumption.
Qed.

(** Two square grids with the same cells are the same grid. *)
Lemma square_ext (S : nat) (b1 b2 : Board) :
  square S b1 -> square S b2 ->
  (forall r c : nat, (r < S)%nat -> (c < S)%nat ->
                     cellAt b1 (Z.of_nat r) (Z.of_nat c)
                     = cellAt b2 (Z.of_nat r) (Z.of_nat c)) ->
  b1 = b2.
Proof.
  intros [Hlen1 Hall1] [Hlen2 Hall2] Hcells.
  apply list_eq. intros r.
  destruct (Nat.lt_ge_cases r S) as [Hr | Hr].
  2:{ rewrite !lookup_ge_None_2 by lia. reflexivity. }
  destruct (lookup_lt_is_Some_2 b1 r ltac:(lia)) as [l1 E1].
  destruct (lookup_lt_is_Some_2 b2 r ltac:(lia)) as [l2 E2].
  rewrite E1, E2. f_equal.
  pose proof (Forall_lookup_1 _ _ _ _ Hall1 E1) as Hl1.
  pose proof (Forall_lookup_1 _ _ _ _ Hall2 E2) as Hl2.
  simpl in Hl1, Hl2.
  apply list_eq. intros c.
  destruct (Nat.lt_ge_cases c S) as [Hc | Hc].
  2:{ rewrite !lookup_ge_None_2 by lia. reflexivity. }
  specialize (Hcells r c Hr Hc). unfold cellAt in Hcells.
  rewrite !js_index_lookup, !Nat2Z.id, E1, E2 in Hcells by lia.
  rewrite !js_index_lookup, !Nat2Z.id in Hcells by lia.
  exact Hcells.
Qed.

End Solved.

(** X1.  On a square grid, [isPuzzleSolved] answers true exactly for the
    board [createSolvedPuzzle] builds for that size. *)
Theorem isPuzzleSolved_iff_solved_board (puzzle : Board) :
  square (length puzzle) puzzle ->
  (isPuzzleSolved puzzle = true <-> puzzle = createSolvedPuzzle (length puzzle)).
Proof.
  intros Hsq. rewrite isPuzzleSolved_cells, createSolvedPuzzle_closed. split.
  - intros Hcells. apply (square_ext (length puzzle)); [assumption | apply solvedGrid_square|].
    intros r c Hr Hc. rewrite cellAt_solvedGrid by assumption. apply Hcells; assumption.
  - intros Heq r c Hr Hc. rewrite Heq at 1. apply cellAt_solvedGrid; assumption.
Qed.

Lemma isPuzzleSolved_iff_solved_board_witness :
  isPuzzleSolved scenarioA = true <-> scenarioA = createSolvedPuzzle (length scenarioA).
Proof.
  apply isPuzzleSolved_iff_solved_board.
  split; [reflexivity | repeat constructor].
Defined.

Section SolvedFacts.

Lemma solvedGrid_flat (S : nat) :
  (1 <= S)%nat ->
  concat (solvedGrid S) = map Z.of_nat (seq 1 (S * S - 1)) ++ [0].
Proof.
  intros HS. apply list_eq. intros i.
  destruct (solvedGrid_square S) as [Hlen Hall].
  destruct (Nat.lt_ge_cases i (S * S)) as [Hi | Hi].
  - pose proof (Nat.div_mod_eq i S) as Hdm.
    pose proof (Nat.mod_upper_bound i S ltac:(lia)) as Hc.
    assert (Hr : (i / S < S)%nat) by (apply Nat.Div0.div_lt_upper_bound; lia).
    set (r := (i / S)%nat) in *. set (c := (i mod S)%nat) in *.
    replace i with (r * S + c)%nat at 1 by lia.
    rewrite (concat_lookup S) by assumption.
    unfold solvedGrid. rewrite list_lookup_fmap, lookup_seq_lt by assumption.
    simpl. rewrite list_lookup_fmap, lookup_seq_lt by assumption. simpl.
    unfold solvedCell.
    destruct ((Z.of_nat r =? Z.of_nat S - 1) && (Z.of_nat c =? Z.of_nat S - 1))
      eqn:Elast.
    + apply andb_true_iff in Elast as [Er Ec]. apply Z.eqb_eq in Er, Ec.
      assert (Hlast : i = (S * S - 1)%nat) by nia.
      rewrite lookup_app_r by (rewrite length_map, length_seq; lia).
      rewrite length_map, length_seq, Hlast, Nat.sub_diag. reflexivity.
    + assert (Hnot : (i < S * S - 1)%nat).
      { apply andb_false_iff in Elast.
        destruct Elast as [E | E]; apply Z.eqb_neq in E; nia. }
      rewrite lookup_app_l by (rewrite length_map, length_seq; lia).
      rewrite list_lookup_fmap, lookup_seq_lt by assumption. simpl.
      f_equal. nia.
  - rewrite !lookup_ge_None_2; [reflexivity | |].
    + rewrite List.length_app, length_map, length_seq. simpl. lia.
    + rewrite (concat_length S), Hlen by assumption. lia.
Qed.

Lemma NoDup_ranks (n : nat) : NoDup (map Z.of_nat (seq 1 n) ++ [0]).
Proof.
  apply NoDup_app. split; [|split].
  - apply NoDup_fmap; [intros a b; apply Nat2Z.inj | apply NoDup_seq].
  - intros v Hv H0. apply list_elem_of_singleton in H0. subst v.
    apply list_elem_of_fmap in Hv as (k & Hk & Hin).
    apply elem_of_seq in Hin. lia.
  - apply NoDup_singleton.
Qed.

Lemma nz_ranks (n : nat) :
  nz (map Z.of_nat (seq 1 n) ++ [0]) = map Z.of_nat (seq 1 n).
Proof.
  rewrite nz_app. simpl. rewrite app_nil_r. apply nz_id.
  intros H0. apply list_elem_of_fmap in H0 as (k & Hk & Hin).
  apply elem_of_seq in Hin. lia.
Qed.

(** An increasing run has no inversion. *)
Lemma inv_ranks (n : nat) : forall k : nat, inv (map Z.of_nat (seq k n)) = 0%nat.
Proof.
  induction n as [|n IH]; intros k; [reflexivity|].
  cbn [seq map inv]. rewrite IH, Nat.add_0_r.
  unfold smallerAfter.
  assert (H : forall l, Forall (fun v => Z.of_nat k < v) l ->
                        List.filter (fun tj => tj <? Z.of_nat k) l = []).
  { induction 1 as [|v l Hv _ IHl]; [reflexivity|].
    simpl. replace (v <? Z.of_nat k) with false
      by (symmetry; apply Z.ltb_ge; lia). exact IHl. }
  rewrite H; [reflexivity|].
  apply Forall_forall. intros v Hv.
  apply list_elem_of_fmap in Hv as (j & -> & Hin).
  apply elem_of_seq in Hin. lia.
Qed.

Lemma solved_wellFormed (S : nat) : wellFormedBoard S (createSolvedPuzzle S).
Proof.
  rewrite createSolvedPuzzle_closed. split; [apply solvedGrid_square|].
  destruct S as [|S']; [constructor|].
  rewrite solvedGrid_flat by lia. apply NoDup_ranks.
Qed.

Lemma solved_empty_cell (S : nat) :
  (1 <= S)%nat ->
  cellAt (createSolvedPuzzle S) (Z.of_nat S - 1) (Z.of_nat S - 1) = Some 0.
Proof.
  intros HS. rewrite createSolvedPuzzle_closed.
  replace (Z.of_nat S - 1) with (Z.of_nat (S - 1)) by lia.
  rewrite cellAt_solvedGrid by lia. unfold solvedCell.
  replace (Z.of_nat (S - 1) =? Z.of_nat S - 1) with true
    by (symmetry; apply Z.eqb_eq; lia).
  reflexivity.
Qed.

Lemma solved_findEmptyPosition (S : nat) :
  (1 <= S)%nat ->
  findEmptyPosition (createSolvedPuzzle S)
  = Some (mkPos (Z.of_nat S - 1) (Z.of_nat S - 1)).
Proof.
  intros HS. destruct (solved_wellFormed S) as [Hsq Hnd].
  apply (findPosition_unique S); try assumption.
  - unfold inGrid; simpl; lia.
  - apply solved_empty_cell, HS.
Qed.

Lemma solved_isPuzzleSolvable (S : nat) :
  (1 <= S)%nat -> isPuzzleSolvable (createSolvedPuzzle S) = Some true.
Proof.
  intros HS. rewrite isPuzzleSolvable_verdict.
  rewrite solved_findEmptyPosition by assumption.
  destruct (solved_wellFormed S) as [[Hlen _] _]. rewrite Hlen.
  cbn [option_map row]. unfold verdict.
  rewrite !tilesOnly_nz, !createSolvedPuzzle_closed, !solvedGrid_flat by assumption.
  rewrite !nz_ranks, !inv_ranks.
  replace (Z.of_nat S - (Z.of_nat S - 1)) with 1 by lia.
  destruct (Nat.odd S); reflexivity.
Qed.

End SolvedFacts.

(** X2.  [createSolvedPuzzle(size)] is, for every [size >= 1], the square
    grid whose row-major reading is 1, 2, ..., size*size - 1 followed by
    0; [isPuzzleSolved] and [isPuzzleSolvable] both accept it, and
    [findEmptyPosition] finds its empty cell in the last row and column. *)
Theorem createSolvedPuzzle_spec (size' : nat) :
  (1 <= size')%nat ->
  square size' (createSolvedPuzzle size')
  /\ flatten2DArray (createSolvedPuzzle size')
     = map Z.of_nat (seq 1 (size' * size' - 1)) ++ [0]
  /\ isPuzzleSolved (createSolvedPuzzle size') = true
  /\ isPuzzleSolvable (createSolvedPuzzle size') = Some true
  /\ findEmptyPosition (createSolvedPuzzle size')
     = Some (mkPos (Z.of_nat size' - 1) (Z.of_nat size' - 1)).
Proof.
  intros HS. destruct (solved_wellFormed size') as [Hsq Hnd].
  split; [exact Hsq|]. split.
  { unfold flatten2DArray. rewrite createSolvedPuzzle_closed.
    apply solvedGrid_flat, HS. }
  split.
  { apply isPuzzleSolved_cells. intros r c Hr Hc.
    destruct Hsq as [Hlen _]. rewrite Hlen in *.
    rewrite createSolvedPuzzle_closed. apply cellAt_solvedGrid; assumption. }
  split; [apply solved_isPuzzleSolvable, HS | apply solved_findEmptyPosition, HS].
Qed.

Lemma createSolvedPuzzle_spec_witness :
  square 4 (createSolvedPuzzle 4)
  /\ flatten2DArray (createSolvedPuzzle 4)
     = map Z.of_nat (seq 1 (4 * 4 - 1)) ++ [0]
  /\ isPuzzleSolved (createSolvedPuzzle 4) = true
  /\ isPuzzleSolvable (createSolvedPuzzle 4) = Some true
  /\ findEmptyPosition (createSolvedPuzzle 4)
     = Some (mkPos (Z.of_nat 4 - 1) (Z.of_nat 4 - 1)).
Proof.
  apply (createSolvedPuzzle_spec 4). lia.
Defined.

(* ===================================================================== *)
(** * The generator on every board size *)
(* ===================================================================== *)

Section GeneratorFacts.

(** Exchanging two entries of a list permutes it. *)
Lemma swap_entries_perm {A} (l : list A) (i j : nat) (a c : A) :
  l !! i = Some a -> l !! j = Some c ->
  Permutation l (<[j := a]> (<[i := c]> l)).
Proof.
  intros Hi Hj.
  destruct (Nat.lt_total i j) as [Hlt | [Heq | Hgt]].
  - destruct (split_two l i j a c Hlt Hi Hj) as (X & M & Y & Hl & HX & HM).
    rewrite Hl at 2.
    replace j with (length X + Datatypes.S (length M))%nat by lia.
    rewrite <- HX, swap_split, Hl. apply swap_perm.
  - subst j. rewrite list_insert_insert_eq, list_insert_id by assumption.
    reflexivity.
  - destruct (split_two l j i c a Hgt Hj Hi) as (X & M & Y & Hl & HX & HM).
    rewrite list_insert_insert_ne by lia.
    rewrite Hl at 2.
    replace i with (length X + Datatypes.S (length M))%nat by lia.
    rewrite <- HX, swap_split, Hl. apply swap_perm.
Qed.

(** [swapPositions] on a square grid permutes its cells. *)
Lemma swapPositions_perm (S : nat) (b b' : Board) (p1 p2 : Position) :
  square S b -> inGrid S p1 -> inGrid S p2 ->
  swapPositions b p1 p2 = Some b' ->
  Permutation (concat b) (concat b') /\ square S b'.
Proof.
  intros Hsq H1 H2 Hswap.
  destruct (swapPositions_flat S b p1 p2 Hsq H1 H2)
    as (v1 & v2 & b'' & Hi & Hj & Hswap' & Hflat & Hsq').
  rewrite Hswap in Hswap'. inversion Hswap'; subst b''.
  split; [|assumption]. rewrite Hflat. apply swap_entries_perm; assumption.
Qed.

Variable S : nat.
Hypothesis size_ge_2 : (2 <= S)%nat.
Variable random : nat -> Q.
Hypothesis random_range : forall i, (0 <= random i)%Q /\ (random i < 1)%Q.

(** The shuffle loop returns, and returns a permutation of the board
    it started from. *)
Lemma shuffleLoop_perm (todo : nat) :
  forall (i : nat) (b : Board) (e : Position) (lastMove : option Position),
    square S b -> NoDup (concat b) -> inGrid S e ->
    cellAt b (row e) (col e) = Some 0 ->
    exists b',
      shuffleLoop S random todo i b e lastMove = Returns b'
      /\ square S b' /\ Permutation (concat b) (concat b')
      /\ isPuzzleSolvable b' = isPuzzleSolvable b.
Proof.
  induction todo as [|todo IH]; intros i b e lastMove Hsq Hnd He Hcell.
  - exists b. simpl. auto.
  - destruct (shuffleLoop_solvable S size_ge_2 random random_range
                (Datatypes.S todo) i b e lastMove Hsq Hnd He Hcell)
      as (bEnd & HEnd & _).
    cbn [shuffleLoop] in HEnd |- *.
    destruct (js_index _ _) as [t|] eqn:Et; [|discriminate].
    destruct (swapPositions b e t) as [b1|] eqn:Eswap; [|discriminate].
    assert (Hin : In t (getAdjacentPositions (row e) (col e) (Z.of_nat S))).
    { unfold js_index in Et.
      destruct (_ <? 0); [discriminate|].
      apply list_elem_of_lookup_2, list_elem_of_In in Et.
      apply filter_In in Et. apply Et. }
    apply getAdjacentPositions_slides in Hin as [HtG Hslide].
    destruct (slide_step S b e t Hsq Hnd He HtG Hcell Hslide)
      as (b1' & Hswap & Hsq1 & Hnd1 & Hcell1 & Hsolv1).
    rewrite Eswap in Hswap. inversion Hswap; subst b1'.
    destruct (swapPositions_perm S b b1 e t Hsq He HtG Eswap) as [Hperm1 _].
    destruct (IH (Datatypes.S i) b1 t (Some e) Hsq1 Hnd1 HtG Hcell1)
      as (b' & Hloop & Hsq' & Hperm' & Hsolv').
    exists b'. split; [exact Hloop|]. split; [exact Hsq'|].
    split; [etransitivity; eassumption | congruence].
Qed.

End GeneratorFacts.

(** X3.  For every board size [S >= 2], every number of shuffle steps and
    all draws of [Math.random()] in [0,1), [generateSolvablePuzzle]
    returns a square board that is a rearrangement of the solved board
    (each of 0 .. S*S-1 once) and that [isPuzzleSolvable] accepts. *)
Theorem generateSolvablePuzzle_wellFormed
        (S : nat) (K : nat) (random : nat -> Q) :
  (2 <= S)%nat ->
  (forall i, (0 <= random i)%Q /\ (random i < 1)%Q) ->
  exists board,
    generateSolvablePuzzle S K random = Returns board
    /\ wellFormedBoard S board
    /\ Permutation (flatten2DArray board)
                   (map Z.of_nat (seq 1 (S * S - 1)) ++ [0])
    /\ isPuzzleSolvable board = Some true.
Proof.
  intros HS Hrandom.
  destruct (solved_wellFormed S) as [Hsq Hnd].
  pose proof (solved_findEmptyPosition S ltac:(lia)) as Hfind.
  pose proof (solved_empty_cell S ltac:(lia)) as Hcell.
  assert (He : inGrid S (mkPos (Z.of_nat S - 1) (Z.of_nat S - 1)))
    by (unfold inGrid; simpl; lia).
  destruct (shuffleLoop_perm S HS random Hrandom K 0 (createSolvedPuzzle S)
              _ None Hsq Hnd He Hcell)
    as (b' & Hloop & Hsq' & Hperm & Hsolv).
  exists b'. unfold generateSolvablePuzzle. rewrite Hfind.
  split; [exact Hloop|].
  split; [split; [exact Hsq'|]; rewrite <- Hperm; exact Hnd|].
  split.
  - unfold flatten2DArray. rewrite <- Hperm, createSolvedPuzzle_closed.
    rewrite solvedGrid_flat by lia. reflexivity.
  - rewrite Hsolv. apply solved_isPuzzleSolvable. lia.
Qed.

Lemma generateSolvablePuzzle_wellFormed_witness :
  exists board,
    generateSolvablePuzzle 6 9 (fun i => if Nat.even i then 2 # 3 else 1 # 7)%Q
    = Returns board
    /\ wellFormedBoard 6 board
    /\ Permutation (flatten2DArray board)
                   (map Z.of_nat (seq 1 (6 * 6 - 1)) ++ [0])
    /\ isPuzzleSolvable board = Some true.
Proof.
  apply generateSolvablePuzzle_wellFormed.
  - lia.
  - intros i. destruct (Nat.even i); split; vm_compute; congruence.
Defined.

(** X4.  With zero shuffle steps [generateSolvablePuzzle] returns the
    solved board of any size; on a board of size 0 or 1 any positive
    number of steps ends in a [TypeError], whatever the draws (there is
    no cell to slide). *)
Theorem generateSolvablePuzzle_edges (S K : nat) (random : nat -> Q) :
  generateSolvablePuzzle S 0 random = Returns (createSolvedPuzzle S)
  /\ generateSolvablePuzzle 0 (Datatypes.S K) random = Fault
  /\ generateSolvablePuzzle 1 (Datatypes.S K) random = Fault.
Proof.
  split; [|split].
  - unfold generateSolvablePuzzle.
    destruct (findEmptyPosition (createSolvedPuzzle S)); reflexivity.
  - reflexivity.
  - assert (Hnil : forall z : Z, js_index (@nil Position) z = None).
    { intros z. unfold js_index. destruct (z <? 0); reflexivity. }
    unfold generateSolvablePuzzle. simpl. rewrite Hnil. reflexivity.
Qed.

(* ===================================================================== *)
(** * Win condition *)
(* ===================================================================== *)

Section WinFacts.

Variables (puzzle solvedState : Board).

Lemma validateWinLoop_spec (todo : list (nat * nat)) :
  forall (correct : Z) (misplaced : list MisplacedTile),
    (validateWinLoop puzzle solvedState todo correct misplaced).1
    = correct + Z.of_nat (length (List.filter (sameCell puzzle solvedState) todo))
    /\ length (validateWinLoop puzzle solvedState todo correct misplaced).2
       = (length misplaced
          + length (List.filter
                      (fun rc => negb (sameCell puzzle solvedState rc)) todo))%nat.
Proof.
  induction todo as [|[r c] rest IH]; intros correct misplaced.
  - simpl. split; lia.
  - cbn [validateWinLoop List.filter].
    change (bool_decide (cellAt puzzle (Z.of_nat r) (Z.of_nat c)
                         = cellAt solvedState (Z.of_nat r) (Z.of_nat c)))
      with (sameCell puzzle solvedState (r, c)).
    destruct (sameCell puzzle solvedState (r, c)); cbn [negb].
    + destruct (IH (correct + 1) misplaced) as [H1 H2].
      rewrite H1, H2. simpl length. split; lia.
    + destruct (IH correct
                   (misplaced ++ [mkMisplaced (mkPos (Z.of_nat r) (Z.of_nat c))
                                    (cellAt puzzle (Z.of_nat r) (Z.of_nat c))
                                    (cellAt solvedState (Z.of_nat r) (Z.of_nat c))]))
        as [H1 H2].
      rewrite H1, H2, List.length_app. simpl length. split; lia.
Qed.

End WinFacts.

Lemma forallb_ext_In {A} (f g : A -> bool) (l : list A) :
  (forall a, In a l -> f a = g a) -> forallb f l = forallb g l.
Proof.
  induction l as [|a l IH]; intros H; [reflexivity|].
  simpl. rewrite (H a) by (left; reflexivity).
  rewrite IH; [reflexivity|]. intros; apply H; right; assumption.
Qed.

Lemma filter_split_length {A} (f : A -> bool) (l : list A) :
  (length (List.filter f l) + length (List.filter (fun a => negb (f a)) l))%nat
  = length l.
Proof.
  induction l as [|a l IH]; [reflexivity|].
  simpl. destruct (f a); simpl; lia.
Qed.

Lemma filter_all_forallb {A} (f : A -> bool) (l : list A) :
  length (List.filter f l) = length l <-> forallb f l = true.
Proof.
  induction l as [|a l IH]; [simpl; tauto|].
  simpl. pose proof (List.filter_length_le f l) as Hle.
  destruct (f a); simpl.
  - rewrite <- IH. lia.
  - split; [lia | discriminate].
Qed.

(** X5.  [validateWinCondition] and [isPuzzleSolved] agree on every
    grid: [solved] is [isPuzzleSolved(puzzle)].  The correct tiles and
    the misplaced entries together are the [size * size] cells, and
    [solved] holds exactly when nothing is misplaced. *)
Theorem validateWinCondition_agrees (puzzle : Board) :
  solved (validateWinCondition puzzle) = isPuzzleSolved puzzle
  /\ correctTiles (validateWinCondition puzzle)
     + len (misplacedTiles (validateWinCondition puzzle))
     = totalTiles (validateWinCondition puzzle)
  /\ totalTiles (validateWinCondition puzzle) = len puzzle * len puzzle
  /\ (solved (validateWinCondition puzzle) = true
      <-> misplacedTiles (validateWinCondition puzzle) = []).
Proof.
  unfold validateWinCondition, len.
  set (S := length puzzle).
  pose proof (validateWinLoop_spec puzzle (createSolvedPuzzle S)
                (gridPositions S) 0 []) as [Hc Hm].
  destruct (validateWinLoop puzzle (createSolvedPuzzle S) (gridPositions S) 0 [])
    as [correct misplaced].
  cbn [fst snd solved correctTiles totalTiles misplacedTiles] in *.
  set (same := sameCell puzzle (createSolvedPuzzle S)) in *.
  pose proof (filter_split_length same (gridPositions S)) as Hsplit.
  rewrite gridPositions_length in Hsplit. simpl length in Hm.
  assert (Hsame : forallb same (gridPositions S)
                  = forallb (cellSolved S puzzle) (gridPositions S)).
  { apply forallb_ext_In. intros [r c] Hin.
    apply gridPositions_In in Hin as [Hr Hc'].
    unfold same, sameCell, cellSolved. simpl.
    rewrite createSolvedPuzzle_closed, cellAt_solvedGrid by assumption.
    reflexivity. }
  assert (Hall : (correct =? Z.of_nat S * Z.of_nat S) = isPuzzleSolved puzzle).
  { rewrite isPuzzleSolved_forallb. fold S. rewrite <- Hsame.
    destruct (forallb same (gridPositions S)) eqn:E.
    - apply filter_all_forallb in E. rewrite gridPositions_length in E.
      apply Z.eqb_eq. nia.
    - apply Z.eqb_neq. intros Heq.
      assert (E' : forallb same (gridPositions S) = true).
      { apply filter_all_forallb. rewrite gridPositions_length. nia. }
      congruence. }
  split; [exact Hall|]. split; [nia|]. split; [reflexivity|].
  split.
  - intros Hs. apply Z.eqb_eq in Hs.
    destruct misplaced; [reflexivity | simpl in Hm; nia].
  - intros ->. simpl in Hm. apply Z.eqb_eq. nia.
Qed.

(* ===================================================================== *)
(** * swapPositions, setValueAt, arrays2DEqual, arrayTo2D, shuffleArray *)
(* ===================================================================== *)

Section CellFacts.

Lemma cellAt_Some_inv (b : Board) (r c v : Z) :
  cellAt b r c = Some v ->
  0 <= r /\ 0 <= c
  /\ exists line, b !! Z.to_nat r = Some line /\ line !! Z.to_nat c = Some v.
Proof.
  unfold cellAt, js_index. intros H.
  destruct (r <? 0) eqn:Er; [discriminate|]. apply Z.ltb_ge in Er.
  destruct (b !! Z.to_nat r) as [line|] eqn:El; [|discriminate].
  destruct (c <? 0) eqn:Ec; [discriminate|]. apply Z.ltb_ge in Ec.
  eauto.
Qed.

Lemma cellAt_lookup (b : Board) (r c : Z) (line : list Z) :
  0 <= r -> 0 <= c -> b !! Z.to_nat r = Some line ->
  cellAt b r c = line !! Z.to_nat c.
Proof.
  intros Hr Hc Hl. unfold cellAt.
  rewrite js_index_lookup, Hl by assumption. apply js_index_lookup, Hc.
Qed.

Lemma writeCell_lookup (b : Board) (r c v : Z) (line : list Z) :
  0 <= r -> b !! Z.to_nat r = Some line ->
  writeCell b r c v = <[Z.to_nat r := <[Z.to_nat c := v]> line]> b.
Proof.
  intros Hr Hl. unfold writeCell. rewrite js_index_lookup, Hl by assumption.
  reflexivity.
Qed.

(** Reading a grid after a cell write. *)
Lemma cellAt_writeCell (b : Board) (r c v r' c' : Z) :
  is_Some (cellAt b r c) ->
  cellAt (writeCell b r c v) r' c'
  = if (r =? r') && (c =? c') then Some v else cellAt b r' c'.
Proof.
  intros [x Hx]. apply cellAt_Some_inv in Hx as (Hr & Hc & line & Hl & Hcell).
  rewrite (writeCell_lookup b r c v line) by assumption.
  pose proof (lookup_lt_Some _ _ _ Hl) as HR.
  pose proof (lookup_lt_Some _ _ _ Hcell) as HC.
  unfold cellAt at 1. unfold js_index at 1.
  destruct (r' <? 0) eqn:Er'.
  { apply Z.ltb_lt in Er'.
    replace (r =? r') with false by (symmetry; apply Z.eqb_neq; lia).
    unfold cellAt, js_index. rewrite (proj2 (Z.ltb_lt _ _) Er'). reflexivity. }
  apply Z.ltb_ge in Er'.
  destruct (Z.eq_dec r r') as [<- | Hne].
  - rewrite Z.eqb_refl, list_lookup_insert_eq by assumption. simpl.
    unfold js_index. destruct (c' <? 0) eqn:Ec'.
    { apply Z.ltb_lt in Ec'.
      replace (c =? c') with false by (symmetry; apply Z.eqb_neq; lia).
      unfold cellAt. rewrite js_index_lookup, Hl by assumption.
      unfold js_index. rewrite (proj2 (Z.ltb_lt _ _) Ec'). reflexivity. }
    apply Z.ltb_ge in Ec'.
    destruct (Z.eq_dec c c') as [<- | Hnec].
    + rewrite Z.eqb_refl, list_lookup_insert_eq by assumption. reflexivity.
    + replace (c =? c') with false by (symmetry; apply Z.eqb_neq; lia).
      rewrite list_lookup_insert_ne by lia.
      symmetry. apply cellAt_lookup; assumption.
  - replace (r =? r') with false by (symmetry; apply Z.eqb_neq; lia).
    rewrite list_lookup_insert_ne by lia. simpl.
    unfold cellAt. rewrite js_index_lookup by assumption. reflexivity.
Qed.

Lemma writeCell_same (b : Board) (r c v : Z) :
  cellAt b r c = Some v -> writeCell b r c v = b.
Proof.
  intros Hx. apply cellAt_Some_inv in Hx as (Hr & Hc & line & Hl & Hcell).
  rewrite (writeCell_lookup b r c v line) by assumption.
  rewrite (list_insert_id line) by assumption.
  apply list_insert_id, Hl.
Qed.

Lemma writeCell_twice (b : Board) (r c v w : Z) :
  is_Some (cellAt b r c) ->
  writeCell (writeCell b r c v) r c w = writeCell b r c w.
Proof.
  intros [x Hx]. apply cellAt_Some_inv in Hx as (Hr & Hc & line & Hl & Hcell).
  pose proof (lookup_lt_Some _ _ _ Hl) as HR.
  rewrite (writeCell_lookup b r c v line) by assumption.
  rewrite (writeCell_lookup _ r c w (<[Z.to_nat c := v]> line))
    by (assumption || (apply list_lookup_insert_eq; assumption)).
  rewrite list_insert_insert_eq, list_insert_insert_eq.
  symmetry. apply writeCell_lookup; assumption.
Qed.

Lemma writeCell_commute (b : Board) (r c v r' c' w : Z) :
  is_Some (cellAt b r c) -> is_Some (cellAt b r' c') ->
  (r, c) <> (r', c') ->
  writeCell (writeCell b r c v) r' c' w = writeCell (writeCell b r' c' w) r c v.
Proof.
  intros [x Hx] [x' Hx'] Hne.
  apply cellAt_Some_inv in Hx as (Hr & Hc & line & Hl & Hcell).
  apply cellAt_Some_inv in Hx' as (Hr' & Hc' & line' & Hl' & Hcell').
  pose proof (lookup_lt_Some _ _ _ Hl) as HR.
  pose proof (lookup_lt_Some _ _ _ Hl') as HR'.
  rewrite (writeCell_lookup b r c v line) by assumption.
  rewrite (writeCell_lookup b r' c' w line') by assumption.
  destruct (Z.eq_dec r r') as [<- | Hner].
  - assert (line' = line) by congruence. subst line'.
    assert (Hnec : c <> c') by (intros ->; apply Hne; reflexivity).
    rewrite (writeCell_lookup _ r c' w (<[Z.to_nat c := v]> line))
      by (assumption || (apply list_lookup_insert_eq; assumption)).
    rewrite (writeCell_lookup _ r c v (<[Z.to_nat c' := w]> line))
      by (assumption || (apply list_lookup_insert_eq; assumption)).
    rewrite !list_insert_insert_eq. f_equal.
    apply list_insert_insert_ne. lia.
  - rewrite (writeCell_lookup _ r' c' w line')
      by (assumption || (rewrite list_lookup_insert_ne by lia; assumption)).
    rewrite (writeCell_lookup _ r c v line)
      by (assumption || (rewrite list_lookup_insert_ne by lia; assumption)).
    apply list_insert_insert_ne. lia.
Qed.

End CellFacts.

(** X6.  When [swapPositions] exchanges two cells of a grid, the result
    holds each cell's value at the other position and every other cell
    as before; swapping the same two positions again gives the first grid
    back, and the order of the two positions does not matter. *)
Theorem swapPositions_exchange (b b' : Board) (pos1 pos2 : Position) :
  swapPositions b pos1 pos2 = Some b' ->
  cellAt b' (row pos1) (col pos1) = cellAt b (row pos2) (col pos2)
  /\ cellAt b' (row pos2) (col pos2) = cellAt b (row pos1) (col pos1)
  /\ (forall r c, (r, c) <> (row pos1, col pos1) ->
                  (r, c) <> (row pos2, col pos2) ->
                  cellAt b' r c = cellAt b r c)
  /\ swapPositions b' pos1 pos2 = Some b
  /\ swapPositions b pos2 pos1 = Some b'.
Proof.
  unfold swapPositions. rewrite !clone2DArray_id.
  destruct (cellAt b (row pos1) (col pos1)) as [v1|] eqn:E1; [|discriminate].
  destruct (cellAt b (row pos2) (col pos2)) as [v2|] eqn:E2; [|discriminate].
  intros H. inversion H; subst b'; clear H.
  assert (S1 : is_Some (cellAt b (row pos1) (col pos1))) by eauto.
  assert (S2 : is_Some (cellAt b (row pos2) (col pos2))) by eauto.
  assert (S2' : is_Some (cellAt (writeCell b (row pos1) (col pos1) v2)
                                (row pos2) (col pos2))).
  { rewrite cellAt_writeCell by assumption. destruct (_ && _); eauto. }
  set (same := (row pos1 =? row pos2) && (col pos1 =? col pos2)).
  assert (Hsame : same = true -> v1 = v2).
  { unfold same. intros Hs. apply andb_true_iff in Hs as [Hr Hc].
    apply Z.eqb_eq in Hr, Hc. rewrite Hr, Hc in E1. congruence. }
  assert (Hat1 : cellAt (writeCell (writeCell b (row pos1) (col pos1) v2)
                                   (row pos2) (col pos2) v1)
                        (row pos1) (col pos1) = Some v2).
  { rewrite !cellAt_writeCell by assumption.
    rewrite (Z.eqb_sym (row pos2)), (Z.eqb_sym (col pos2)). fold same.
    rewrite !Z.eqb_refl. simpl.
    destruct same eqn:Es; [rewrite Hsame by reflexivity|]; reflexivity. }
  assert (Hat2 : cellAt (writeCell (writeCell b (row pos1) (col pos1) v2)
                                   (row pos2) (col pos2) v1)
                        (row pos2) (col pos2) = Some v1).
  { rewrite cellAt_writeCell by assumption. rewrite !Z.eqb_refl. reflexivity. }
  split; [exact Hat1|]. split; [exact Hat2|]. split.
  { intros r c Hn1 Hn2. rewrite !cellAt_writeCell by assumption.
    replace ((row pos2 =? r) && (col pos2 =? c)) with false.
    2:{ symmetry. apply andb_false_iff.
        destruct (Z.eq_dec (row pos2) r) as [<-|]; [|left; apply Z.eqb_neq; assumption].
        right. apply Z.eqb_neq. intros <-. apply Hn2. reflexivity. }
    replace ((row pos1 =? r) && (col pos1 =? c)) with false; [reflexivity|].
    symmetry. apply andb_false_iff.
    destruct (Z.eq_dec (row pos1) r) as [<-|]; [|left; apply Z.eqb_neq; assumption].
    right. apply Z.eqb_neq. intros <-. apply Hn1. reflexivity. }
  destruct same eqn:Es.
  - specialize (Hsame eq_refl). subst v2.
    unfold same in Es. apply andb_true_iff in Es as [Hr Hc].
    apply Z.eqb_eq in Hr, Hc. rewrite Hat1, Hat2. rewrite <- Hr, <- Hc.
    rewrite !(writeCell_same b _ _ v1 E1). split; reflexivity.
  - assert (Hne : (row pos1, col pos1) <> (row pos2, col pos2)).
    { intros Heq. inversion Heq as [[Hr Hc]]. unfold same in Es.
      rewrite Hr, Hc, !Z.eqb_refl in Es. discriminate. }
    rewrite Hat1, Hat2. split.
    + f_equal.
      rewrite (writeCell_commute b _ _ v2 _ _ v1) by assumption.
      rewrite writeCell_twice.
      2:{ rewrite cellAt_writeCell by assumption.
          destruct ((row pos2 =? row pos1) && (col pos2 =? col pos1));
            [eexists; reflexivity | exact S1]. }
      rewrite (writeCell_commute b _ _ v1 _ _ v1)
        by (assumption || (intros Heq; apply Hne; symmetry; exact Heq)).
      rewrite (writeCell_same b _ _ v1 E1).
      rewrite writeCell_twice by assumption.
      apply writeCell_same. assumption.
    + f_equal. symmetry. apply writeCell_commute; assumption.
Qed.

Lemma swapPositions_exchange_witness :
  swapPositions [[1;2;3];[4;5;6];[7;0;8]] (mkPos 2 1) (mkPos 2 2)
  = Some [[1;2;3];[4;5;6];[7;8;0]]
  /\ swapPositions [[1;2;3];[4;5;6];[7;8;0]] (mkPos 2 1) (mkPos 2 2)
     = Some [[1;2;3];[4;5;6];[7;0;8]].
Proof.
  split; [vm_compute; reflexivity|].
  apply (swapPositions_exchange [[1;2;3];[4;5;6];[7;0;8]] _ (mkPos 2 1) (mkPos 2 2)).
  vm_compute; reflexivity.
Defined.

Section ArrayFacts.

Lemma cellsDiffer_false (row1 row2 : list Z) :
  length row1 = length row2 ->
  (cellsDiffer row1 row2 = false <-> row1 = row2).
Proof.
  revert row2. induction row1 as [|v1 rest1 IH]; intros [|v2 rest2] Hlen;
    simpl in *; try discriminate.
  - tauto.
  - rewrite orb_false_iff, negb_false_iff, Z.eqb_eq, IH by lia.
    split; [intros [-> ->]; reflexivity | intros H; inversion H; auto].
Qed.

Lemma arrays2DEqualLoop_true (arr1 arr2 : Board) :
  length arr1 = length arr2 ->
  (arrays2DEqualLoop arr1 arr2 = true <-> arr1 = arr2).
Proof.
  revert arr2. induction arr1 as [|row1 rest1 IH]; intros [|row2 rest2] Hlen;
    simpl in *; try discriminate.
  - tauto.
  - destruct (length row1 =? length row2)%nat eqn:El; simpl.
    + apply Nat.eqb_eq in El.
      destruct (cellsDiffer row1 row2) eqn:Ed.
      * split; [discriminate|]. intros H. inversion H; subst.
        assert (cellsDiffer row2 row2 = false) by (apply cellsDiffer_false; auto).
        congruence.
      * apply cellsDiffer_false in Ed; [|assumption]. subst row2.
        rewrite IH by lia.
        split; [intros ->; reflexivity | intros H; inversion H; auto].
    + apply Nat.eqb_neq in El. split; [discriminate|].
      intros H. inversion H; subst. contradiction.
Qed.

(** The loop of [arrayTo2D] with enough fuel. *)
Lemma arrayTo2DLoop_spec {A} (array1D : list A) (cols : nat) :
  (1 <= cols)%nat ->
  forall (fuel i : nat),
    (length array1D - i <= fuel)%nat ->
    exists chunks,
      arrayTo2DLoop fuel array1D cols i = Some chunks
      /\ concat chunks = drop i array1D
      /\ Forall (fun chunk => (1 <= length chunk <= cols)%nat) chunks
      /\ (forall fuel', (length array1D - i <= fuel')%nat ->
                        arrayTo2DLoop fuel' array1D cols i = Some chunks).
Proof.
  intros Hcols. induction fuel as [|fuel IH]; intros i Hfuel.
  - exists []. assert (Hge : (length array1D <= i)%nat) by lia.
    assert (Hnot : (i <? length array1D)%nat = false) by (apply Nat.ltb_ge; lia).
    split; [simpl; rewrite Hnot; reflexivity|].
    split; [rewrite drop_ge by lia; reflexivity|].
    split; [constructor|].
    intros fuel' _. destruct fuel'; simpl; rewrite Hnot; reflexivity.
  - destruct (i <? length array1D)%nat eqn:Ei.
    + apply Nat.ltb_lt in Ei.
      destruct (IH (i + cols)%nat ltac:(lia)) as (chunks & Hloop & Hcat & Hall & Hany).
      exists (js_slice array1D i (i + cols) :: chunks).
      assert (Hslice : js_slice array1D i (i + cols) = take cols (drop i array1D)).
      { unfold js_slice. f_equal. lia. }
      split; [simpl; rewrite (proj2 (Nat.ltb_lt _ _) Ei), Hloop; reflexivity|].
      split.
      { simpl. rewrite Hcat, Hslice.
        rewrite <- (take_drop cols (drop i array1D)) at 2.
        rewrite drop_drop. reflexivity. }
      split.
      { constructor; [|assumption].
        rewrite Hslice, length_take, length_drop. lia. }
      intros fuel' Hfuel'. destruct fuel' as [|fuel']; [lia|].
      simpl. rewrite (proj2 (Nat.ltb_lt _ _) Ei), Hany by lia. reflexivity.
    + exists []. apply Nat.ltb_ge in Ei.
      assert (Hnot : (i <? length array1D)%nat = false) by (apply Nat.ltb_ge; lia).
      split; [simpl; rewrite Hnot; reflexivity|].
      split; [rewrite drop_ge by lia; reflexivity|].
      split; [constructor|].
      intros fuel' _. destruct fuel'; simpl; rewrite Hnot; reflexivity.
Qed.

(** The loop of [arrayTo2D] on a flattened grid of width [cols]. *)
Lemma arrayTo2DLoop_concat (cols : nat) (b : Board) :
  (1 <= cols)%nat ->
  Forall (fun line => length line = cols) b ->
  forall (pre : Board) (fuel : nat),
    Forall (fun line => length line = cols) pre ->
    (length b <= fuel)%nat ->
    arrayTo2DLoop fuel (concat (pre ++ b)) cols (length pre * cols) = Some b.
Proof.
  intros Hcols Hall. induction Hall as [|line rest Hline Hrest IH];
    intros pre fuel Hpre Hfuel.
  - rewrite app_nil_r.
    assert (Hnot : (length pre * cols <? length (concat pre))%nat = false).
    { apply Nat.ltb_ge. rewrite (concat_length cols) by assumption. lia. }
    destruct fuel; simpl; rewrite Hnot; reflexivity.
  - destruct fuel as [|fuel]; [simpl in Hfuel; lia|].
    assert (Hlen : length (concat (pre ++ line :: rest))
                   = ((length pre + Datatypes.S (length rest)) * cols)%nat).
    { rewrite (concat_length cols).
      - rewrite List.length_app. reflexivity.
      - apply Forall_app. split; [assumption | constructor; assumption]. }
    simpl. replace (length pre * cols <? length (concat (pre ++ line :: rest)))%nat
      with true by (symmetry; apply Nat.ltb_lt; rewrite Hlen; nia).
    assert (Hslice : js_slice (concat (pre ++ line :: rest))
                              (length pre * cols) (length pre * cols + cols) = line).
    { unfold js_slice. rewrite concat_app.
      rewrite drop_app_length' by (rewrite (concat_length cols) by assumption; lia).
      simpl. replace (length pre * cols + cols - length pre * cols)%nat
        with (length line) by lia.
      apply take_app_length. }
    rewrite Hslice.
    replace (pre ++ line :: rest) with ((pre ++ [line]) ++ rest)
      by (rewrite <- app_assoc; reflexivity).
    replace (length pre * cols + cols)%nat with (length (pre ++ [line]) * cols)%nat
      by (rewrite List.length_app; simpl; lia).
    rewrite IH; [reflexivity | | simpl in Hfuel; lia].
    apply Forall_app. split; [assumption | constructor; [assumption | constructor]].
Qed.

End ArrayFacts.

(** X7.  [arrays2DEqual] answers true exactly when the two grids are the
    same: same number of rows, same row lengths, same cells. *)
Theorem arrays2DEqual_decides (arr1 arr2 : Board) :
  arrays2DEqual arr1 arr2 = true <-> arr1 = arr2.
Proof.
  unfold arrays2DEqual.
  destruct (length arr1 =? length arr2)%nat eqn:El; simpl.
  - apply Nat.eqb_eq in El. apply arrays2DEqualLoop_true, El.
  - apply Nat.eqb_neq in El. split; [discriminate|].
    intros ->. contradiction.
Qed.

(** X8.  With [cols >= 1], [arrayTo2D] returns (the loop ends, whatever
    fuel beyond the array length it is given): the chunks are non-empty,
    at most [cols] long, and flattening them gives the array back. *)
Theorem arrayTo2D_flatten (array1D : list Z) (cols : nat) :
  (1 <= cols)%nat ->
  exists chunks : Board,
    arrayTo2D array1D cols = Some chunks
    /\ flatten2DArray chunks = array1D
    /\ Forall (fun chunk => (1 <= length chunk <= cols)%nat) chunks
    /\ forall fuel, (length array1D <= fuel)%nat ->
                    arrayTo2DLoop fuel array1D cols 0 = Some chunks.
Proof.
  intros Hcols.
  destruct (arrayTo2DLoop_spec array1D cols Hcols (length array1D) 0 ltac:(lia))
    as (chunks & Hloop & Hcat & Hall & Hany).
  exists chunks. split; [exact Hloop|]. split; [exact Hcat|].
  split; [exact Hall|]. intros fuel Hfuel. apply Hany. lia.
Qed.

Lemma arrayTo2D_flatten_witness :
  exists chunks : Board,
    arrayTo2D [1;2;3;4;5;6;7] 3 = Some chunks
    /\ flatten2DArray chunks = [1;2;3;4;5;6;7]
    /\ Forall (fun chunk => (1 <= length chunk <= 3)%nat) chunks
    /\ forall fuel, (length [1;2;3;4;5;6;7] <= fuel)%nat ->
                    arrayTo2DLoop fuel [1;2;3;4;5;6;7] 3 0 = Some chunks.
Proof.
  apply (arrayTo2D_flatten [1;2;3;4;5;6;7] 3). lia.
Defined.

(** X9.  [arrayTo2D] undoes [flatten2DArray]: on a grid whose rows all
    have [cols >= 1] cells, [arrayTo2D(flatten2DArray(grid), cols)] is the
    grid. *)
Theorem arrayTo2D_of_flatten (grid : Board) (cols : nat) :
  (1 <= cols)%nat ->
  Forall (fun line => length line = cols) grid ->
  arrayTo2D (flatten2DArray grid) cols = Some grid.
Proof.
  intros Hcols Hall. unfold arrayTo2D, flatten2DArray.
  apply (arrayTo2DLoop_concat cols grid Hcols Hall [] _ ltac:(constructor)).
  rewrite (concat_length cols) by assumption. nia.
Qed.

Lemma arrayTo2D_of_flatten_witness :
  arrayTo2D (flatten2DArray scenarioB) 4 = Some scenarioB.
Proof.
  apply arrayTo2D_of_flatten; [lia | repeat constructor].
Defined.

(** X10.  With [cols = 0] on a non-empty array the loop of [arrayTo2D]
    never ends: no amount of fuel gives a result. *)
Theorem arrayTo2D_zero_cols (first : Z) (rest : list Z) (fuel : nat) :
  arrayTo2DLoop fuel (first :: rest) 0 0 = None.
Proof.
  induction fuel as [|fuel IH]; [reflexivity|].
  simpl in *. rewrite IH. reflexivity.
Qed.

Section SetValueFacts.

(** The width [getValueAt] and [setValueAt] compare the column with. *)
Lemma firstRow_insert (b : Board) (R : nat) (line line' : list Z) :
  b !! R = Some line -> length line' = length line ->
  match <[R := line']> b with [] => 0 | line0 :: _ => len line0 end
  = match b with [] => 0 | line0 :: _ => len line0 end.
Proof.
  intros Hl Hlen. destruct b as [|line0 rest]; [discriminate|].
  destruct R as [|R]; simpl in *; [|reflexivity].
  inversion Hl; subst. unfold len. rewrite Hlen. reflexivity.
Qed.

Lemma getValueAt_Some_inv (b : Board) (r c v : Z) :
  getValueAt b r c = Some v ->
  (0 <=? r) && (r <? len b) && (0 <=? c)
  && (c <? match b with [] => 0 | line0 :: _ => len line0 end) = true
  /\ cellAt b r c = Some v.
Proof.
  unfold getValueAt.
  destruct ((0 <=? r) && (r <? len b) && (0 <=? c)
            && (c <? match b with [] => 0 | line0 :: _ => len line0 end));
    [auto | discriminate].
Qed.

End SetValueFacts.

(** X11.  Where [getValueAt] finds a value, [setValueAt] returns a grid
    of the same shape in which [getValueAt] reads the new value at that
    position and the old values everywhere else. *)
Theorem setValueAt_getValueAt (puzzle : Board) (r c value : Z) :
  is_Some (getValueAt puzzle r c) ->
  exists newPuzzle,
    setValueAt puzzle r c value = Some newPuzzle
    /\ getValueAt newPuzzle r c = Some value
    /\ (forall r' c', (r', c') <> (r, c) ->
                      getValueAt newPuzzle r' c' = getValueAt puzzle r' c')
    /\ length newPuzzle = length puzzle.
Proof.
  intros [old Hold]. apply getValueAt_Some_inv in Hold as [Hguard Hcell].
  pose proof Hcell as Hc0.
  apply cellAt_Some_inv in Hc0 as (Hr & Hc & line & Hl & Hat).
  pose proof (lookup_lt_Some _ _ _ Hat) as HC.
  exists (writeCell puzzle r c value).
  assert (Hset : setValueAt puzzle r c value = Some (writeCell puzzle r c value)).
  { unfold setValueAt. rewrite Hguard, clone2DArray_id.
    rewrite js_index_lookup, Hl by assumption.
    unfold js_write. rewrite (proj2 (Nat.ltb_lt _ _) HC).
    rewrite (writeCell_lookup puzzle r c value line) by assumption. reflexivity. }
  assert (Hshape : length (writeCell puzzle r c value) = length puzzle).
  { rewrite (writeCell_lookup puzzle r c value line) by assumption.
    apply length_insert. }
  assert (Hget : forall r' c',
             getValueAt (writeCell puzzle r c value) r' c'
             = if (0 <=? r') && (r' <? len puzzle) && (0 <=? c')
                  && (c' <? match puzzle with [] => 0 | line0 :: _ => len line0 end)
               then (if (r =? r') && (c =? c') then Some value
                     else cellAt puzzle r' c')
               else None).
  { intros r' c'. unfold getValueAt, len. rewrite Hshape.
    rewrite (writeCell_lookup puzzle r c value line) at 1 by assumption.
    rewrite (firstRow_insert puzzle _ line) by (assumption || apply length_insert).
    rewrite cellAt_writeCell by eauto. reflexivity. }
  split; [exact Hset|]. split.
  - rewrite Hget, Hguard, !Z.eqb_refl. reflexivity.
  - split; [|exact Hshape].
    intros r' c' Hne. rewrite Hget. unfold getValueAt.
    destruct ((0 <=? r') && (r' <? len puzzle) && (0 <=? c')
              && (c' <? match puzzle with [] => 0 | line0 :: _ => len line0 end));
      [|reflexivity].
    replace ((r =? r') && (c =? c')) with false; [reflexivity|].
    symmetry. apply andb_false_iff.
    destruct (Z.eq_dec r r') as [<-|]; [|left; apply Z.eqb_neq; assumption].
    right. apply Z.eqb_neq. intros <-. apply Hne. reflexivity.
Qed.

Lemma setValueAt_getValueAt_witness :
  exists newPuzzle,
    setValueAt scenarioA 1 2 9 = Some newPuzzle
    /\ getValueAt newPuzzle 1 2 = Some 9
    /\ (forall r' c', (r', c') <> (1, 2) ->
                      getValueAt newPuzzle r' c' = getValueAt scenarioA r' c')
    /\ length newPuzzle = length scenarioA.
Proof.
  apply (setValueAt_getValueAt scenarioA 1 2 9).
  vm_compute. eexists; reflexivity.
Defined.

(** Outside the bounds its guard checks (row outside the grid, column
    negative or not below the length of the first row), [setValueAt]
    returns the grid unchanged and [getValueAt] returns null. *)
Lemma setValueAt_out_of_bounds (puzzle : Board) (r c value : Z) :
  (0 <=? r) && (r <? len puzzle) && (0 <=? c)
  && (c <? match puzzle with [] => 0 | line0 :: _ => len line0 end) = false ->
  setValueAt puzzle r c value = Some puzzle
  /\ getValueAt puzzle r c = None.
Proof.
  intros Hguard. unfold setValueAt, getValueAt.
  rewrite Hguard, clone2DArray_id. split; reflexivity.
Qed.

Section ShuffleFacts.

Context {A : Type}.
Variable random : nat -> Q.
Hypothesis random_range : forall i, (0 <= random i)%Q /\ (random i < 1)%Q.

(** Every iteration of the Fisher-Yates loop exchanges two entries. *)
Lemma shuffleArrayLoop_perm (i : nat) :
  forall (k : nat) (shuffled : list A),
    (i < length shuffled)%nat \/ i = 0%nat ->
    exists result,
      shuffleArrayLoop random k i shuffled = Some result
      /\ Permutation shuffled result.
Proof.
  induction i as [|i IH]; intros k shuffled Hi.
  - exists shuffled. split; reflexivity.
  - destruct Hi as [Hi | Hi]; [|discriminate].
    cbn [shuffleArrayLoop].
    destruct (random_range k) as [H0 H1].
    pose proof (randomIndex_bounds (random k) (Datatypes.S i + 1) H0 H1 ltac:(lia))
      as Hj.
    set (j := randomIndex (random k) (Datatypes.S i + 1)) in *.
    rewrite js_index_lookup by lia.
    destruct (lookup_lt_is_Some_2 shuffled (Z.to_nat j) ltac:(lia)) as [atJ EJ].
    destruct (lookup_lt_is_Some_2 shuffled (Datatypes.S i) Hi) as [atI EI].
    rewrite EJ, EI.
    destruct (IH (Datatypes.S k)
                 (<[Z.to_nat j := atI]> (<[Datatypes.S i := atJ]> shuffled)))
      as (result & Hloop & Hperm).
    { left. rewrite !length_insert. lia. }
    exists result. split; [exact Hloop|].
    etransitivity; [|exact Hperm].
    apply swap_entries_perm; assumption.
Qed.

End ShuffleFacts.

(** X12.  For draws of [Math.random()] in [0,1), [shuffleArray] returns a
    rearrangement of its argument: the same elements, each as often as
    before. *)
Theorem shuffleArray_permutation (random : nat -> Q) (array : list Z) :
  (forall i, (0 <= random i)%Q /\ (random i < 1)%Q) ->
  exists shuffled,
    shuffleArray random array = Some shuffled
    /\ Permutation array shuffled
    /\ length shuffled = length array.
Proof.
  intros Hrandom. unfold shuffleArray. rewrite map_id.
  destruct (shuffleArrayLoop_perm random Hrandom (length array - 1) 0 array)
    as (result & Hloop & Hperm).
  { destruct array; [right; reflexivity | left; simpl; lia]. }
  exists result. split; [exact Hloop|]. split; [exact Hperm|].
  symmetry. apply Permutation_length, Hperm.
Qed.

Lemma shuffleArray_permutation_witness :
  exists shuffled,
    shuffleArray (fun i => if Nat.even i then 1 # 2 else 9 # 10)%Q [1;2;3;4;5]
    = Some shuffled
    /\ Permutation [1;2;3;4;5] shuffled
    /\ length shuffled = length [1;2;3;4;5].
Proof.
  apply shuffleArray_permutation.
  intros i. destruct (Nat.even i); split; vm_compute; congruence.
Defined.

(* ===================================================================== *)
(** * Adjacency, the validator and the move operation *)
(* ===================================================================== *)

Section AdjacencyFacts.

Lemma areAdjacent_slides (e t : Position) :
  areAdjacent t e = true <-> slides e t.
Proof.
  unfold areAdjacent, slides.
  rewrite orb_true_iff, !andb_true_iff, !Z.eqb_eq. lia.
Qed.

Lemma areAdjacent_sym (p q : Position) : areAdjacent p q = areAdjacent q p.
Proof.
  unfold areAdjacent.
  replace (row q - row p) with (- (row p - row q)) by lia.
  replace (col q - col p) with (- (col p - col q)) by lia.
  rewrite !Z.abs_opp. reflexivity.
Qed.

Lemma getAdjacentPositions_iff (r c size' : Z) (pos : Position) :
  In pos (getAdjacentPositions r c size')
  <-> isValidBoardPosition (row pos) (col pos) size' = true
      /\ areAdjacent pos (mkPos r c) = true.
Proof.
  unfold getAdjacentPositions, isValidBoardPosition.
  rewrite in_flat_map. split.
  - intros (d & Hd & Hin).
    destruct ((0 <=? r + y d) && (r + y d <? size')
              && (0 <=? c + x d) && (c + x d <? size')) eqn:E; [|contradiction].
    destruct Hin as [<- | []]. simpl. split; [exact E|].
    apply areAdjacent_slides. unfold slides. simpl.
    destruct Hd as [<- | [<- | [<- | [<- | []]]]]; simpl; lia.
  - intros [Hv Hadj]. apply areAdjacent_slides in Hadj.
    unfold slides in Hadj. simpl in Hadj.
    destruct pos as [pr pc]. simpl in *.
    assert (Hd : exists d, In d MECHANICS.DIRECTIONS
                           /\ pr = r + y d /\ pc = c + x d).
    { destruct Hadj as [[-> [-> | ->]] | [-> [-> | ->]]].
      - exists MECHANICS.RIGHT. simpl. split; [tauto | lia].
      - exists MECHANICS.LEFT. simpl. split; [tauto | lia].
      - exists MECHANICS.DOWN. simpl. split; [tauto | lia].
      - exists MECHANICS.UP. simpl. split; [tauto | lia]. }
    destruct Hd as (d & Hd & -> & ->). exists d. split; [exact Hd|].
    rewrite Hv. left. reflexivity.
Qed.

Lemma getAdjacentPositions_NoDup (r c size' : Z) :
  List.NoDup (getAdjacentPositions r c size')
  /\ (length (getAdjacentPositions r c size') <= 4)%nat.
Proof.
  unfold getAdjacentPositions, MECHANICS.DIRECTIONS. simpl.
  repeat match goal with
         | |- context [if ?b then _ else _] => destruct b
         end; simpl;
    (split; [|lia]);
    repeat (constructor; [simpl; intros H;
                          repeat (destruct H as [H|H];
                                  [inversion H; lia|]); exact H|]);
    constructor.
Qed.

End AdjacencyFacts.

(** X13.  [getAdjacentPositions(row, col, size)] lists exactly the
    in-bounds positions that [areAdjacent] accepts as neighbours of
    (row, col): each once, at most four of them. *)
Theorem getAdjacentPositions_areAdjacent (r c size' : Z) :
  (forall pos : Position,
      In pos (getAdjacentPositions r c size')
      <-> isValidBoardPosition (row pos) (col pos) size' = true
          /\ areAdjacent pos (mkPos r c) = true)
  /\ List.NoDup (getAdjacentPositions r c size')
  /\ (length (getAdjacentPositions r c size') <= 4)%nat.
Proof.
  split; [intros pos; apply getAdjacentPositions_iff|].
  apply getAdjacentPositions_NoDup.
Qed.

Section ValidatorFacts.

Variable S : nat.
Variable b : Board.
Hypothesis wf : wellFormedBoard S b.

Lemma getValueAt_cellAt (r c : Z) :
  isValidBoardPosition r c (len b) = true -> getValueAt b r c = cellAt b r c.
Proof.
  destruct wf as [[Hlen Hall] _]. unfold isValidBoardPosition, getValueAt.
  intros Hv.
  assert (Hfirst : match b with [] => 0 | line0 :: _ => len line0 end = len b).
  { destruct b as [|line0 rest]; [reflexivity|].
    inversion Hall as [|? ? Hline0 _]; subst. unfold len. rewrite Hline0.
    reflexivity. }
  rewrite Hfirst, Hv. reflexivity.
Qed.

Lemma valid_position_inGrid (r c : Z) :
  isValidBoardPosition r c (len b) = true <-> inGrid S (mkPos r c).
Proof.
  destruct wf as [[Hlen _] _]. unfold isValidBoardPosition, inGrid, len.
  rewrite Hlen, !andb_true_iff, !Z.leb_le, !Z.ltb_lt. simpl. lia.
Qed.

(** The position [findEmptyPosition] returns is a cell of the grid
    that holds 0. *)
Lemma findEmptyPosition_cell (e : Position) :
  findEmptyPosition b = Some e ->
  inGrid S e /\ cellAt b (row e) (col e) = Some 0.
Proof.
  intros He. apply findPosition_bounds in He as [_ Hcell].
  split; [|exact Hcell].
  destruct wf as [Hsq _]. destruct e as [er ec].
  eapply cellAt_inGrid; eassumption.
Qed.

(** When [validateTileMove] accepts. *)
Lemma validateTileMove_valid (r c : Z) :
  valid (validateTileMove b r c) = true
  <-> isValidBoardPosition r c (len b) = true
      /\ exists e, findEmptyPosition b = Some e
                   /\ areAdjacent (mkPos r c) e = true.
Proof.
  unfold validateTileMove.
  destruct (isValidBoardPosition r c (len b)) eqn:Ev; cbn [negb].
  2:{ simpl. split; [discriminate | intros [H _]; discriminate]. }
  rewrite getValueAt_cellAt by assumption.
  pose proof (proj1 (valid_position_inGrid r c) Ev) as Hin.
  destruct (bool_decide (cellAt b r c = Some MECHANICS.EMPTY_TILE)) eqn:E0.
  - apply bool_decide_eq_true_1 in E0. simpl.
    split; [discriminate|]. intros [_ (e & He & Hadj)].
    destruct wf as [Hsq Hnd].
    unfold findEmptyPosition in He.
    rewrite (findPosition_unique S b (mkPos r c) MECHANICS.EMPTY_TILE
               Hsq Hnd Hin E0) in He.
    inversion He; subst e. rewrite areAdjacent_same in Hadj. discriminate.
  - destruct (findEmptyPosition b) as [e|] eqn:He.
    2:{ simpl. split; [discriminate | intros [_ (e & H & _)]; discriminate]. }
    destruct (areAdjacent (mkPos r c) e) eqn:Hadj; simpl.
    + split; [intros _ | reflexivity]. split; [reflexivity|]. eauto.
    + split; [discriminate|]. intros [_ (e' & H & Hadj')].
      inversion H; subst e'. congruence.
Qed.

End ValidatorFacts.

(** X14.  On a well-formed board, [validateTileMove] accepts a position
    exactly when [getValidMoves] lists it; each listed move carries the
    value of its cell, which is never the empty value. *)
Theorem validateTileMove_getValidMoves (S : nat) (b : Board) (r c : Z) :
  wellFormedBoard S b ->
  (valid (validateTileMove b r c) = true
   <-> exists m, In m (getValidMoves b) /\ vm_row m = r /\ vm_col m = c)
  /\ (forall m, In m (getValidMoves b) ->
                vm_tileValue m = cellAt b (vm_row m) (vm_col m)
                /\ vm_tileValue m <> Some MECHANICS.EMPTY_TILE
                /\ valid (validateTileMove b (vm_row m) (vm_col m)) = true).
Proof.
  intros Hwf.
  assert (Hmoves : forall m, In m (getValidMoves b) <->
            exists e d, findEmptyPosition b = Some e
                        /\ In d MECHANICS.DIRECTIONS
                        /\ isValidBoardPosition (row e + y d) (col e + x d) (len b) = true
                        /\ m = mkValidMove (row e + y d) (col e + x d)
                                 (getValueAt b (row e + y d) (col e + x d)) (name d)).
  { intros m. unfold getValidMoves.
    destruct (findEmptyPosition b) as [e|].
    - rewrite in_flat_map. split.
      + intros (d & Hd & Hin).
        destruct (isValidBoardPosition _ _ _) eqn:Ev; [|contradiction].
        destruct Hin as [<- | []]. exists e, d. auto.
      + intros (e' & d & He & Hd & Hv & ->). inversion He; subst e'.
        exists d. split; [exact Hd|]. rewrite Hv. left. reflexivity.
    - split; [contradiction | intros (e & d & H & _); discriminate]. }
  assert (Hdir : forall (e : Position) (d : Direction), In d MECHANICS.DIRECTIONS ->
            areAdjacent (mkPos (row e + y d) (col e + x d)) e = true).
  { intros e d Hd. apply areAdjacent_slides. unfold slides. simpl.
    destruct Hd as [<- | [<- | [<- | [<- | []]]]]; simpl; lia. }
  split.
  - rewrite (validateTileMove_valid S b Hwf). split.
    + intros [Hv (e & He & Hadj)].
      assert (Hin : In (mkPos r c) (getAdjacentPositions (row e) (col e) (len b))).
      { apply getAdjacentPositions_iff. simpl. split; [exact Hv|].
        destruct e; exact Hadj. }
      unfold getAdjacentPositions in Hin. apply in_flat_map in Hin as (d & Hd & Hin).
      destruct ((0 <=? row e + y d) && (row e + y d <? len b)
                && (0 <=? col e + x d) && (col e + x d <? len b)) eqn:E;
        [|contradiction].
      destruct Hin as [Heq | []]. inversion Heq; subst r c.
      eexists. split; [apply Hmoves; exists e, d; eauto|]. simpl. auto.
    + intros (m & Hm & <- & <-). apply Hmoves in Hm as (e & d & He & Hd & Hv & ->).
      simpl. split; [exact Hv|]. exists e. split; [exact He | apply Hdir, Hd].
  - intros m Hm. apply Hmoves in Hm as (e & d & He & Hd & Hv & ->). simpl.
    rewrite (getValueAt_cellAt S b Hwf) by assumption.
    assert (Hvalid : valid (validateTileMove b (row e + y d) (col e + x d)) = true).
    { apply (validateTileMove_valid S b Hwf). split; [exact Hv|].
      exists e. split; [exact He | apply Hdir, Hd]. }
    split; [reflexivity|]. split; [|exact Hvalid].
    intros H0. destruct Hwf as [Hsq Hnd].
    pose proof (proj1 (valid_position_inGrid S b (conj Hsq Hnd) _ _) Hv) as Hin.
    unfold findEmptyPosition in He.
    rewrite (findPosition_unique S b _ MECHANICS.EMPTY_TILE Hsq Hnd Hin H0) in He.
    inversion He as [Heq]. specialize (Hdir e d Hd).
    rewrite Heq, areAdjacent_same in Hdir. discriminate.
Qed.

Lemma validateTileMove_getValidMoves_witness :
  (valid (validateTileMove scenarioA 2 2) = true
   <-> exists m, In m (getValidMoves scenarioA) /\ vm_row m = 2 /\ vm_col m = 2)
  /\ (forall m, In m (getValidMoves scenarioA) ->
                vm_tileValue m = cellAt scenarioA (vm_row m) (vm_col m)
                /\ vm_tileValue m <> Some MECHANICS.EMPTY_TILE
                /\ valid (validateTileMove scenarioA (vm_row m) (vm_col m)) = true).
Proof.
  apply (validateTileMove_getValidMoves 3 scenarioA 2 2).
  split; [split; [reflexivity | repeat constructor]|].
  apply (bool_decide_unpack _). vm_compute. exact I.
Defined.

(* ===================================================================== *)
(** * [moveTile] on a well-formed board *)
(* ===================================================================== *)

Section MoveFacts.

Lemma swapPositions_sym (b : Board) (p1 p2 : Position) :
  swapPositions b p1 p2 = swapPositions b p2 p1.
Proof.
  unfold swapPositions. rewrite !clone2DArray_id.
  destruct (cellAt b (row p1) (col p1)) as [v1|] eqn:E1;
    destruct (cellAt b (row p2) (col p2)) as [v2|] eqn:E2; try reflexivity.
  f_equal.
  destruct (decide ((row p1, col p1) = (row p2, col p2))) as [Heq|Hne].
  - inversion Heq as [[Hr Hc]]. rewrite Hr, Hc in E1.
    assert (v1 = v2) by congruence. subst v2. rewrite Hr, Hc. reflexivity.
  - apply writeCell_commute; eauto.
Qed.

Lemma swapPositions_cells (b b' : Board) (p1 p2 : Position) :
  swapPositions b p1 p2 = Some b' ->
  cellAt b' (row p1) (col p1) = cellAt b (row p2) (col p2)
  /\ cellAt b' (row p2) (col p2) = cellAt b (row p1) (col p1).
Proof.
  unfold swapPositions. rewrite !clone2DArray_id.
  destruct (cellAt b (row p1) (col p1)) as [v1|] eqn:E1; [|discriminate].
  destruct (cellAt b (row p2) (col p2)) as [v2|] eqn:E2; [|discriminate].
  intros H. inversion H; subst b'; clear H.
  assert (S1 : is_Some (cellAt b (row p1) (col p1))) by eauto.
  assert (S2 : is_Some (cellAt b (row p2) (col p2))) by eauto.
  assert (S2' : is_Some (cellAt (writeCell b (row p1) (col p1) v2)
                                (row p2) (col p2))).
  { rewrite cellAt_writeCell by assumption. destruct (_ && _); eauto. }
  split.
  - rewrite !cellAt_writeCell by assumption. rewrite !Z.eqb_refl. simpl.
    destruct ((row p2 =? row p1) && (col p2 =? col p1)) eqn:Es; [|reflexivity].
    apply andb_true_iff in Es as [Hr Hc]. apply Z.eqb_eq in Hr, Hc.
    rewrite Hr, Hc in E2. congruence.
  - rewrite cellAt_writeCell by assumption. rewrite !Z.eqb_refl. reflexivity.
Qed.

Lemma bounds_test (r c s : Z) :
  (r <? 0) || (r >=? s) || (c <? 0) || (c >=? s)
  = negb (isValidBoardPosition r c s).
Proof.
  unfold isValidBoardPosition. rewrite !Z.geb_leb.
  destruct (Z.ltb_spec r 0), (Z.leb_spec s r), (Z.ltb_spec c 0),
    (Z.leb_spec s c), (Z.leb_spec 0 r), (Z.ltb_spec r s),
    (Z.leb_spec 0 c), (Z.ltb_spec c s); simpl; try reflexivity; lia.
Qed.

Lemma startTimer_frame (p : Puzzle) (t : Z) :
  currentState (startTimer p t) = currentState p
  /\ size (startTimer p t) = size p
  /\ moveCount (startTimer p t) = moveCount p
  /\ moveHistory (startTimer p t) = moveHistory p
  /\ initialState (startTimer p t) = initialState p
  /\ solvedState (startTimer p t) = solvedState p
  /\ isComplete (startTimer p t) = isComplete p
  /\ maxMoves (startTimer p t) = maxMoves p.
Proof. unfold startTimer. destruct (startTime p); simpl; auto 10. Qed.

(** What an accepted move did to the board. *)
Lemma moveTile_true_board (p p1 : Puzzle) (tStart tMove tEnd r c : Z) :
  moveTile p tStart tMove tEnd r c = (Returns true, p1) ->
  exists e,
    findEmptyPosition (currentState p) = Some e
    /\ isValidBoardPosition r c (Z.of_nat (size p)) = true
    /\ areAdjacent (mkPos r c) e = true
    /\ swapPositions (currentState p) (mkPos r c) e = Some (currentState p1)
    /\ size p1 = size p.
Proof.
  unfold moveTile. destruct (isComplete p) eqn:Hc; [discriminate|].
  fold (startTimer p tStart).
  destruct (startTimer_frame p tStart) as (Hcur & Hsz & _).
  set (p' := startTimer p tStart) in *. clearbody p'.
  rewrite bounds_test, Hsz, Hcur.
  destruct (isValidBoardPosition r c (Z.of_nat (size p))) eqn:Ev; [|discriminate].
  cbn [negb].
  destruct (findEmptyPosition (currentState p)) as [e|]; [|discriminate].
  destruct (areAdjacent (mkPos r c) e) eqn:Hadj; [|discriminate]. cbn [negb].
  unfold _executeMove. rewrite Hcur.
  destruct (swapPositions (currentState p) (mkPos r c) e) as [swapped|] eqn:Hswap;
    [|discriminate].
  cbn [set_currentState set_moveCount set_moveHistory emit currentState
       moveCount maxMoves moveHistory].
  intros H. exists e.
  split; [reflexivity|]. split; [reflexivity|]. split; [exact Hadj|].
  rewrite Hswap.
  destruct (isPuzzleSolved swapped);
    [|destruct (_ >=? _)]; inversion H; subst p1; simpl; rewrite ?Hsz;
      split; reflexivity.
Qed.

End MoveFacts.

(** [moveTile] and the validator give the same verdict. *)
Lemma moveTile_validator
        (p : Puzzle) (tStart tMove tEnd r c : Z) :
  wellFormedBoard (size p) (currentState p) ->
  isComplete p = false ->
  is_Some (findEmptyPosition (currentState p)) ->
  (moveTile p tStart tMove tEnd r c).1
  = Returns (valid (validateTileMove (currentState p) r c)).
Proof.
  intros Hwf Hrun [e He].
  pose proof (validateTileMove_valid (size p) (currentState p) Hwf r c) as Hval.
  assert (Hlen : len (currentState p) = Z.of_nat (size p)).
  { destruct Hwf as [[Hlen _] _]. unfold len. rewrite Hlen. reflexivity. }
  rewrite Hlen in Hval.
  unfold moveTile. rewrite Hrun. fold (startTimer p tStart).
  destruct (startTimer_frame p tStart) as (Hcur & Hsz & _).
  set (p' := startTimer p tStart) in *.
  rewrite bounds_test, Hsz, Hcur, He.
  destruct (isValidBoardPosition r c (Z.of_nat (size p))) eqn:Ev; cbn [negb].
  2:{ simpl. f_equal. symmetry. apply not_true_is_false. intros V.
      apply Hval in V as [V _]. discriminate. }
  destruct (areAdjacent (mkPos r c) e) eqn:Hadj; cbn [negb].
  - rewrite (proj2 Hval) by eauto.
    unfold _executeMove. rewrite Hcur.
    destruct Hwf as [Hsq Hnd].
    assert (Hin1 : inGrid (size p) (mkPos r c)).
    { apply (valid_position_inGrid (size p) (currentState p) (conj Hsq Hnd)).
      rewrite Hlen. exact Ev. }
    destruct (findEmptyPosition_cell (size p) (currentState p) (conj Hsq Hnd) e He)
      as [Hin2 _].
    destruct (swapPositions_flat (size p) (currentState p) (mkPos r c) e Hsq Hin1 Hin2)
      as (v1 & v2 & b' & _ & _ & Hswap & _).
    rewrite Hswap.
    cbn [set_currentState set_moveCount set_moveHistory emit currentState
         moveCount maxMoves moveHistory].
    destruct (isPuzzleSolved b'); [reflexivity|].
    destruct (_ >=? _); reflexivity.
  - simpl. f_equal. symmetry. apply not_true_is_false. intros V.
    apply Hval in V as [_ (e' & He' & Hadj')]. congruence.
Qed.

(** X15.  On a running session whose board is well-formed and has an
    empty cell, [moveTile(row, col)] returns exactly the verdict of
    [validateTileMove] on the current board, although it never calls
    the validator. *)
Theorem moveTile_agrees_with_validateTileMove
        (p : Puzzle) (tStart tMove tEnd r c : Z) :
  wellFormedBoard (size p) (currentState p) ->
  isComplete p = false ->
  is_Some (findEmptyPosition (currentState p)) ->
  (moveTile p tStart tMove tEnd r c).1
  = Returns (valid (validateTileMove (currentState p) r c)).
Proof. apply moveTile_validator. Qed.

Lemma moveTile_agrees_with_validateTileMove_witness :
  (moveTile (sessionFrom scenarioA 10) 1 2 3 2 2).1
  = Returns (valid (validateTileMove (currentState (sessionFrom scenarioA 10)) 2 2)).
Proof.
  apply (moveTile_agrees_with_validateTileMove (sessionFrom scenarioA 10) 1 2 3 2 2).
  - split; [split; [reflexivity | repeat constructor]|].
    apply (bool_decide_unpack _). vm_compute. exact I.
  - vm_compute. reflexivity.
  - exists (mkPos 2 1). vm_compute. reflexivity.
Defined.

(** X16.  A move that [moveTile] accepts on a well-formed board leaves a
    well-formed board of the same size holding the same values, with the
    empty cell at the selected position, the selected tile where the
    empty cell was, and the verdict of [isPuzzleSolvable] unchanged. *)
Theorem moveTile_preserves_board
        (p p1 : Puzzle) (tStart tMove tEnd r c : Z) :
  wellFormedBoard (size p) (currentState p) ->
  moveTile p tStart tMove tEnd r c = (Returns true, p1) ->
  size p1 = size p
  /\ wellFormedBoard (size p1) (currentState p1)
  /\ Permutation (concat (currentState p)) (concat (currentState p1))
  /\ findEmptyPosition (currentState p1) = Some (mkPos r c)
  /\ (exists e, findEmptyPosition (currentState p) = Some e
                /\ cellAt (currentState p1) (row e) (col e)
                   = cellAt (currentState p) r c)
  /\ isPuzzleSolvable (currentState p1) = isPuzzleSolvable (currentState p).
Proof.
  intros Hwf Hmove.
  apply moveTile_true_board in Hmove as (e & He & Hv & Hadj & Hswap & Hsz).
  pose proof Hwf as [Hsq Hnd].
  assert (Hlen : len (currentState p) = Z.of_nat (size p)).
  { destruct Hsq as [Hlen _]. unfold len. rewrite Hlen. reflexivity. }
  assert (Hin1 : inGrid (size p) (mkPos r c)).
  { apply (valid_position_inGrid (size p) (currentState p) Hwf).
    rewrite Hlen. exact Hv. }
  destruct (findEmptyPosition_cell (size p) (currentState p) Hwf e He)
    as [Hin2 Hcell].
  destruct (slide_step (size p) (currentState p) e (mkPos r c) Hsq Hnd Hin2 Hin1 Hcell)
    as (b' & Hswap' & Hsq' & Hnd' & Hcell' & Hsolv).
  { apply areAdjacent_slides. exact Hadj. }
  rewrite swapPositions_sym, Hswap in Hswap'. inversion Hswap'; subst b'.
  rewrite Hsz. split; [reflexivity|]. split; [split; assumption|].
  split.
  { eapply swapPositions_perm; [exact Hsq | exact Hin1 | exact Hin2 | exact Hswap]. }
  split.
  { apply (findPosition_unique (size p)); assumption. }
  split; [|exact Hsolv].
  exists e. split; [exact He|].
  apply swapPositions_cells in Hswap as [_ Hat]. exact Hat.
Qed.

Lemma moveTile_preserves_board_witness :
  let p := sessionFrom scenarioA 10 in
  let p1 := (moveTile p 1 2 3 2 2).2 in
  size p1 = size p
  /\ wellFormedBoard (size p1) (currentState p1)
  /\ Permutation (concat (currentState p)) (concat (currentState p1))
  /\ findEmptyPosition (currentState p1) = Some (mkPos 2 2)
  /\ (exists e, findEmptyPosition (currentState p) = Some e
                /\ cellAt (currentState p1) (row e) (col e)
                   = cellAt (currentState p) 2 2)
  /\ isPuzzleSolvable (currentState p1) = isPuzzleSolvable (currentState p).
Proof.
  cbv zeta.
  apply (moveTile_preserves_board (sessionFrom scenarioA 10) _ 1 2 3 2 2).
  - split; [split; [reflexivity | repeat constructor]|].
    apply (bool_decide_unpack _). vm_compute. exact I.
  - vm_compute. reflexivity.
Defined.

(* ===================================================================== *)
(** * Invariants of a session *)
(* ===================================================================== *)

Section SessionFacts.

Lemma historyChain_snoc (start final : Board) (history : list MoveData)
      (m : MoveData) :
  historyChain start (history ++ [m]) final
  <-> historyChain start history (previousState m) /\ md_currentState m = final.
Proof.
  revert start. induction history as [|m0 rest IH]; intros start; simpl.
  - split; [intros [H1 H2] | intros [H1 H2]]; auto.
  - rewrite IH. tauto.
Qed.

Lemma numbered_snoc (history : list MoveData) (m : MoveData) :
  numbered history ->
  moveNumber m = Z.of_nat (length history) + 1 ->
  numbered (history ++ [m]).
Proof.
  intros Hn Hm k m' Hk.
  destruct (decide (k < length history)%nat) as [Hlt|Hge].
  - rewrite lookup_app_l in Hk by assumption. apply Hn, Hk.
  - rewrite lookup_app_r in Hk by lia.
    destruct (k - length history)%nat as [|j] eqn:Ej; [|destruct j; discriminate].
    inversion Hk; subst m'. rewrite Hm. f_equal. lia.
Qed.

Lemma numbered_front (history : list MoveData) (m : MoveData) :
  numbered (history ++ [m]) -> numbered history.
Proof.
  intros Hn k m' Hk. apply Hn. apply lookup_app_l_Some. exact Hk.
Qed.

Lemma js_pop_Some {A} (arr rest : list A) (lastItem : A) :
  js_pop arr = Some (lastItem, rest) -> arr = rest ++ [lastItem].
Proof.
  unfold js_pop. destruct (rev arr) as [|x front] eqn:E; [discriminate|].
  intros H. inversion H; subst. rewrite <- (rev_involutive arr), E. reflexivity.
Qed.

Lemma js_pop_nonempty {A} (arr : list A) :
  arr <> [] -> exists lastItem rest, js_pop arr = Some (lastItem, rest).
Proof.
  intros Hne. unfold js_pop. destruct (rev arr) as [|x front] eqn:E; [|eauto].
  exfalso. apply Hne. rewrite <- (rev_involutive arr), E. reflexivity.
Qed.

Lemma newPuzzle_invariant (size' : nat) : sessionInvariant (newPuzzle size').
Proof.
  constructor; simpl; try reflexivity; try discriminate.
  intros [[x Hx] | H]; [discriminate | contradiction].
Qed.

(** The sessions [generatePuzzle], [setPuzzleState] and [reset] leave:
    progress cleared, the initial board a copy of the current one. *)
Lemma cleared_invariant (p : Puzzle) :
  moveHistory p = [] -> moveCount p = 0 -> isComplete p = false ->
  endTime p = None -> initialState p = currentState p ->
  solvedState p = createSolvedPuzzle (size p) ->
  sessionInvariant p.
Proof.
  intros Hh Hc Hcompl He Hi Hs.
  constructor; rewrite ?Hh, ?Hc, ?Hcompl, ?He; simpl;
    try reflexivity; try discriminate; try assumption.
  intros [[x Hx] | H]; [discriminate | contradiction].
Qed.

Lemma generatePuzzle_invariant (p : Puzzle) random shuffleMoves maxMoves' :
  sessionInvariant p ->
  sessionInvariant (generatePuzzle p random shuffleMoves maxMoves').2.
Proof.
  intros Hinv. unfold generatePuzzle.
  cbn [size set_maxMoves].
  destruct (generateSolvablePuzzle (size p) shuffleMoves random) as [b| |];
    cbn [snd].
  - apply cleared_invariant; simpl; try reflexivity.
    + apply clone2DArray_id.
    + apply Hinv.
  - destruct Hinv. constructor; assumption.
  - destruct Hinv. constructor; assumption.
Qed.

Lemma setPuzzleState_invariant (p : Puzzle) puzzleState maxMoves' :
  sessionInvariant p ->
  sessionInvariant (setPuzzleState p puzzleState maxMoves').2.
Proof.
  intros Hinv. unfold setPuzzleState.
  destruct (negb _); [exact Hinv|].
  destruct (isPuzzleSolvable puzzleState) as [[|]|]; cbn [snd];
    try exact Hinv.
  apply cleared_invariant; simpl; try reflexivity. apply Hinv.
Qed.

Lemma reset_invariant (p : Puzzle) :
  sessionInvariant p -> sessionInvariant (reset p).
Proof.
  intros Hinv. unfold reset.
  apply cleared_invariant; simpl; try reflexivity.
  - symmetry. apply clone2DArray_id.
  - apply Hinv.
Qed.

Lemma startTimer_invariant (p : Puzzle) (t : Z) :
  sessionInvariant p ->
  sessionInvariant (startTimer p t) /\ is_Some (startTime (startTimer p t)).
Proof.
  intros Hinv. unfold startTimer.
  destruct (startTime p) as [t0|] eqn:Et.
  - split; [exact Hinv | rewrite Et; eauto].
  - split; [|simpl; eauto]. destruct Hinv. constructor; simpl; eauto.
Qed.

Lemma emit_invariant (p : Puzzle) (e : Event) :
  sessionInvariant p -> sessionInvariant (emit p e).
Proof. intros []. constructor; assumption. Qed.

Lemma moveTile_invariant (p : Puzzle) (tStart tMove tEnd r c : Z) :
  sessionInvariant p ->
  sessionInvariant (moveTile p tStart tMove tEnd r c).2.
Proof.
  intros Hinv. unfold moveTile.
  destruct (isComplete p) eqn:Hcompl; [exact Hinv|].
  fold (startTimer p tStart).
  destruct (startTimer_invariant p tStart Hinv) as [Hinv' Hstart].
  assert (Hrun : isComplete (startTimer p tStart) = false).
  { destruct (startTimer_frame p tStart) as (_ & _ & _ & _ & _ & _ & H & _).
    rewrite H. exact Hcompl. }
  set (p' := startTimer p tStart) in *. clearbody p'.
  destruct (_ || _); [apply emit_invariant, Hinv'|].
  destruct (findEmptyPosition (currentState p')) as [e|]; [|exact Hinv'].
  destruct (negb _); [apply emit_invariant, Hinv'|].
  unfold _executeMove.
  destruct (swapPositions (currentState p') (mkPos r c) e) as [swapped|];
    [|exact Hinv'].
  cbn [set_currentState set_moveCount set_moveHistory emit currentState
       moveCount maxMoves moveHistory].
  destruct Hinv' as [Hcount Hchain Hnum _ _ _ Hsolved].
  assert (Hcount' : moveCount p' + 1
                    = Z.of_nat (length (moveHistory p' ++
                        [mkMoveData (moveCount p' + 1)
                           (getValueAt (currentState p') r c) (mkPos r c) e
                           (clone2DArray (currentState p'))
                           (clone2DArray swapped)
                           (maxMoves p' - (moveCount p' + 1)) tMove]))).
  { rewrite length_app. simpl. lia. }
  assert (Hchain' : historyChain (initialState p')
                      (moveHistory p' ++
                        [mkMoveData (moveCount p' + 1)
                           (getValueAt (currentState p') r c) (mkPos r c) e
                           (clone2DArray (currentState p'))
                           (clone2DArray swapped)
                           (maxMoves p' - (moveCount p' + 1)) tMove])
                      swapped).
  { apply historyChain_snoc. simpl. rewrite !clone2DArray_id. auto. }
  assert (Hnum' : numbered
                      (moveHistory p' ++
                        [mkMoveData (moveCount p' + 1)
                           (getValueAt (currentState p') r c) (mkPos r c) e
                           (clone2DArray (currentState p'))
                           (clone2DArray swapped)
                           (maxMoves p' - (moveCount p' + 1)) tMove])).
  { apply numbered_snoc; [exact Hnum|]. simpl. rewrite Hcount. reflexivity. }
  destruct (isPuzzleSolved swapped) eqn:Hs; [|destruct (_ >=? _)]; cbn [snd];
    constructor; simpl; rewrite ?Hrun; eauto; try discriminate.
Qed.

Lemma moveTileByValue_invariant (p : Puzzle) (tStart tMove tEnd v : Z) :
  sessionInvariant p ->
  sessionInvariant (moveTileByValue p tStart tMove tEnd v).2.
Proof.
  intros Hinv. unfold moveTileByValue.
  destruct (v =? MECHANICS.EMPTY_TILE); [exact Hinv|].
  destruct (findPosition (currentState p) v); [|exact Hinv].
  apply moveTile_invariant, Hinv.
Qed.

Lemma undoLastMove_invariant (p : Puzzle) :
  sessionInvariant p -> sessionInvariant (undoLastMove p).2.
Proof.
  intros Hinv. unfold undoLastMove.
  destruct ((length (moveHistory p) =? 0)%nat || isComplete p) eqn:Hg;
    [exact Hinv|].
  apply orb_false_iff in Hg as [_ Hrun].
  destruct (js_pop (moveHistory p)) as [[lastMove rest]|] eqn:Hpop; [|exact Hinv].
  apply js_pop_Some in Hpop.
  destruct Hinv as [Hcount Hchain Hnum _ _ Htimer Hsolved].
  rewrite Hpop in Hcount, Hchain, Hnum, Htimer.
  apply historyChain_snoc in Hchain as [Hchain _].
  apply numbered_front in Hnum.
  rewrite length_app in Hcount. simpl in Hcount.
  constructor; simpl; rewrite ?Hrun; try discriminate; try assumption.
  - lia.
  - intros _. apply Htimer. right. intros H. apply app_eq_nil in H as [_ H].
    discriminate.
Qed.

Lemma reachable_invariant (p : Puzzle) : reachable p -> sessionInvariant p.
Proof.
  induction 1.
  - apply newPuzzle_invariant.
  - apply generatePuzzle_invariant; assumption.
  - apply setPuzzleState_invariant; assumption.
  - apply moveTile_invariant; assumption.
  - apply moveTileByValue_invariant; assumption.
  - apply undoLastMove_invariant; assumption.
  - apply reset_invariant; assumption.
  - apply generatePuzzle_invariant; assumption.
Qed.



End SessionFacts.





(** X19.  [canUndo()] predicts [undoLastMove()]: the call returns the
    value of [canUndo()], changes nothing when that is false, and
    otherwise removes exactly the last record, installs its
    [previousState] as the board and decrements the counter. *)
Theorem canUndo_predicts_undoLastMove (p : Puzzle) :
  (undoLastMove p).1 = Returns (canUndo p)
  /\ (canUndo p = false -> (undoLastMove p).2 = p)
  /\ (canUndo p = true ->
      exists lastMove,
        moveHistory p = moveHistory (undoLastMove p).2 ++ [lastMove]
        /\ currentState (undoLastMove p).2 = previousState lastMove
        /\ moveCount (undoLastMove p).2 = moveCount p - 1
        /\ emitted (undoLastMove p).2
           = emitted p ++ [MOVE_UNDONE lastMove (previousState lastMove)
                                       (moveCount p - 1)]).
Proof.
  unfold undoLastMove, canUndo.
  destruct (moveHistory p) as [|m0 rest0] eqn:Hh.
  { simpl. split; [reflexivity|]. split; [reflexivity | discriminate]. }
  cbn [length Nat.eqb Nat.ltb Nat.leb orb andb].
  destruct (isComplete p) eqn:Hc.
  { simpl. split; [reflexivity|]. split; [reflexivity | discriminate]. }
  destruct (js_pop_nonempty (m0 :: rest0)) as (lastMove & rest & Hpop);
    [discriminate|].
  rewrite Hpop. apply js_pop_Some in Hpop. cbn [fst snd negb].
  split; [reflexivity|]. split; [discriminate|].
  intros _. exists lastMove. simpl. rewrite clone2DArray_id. auto.
Qed.

(* ===================================================================== *)
(** * [validateTileValues] and [validatePuzzleState] *)
(* ===================================================================== *)

Section TileValues.

Variable T : Z.

Lemma scanTileValues_Some (values : list Z) :
  forall index found invalid found' invalid',
    scanTileValues T values index found invalid = Some (found', invalid') ->
    List.NoDup (inRangeValues T values)
    /\ (forall v, In v (inRangeValues T values) -> v ∉ found)
    /\ (forall v, v ∈ found' <-> v ∈ found \/ In v (inRangeValues T values))
    /\ length invalid'
       = (length invalid
          + length (List.filter (fun v => negb (inExpectedRange T v)) values))%nat.
Proof.
  induction values as [|value rest IH]; intros index found invalid found' invalid' H.
  - simpl in H. inversion H; subst. simpl.
    split; [constructor|]. split; [contradiction|]. split; [tauto | lia].
  - simpl in H. unfold inRangeValues. simpl. fold (inExpectedRange T value).
    fold (inRangeValues T rest).
    destruct (inExpectedRange T value) eqn:Ev; unfold inExpectedRange in Ev; rewrite Ev in H;
      cbn [negb] in H.
    + destruct (bool_decide (value ∈ found)) eqn:Ef; [discriminate|].
      apply bool_decide_eq_false_1 in Ef.
      apply IH in H as (Hnd & Hnot & Hfound & Hlen).
      split.
      { constructor; [|exact Hnd]. intros Hin. apply (Hnot value Hin).
        apply elem_of_union_l, elem_of_singleton. reflexivity. }
      split.
      { intros v [<- | Hin]; [exact Ef|]. intros Hv. apply (Hnot v Hin).
        apply elem_of_union_r, Hv. }
      split; [|simpl; exact Hlen].
      intros v. rewrite Hfound, elem_of_union, elem_of_singleton. simpl.
      intuition auto.
    + apply IH in H as (Hnd & Hnot & Hfound & Hlen).
      split; [exact Hnd|]. split; [exact Hnot|]. split; [exact Hfound|].
      rewrite Hlen, length_app. simpl. lia.
Qed.

Lemma scanTileValues_None (values : list Z) :
  forall index found invalid,
    scanTileValues T values index found invalid = None ->
    ~ (List.NoDup (inRangeValues T values)
       /\ forall v, In v (inRangeValues T values) -> v ∉ found).
Proof.
  induction values as [|value rest IH]; intros index found invalid H.
  - discriminate.
  - simpl in H. unfold inRangeValues. simpl. fold (inExpectedRange T value).
    fold (inRangeValues T rest).
    destruct (inExpectedRange T value) eqn:Ev; unfold inExpectedRange in Ev; rewrite Ev in H;
      cbn [negb] in H.
    + destruct (bool_decide (value ∈ found)) eqn:Ef.
      * apply bool_decide_eq_true_1 in Ef. intros [_ Hnot].
        apply (Hnot value); [left; reflexivity | exact Ef].
      * apply bool_decide_eq_false_1 in Ef. apply IH in H.
        intros [Hnd Hnot]. apply H. inversion Hnd as [|? ? Hnin Hnd']; subst.
        split; [exact Hnd'|]. intros v Hin Hv.
        apply elem_of_union in Hv as [Hv | Hv].
        -- apply elem_of_singleton in Hv. subst v. contradiction.
        -- apply (Hnot v); [right; exact Hin | exact Hv].
    + apply IH in H. exact H.
Qed.

Lemma expectedValuesList_In (v : Z) :
  In v (expectedValuesList T) <-> 0 <= v <= T - 1.
Proof.
  unfold expectedValuesList. rewrite in_map_iff. split.
  - intros (n & <- & Hn). apply in_seq in Hn. lia.
  - intros Hv. exists (Z.to_nat v). split; [lia|]. apply in_seq. lia.
Qed.

Lemma expectedValuesList_NoDup : List.NoDup (expectedValuesList T).
Proof.
  unfold expectedValuesList. apply Finite.Injective_map_NoDup.
  - intros a b' H. lia.
  - apply seq_NoDup.
Qed.

Lemma inRange_iff (v : Z) : inExpectedRange T v = true <-> 0 <= v <= T - 1.
Proof. unfold inExpectedRange. rewrite andb_true_iff, !Z.leb_le. tauto. Qed.

Lemma filter_nil_iff {A} (f : A -> bool) (l : list A) :
  List.filter f l = [] <-> forall x, In x l -> f x = false.
Proof.
  induction l as [|a l IH]; simpl.
  - split; [contradiction | reflexivity].
  - destruct (f a) eqn:E.
    + split; [discriminate|]. intros H. specialize (H a (or_introl eq_refl)).
      congruence.
    + rewrite IH. split.
      * intros H x [<- | Hx]; auto.
      * intros H x Hx. apply H. right. exact Hx.
Qed.

Lemma filter_all {A} (f : A -> bool) (l : list A) :
  (forall x, In x l -> f x = true) -> List.filter f l = l.
Proof.
  induction l as [|a l IH]; simpl; intros H; [reflexivity|].
  rewrite (H a) by (left; reflexivity). f_equal. apply IH.
  intros x Hx. apply H. right. exact Hx.
Qed.

End TileValues.

Section TileValidation.

Variable size' : nat.
Variable flatPuzzle : list Z.

(** The outcome of [validateTileValues] in full. *)
Lemma validateTileValues_cases :
  match validateTileValues flatPuzzle size' with
  | Returns result =>
      List.NoDup (inRangeValues (Z.of_nat size' * Z.of_nat size') flatPuzzle)
      /\ (tv_valid result = true
          <-> Permutation flatPuzzle
                (expectedValuesList (Z.of_nat size' * Z.of_nat size')))
      /\ (tv_valid result = true <-> tv_errors result = [])
      /\ tv_warnings result = []
  | Fault =>
      ~ List.NoDup (inRangeValues (Z.of_nat size' * Z.of_nat size') flatPuzzle)
  | ThrowsError _ => False
  end.
Proof.
  unfold validateTileValues.
  destruct (scanTileValues (Z.of_nat size' * Z.of_nat size') flatPuzzle 0 ∅ [])
    as [[found invalid]|] eqn:Hscan.
  2:{ apply scanTileValues_None in Hscan. intros Hnd. apply Hscan.
      split; [exact Hnd|]. intros v _. apply not_elem_of_empty. }
  apply scanTileValues_Some in Hscan as (Hnd & _ & Hfound & Hlen).
  simpl in Hlen.
  split; [exact Hnd|]. cbn [tv_valid tv_errors tv_warnings].
  split; [|split; [|reflexivity]].
  2:{ rewrite Nat.eqb_eq. split; [apply length_zero_iff_nil | intros ->; reflexivity]. }
  rewrite Nat.eqb_eq, !length_app.
  set (missing :=
         List.filter (fun v => negb (bool_decide (v ∈ found)))
                     (expectedValuesList (Z.of_nat size' * Z.of_nat size'))).
  assert (HT : 0 <= (Z.of_nat size' * Z.of_nat size')) by nia.
  split.
  - intros Hz.
    assert (Hinv : length invalid = 0%nat).
    { destruct (0 <? length invalid)%nat eqn:E; [simpl in Hz; lia|].
      apply Nat.ltb_ge in E. lia. }
    assert (Hmiss : missing = []).
    { destruct (0 <? length missing)%nat eqn:E.
      - rewrite !Nat.add_comm with (m := length [MissingValues missing]) in Hz.
        simpl in Hz. lia.
      - apply Nat.ltb_ge in E. apply length_zero_iff_nil. lia. }
    rewrite Hinv in Hlen. symmetry in Hlen. apply length_zero_iff_nil in Hlen.
    assert (Hall : forall v, In v flatPuzzle ->
                             0 <= v <= Z.of_nat size' * Z.of_nat size' - 1).
    { intros v Hv. apply (filter_nil_iff _ flatPuzzle) with (x := v) in Hlen;
        [|exact Hv].
      apply negb_false_iff, inRange_iff in Hlen. exact Hlen. }
    assert (Hsame : inRangeValues (Z.of_nat size' * Z.of_nat size') flatPuzzle
                    = flatPuzzle).
    { apply filter_all. intros v Hv. apply Hall in Hv.
      rewrite andb_true_iff, !Z.leb_le. exact Hv. }
    rewrite Hsame in Hnd, Hfound.
    apply Permutation.NoDup_Permutation; [exact Hnd | apply expectedValuesList_NoDup|].
    intros v. rewrite expectedValuesList_In. split; [apply Hall|].
    intros Hv. apply expectedValuesList_In in Hv.
    apply (filter_nil_iff _ (expectedValuesList (Z.of_nat size' * Z.of_nat size')))
      with (x := v) in Hmiss; [|exact Hv].
    apply negb_false_iff, bool_decide_eq_true_1, Hfound in Hmiss.
    destruct Hmiss as [Hmiss | Hmiss]; [|exact Hmiss].
    exfalso. revert Hmiss. apply not_elem_of_empty.
  - intros Hperm.
    assert (Hall : forall v, In v flatPuzzle ->
                             0 <= v <= Z.of_nat size' * Z.of_nat size' - 1).
    { intros v Hv. apply expectedValuesList_In.
      eapply Permutation_in; eassumption. }
    assert (Hcount : len flatPuzzle = (Z.of_nat size' * Z.of_nat size')).
    { unfold len. rewrite (Permutation_length Hperm).
      unfold expectedValuesList. rewrite length_map, length_seq. lia. }
    rewrite Hcount, Z.eqb_refl. cbn [negb length Nat.add].
    assert (Hinv : length invalid = 0%nat).
    { rewrite Hlen. apply length_zero_iff_nil, filter_nil_iff.
      intros v Hv. apply Hall in Hv. apply negb_false_iff, inRange_iff. exact Hv. }
    rewrite Hinv. cbn [Nat.ltb Nat.leb length Nat.add].
    assert (Hmiss : missing = []).
    { apply filter_nil_iff. intros v Hv. apply negb_false_iff.
      apply bool_decide_eq_true_2, Hfound. right.
      unfold inRangeValues. apply filter_In. split.
      - eapply Permutation_in; [symmetry; exact Hperm | exact Hv].
      - apply expectedValuesList_In in Hv.
        rewrite andb_true_iff, !Z.leb_le. exact Hv. }
    rewrite Hmiss. reflexivity.
Qed.

End TileValidation.

(** X20.  [validateTileValues(flatPuzzle, size)] never reports a
    duplicate: when a value of the expected range occurs twice the call
    ends in a TypeError ([foundValues.get] on a [Set]).  Otherwise it
    returns, without warnings, and [valid] holds exactly when
    [flatPuzzle] is a rearrangement of 0 .. size*size - 1, which is also
    exactly when no error is listed. *)
Theorem validateTileValues_spec (flatPuzzle : list Z) (size' : nat) :
  match validateTileValues flatPuzzle size' with
  | Returns result =>
      List.NoDup (inRangeValues (Z.of_nat size' * Z.of_nat size') flatPuzzle)
      /\ (tv_valid result = true
          <-> Permutation flatPuzzle
                (expectedValuesList (Z.of_nat size' * Z.of_nat size')))
      /\ (tv_valid result = true <-> tv_errors result = [])
      /\ tv_warnings result = []
  | Fault =>
      ~ List.NoDup (inRangeValues (Z.of_nat size' * Z.of_nat size') flatPuzzle)
  | ThrowsError _ => False
  end.
Proof. apply validateTileValues_cases. Qed.

Section StateValidation.

Lemma rowLengthErrors_nil (size' : nat) (rows : Board) (i : nat) :
  rowLengthErrors size' rows i = []
  <-> Forall (fun line => length line = size') rows.
Proof.
  revert i. induction rows as [|line rest IH]; intros i; simpl.
  - split; [constructor | reflexivity].
  - rewrite Forall_cons. destruct (length line =? size')%nat eqn:E; simpl.
    + apply Nat.eqb_eq in E. rewrite IH.
      split; [intros H; split; [exact E | exact H] | intros [_ H]; exact H].
    + apply Nat.eqb_neq in E.
      split; [discriminate | intros [H _]; destruct (E H)].
Qed.

Lemma isValidBoardSize_iff (s : Z) :
  isValidBoardSize s = true <-> 1 <= s <= 50.
Proof.
  unfold isValidBoardSize, VALIDATION.MIN_LEVEL, VALIDATION.MAX_LEVEL.
  rewrite andb_true_iff, Z.geb_leb, !Z.leb_le. tauto.
Qed.

(** When [validatePuzzleState] accepts. *)
Lemma validatePuzzleState_accepts (puzzle : Board) :
  (exists result, validatePuzzleState puzzle = Returns result
                  /\ sv_valid result = true)
  <-> (1 <= length puzzle <= 50)%nat
      /\ square (length puzzle) puzzle
      /\ Permutation (concat puzzle)
           (expectedValuesList (len puzzle * len puzzle))
      /\ isPuzzleSolvable puzzle = Some true.
Proof.
  unfold validatePuzzleState.
  destruct (length puzzle =? 0)%nat eqn:E0.
  { apply Nat.eqb_eq in E0. split.
    - intros (result & H & Hv). inversion H; subst. discriminate.
    - intros [H _]. lia. }
  apply Nat.eqb_neq in E0.
  destruct (0 <? length (rowLengthErrors (length puzzle) puzzle 0))%nat eqn:Er.
  { apply Nat.ltb_lt in Er. split.
    - intros (result & H & Hv). inversion H; subst. discriminate.
    - intros (_ & [_ Hsq] & _). apply rowLengthErrors_nil with (i := 0%nat) in Hsq.
      rewrite Hsq in Er. simpl in Er. lia. }
  apply Nat.ltb_ge in Er.
  assert (Hsq : square (length puzzle) puzzle).
  { split; [reflexivity|]. apply (rowLengthErrors_nil _ _ 0).
    apply length_zero_iff_nil. lia. }
  destruct (isValidBoardSize (Z.of_nat (length puzzle))) eqn:Es; cbn [negb].
  2:{ split; [intros (result & H & _); discriminate|].
      intros [H _]. assert (Hs : isValidBoardSize (Z.of_nat (length puzzle)) = true)
        by (apply isValidBoardSize_iff; lia).
      congruence. }
  apply isValidBoardSize_iff in Es.
  pose proof (validateTileValues_cases (length puzzle) (flatten2DArray puzzle))
    as Htv.
  unfold flatten2DArray in *. fold (len puzzle) in Htv.
  destruct (validateTileValues (concat puzzle) (length puzzle))
    as [tv| |]; [|contradiction|].
  2:{ split; [intros (result & H & _); discriminate|].
      intros (_ & _ & Hperm & _). exfalso. apply Htv.
      assert (Hsame : inRangeValues (len puzzle * len puzzle) (concat puzzle)
                      = concat puzzle).
      { apply filter_all. intros v Hv.
        eapply Permutation_in in Hv; [|exact Hperm].
        apply expectedValuesList_In in Hv.
        rewrite andb_true_iff, !Z.leb_le. exact Hv. }
      rewrite Hsame. eapply Permutation.Permutation_NoDup; [symmetry; exact Hperm|].
      apply expectedValuesList_NoDup. }
  destruct Htv as (_ & Hvalid & Herr & _).
  destruct (tv_valid tv) eqn:Ev; cbn [negb length Nat.eqb].
  - destruct (isPuzzleSolvable puzzle) as [[|]|].
    + split.
      * intros _. split; [lia|]. split; [exact Hsq|].
        split; [apply Hvalid; reflexivity | reflexivity].
      * intros _. eexists. split; reflexivity.
    + split; [intros (result & H & Hv); inversion H; subst; discriminate|].
      intros (_ & _ & _ & H). discriminate.
    + split; [intros (result & H & _); discriminate|].
      intros (_ & _ & _ & H). discriminate.
  - destruct (length (tv_errors tv) =? 0)%nat eqn:Ee.
    + apply Nat.eqb_eq, length_zero_iff_nil, Herr in Ee. discriminate.
    + split; [intros (result & H & Hv); inversion H; subst; discriminate|].
      intros (_ & _ & Hperm & _). apply Hvalid in Hperm. discriminate.
Qed.

End StateValidation.

(** X21.  [validatePuzzleState(puzzle)] returns a result with [valid]
    set exactly for the square boards of size 1 to 50 that hold each of
    0 .. size*size - 1 once and that [isPuzzleSolvable] accepts. *)
Theorem validatePuzzleState_valid_iff (puzzle : Board) :
  (exists result, validatePuzzleState puzzle = Returns result
                  /\ sv_valid result = true)
  <-> (1 <= length puzzle <= 50)%nat
      /\ square (length puzzle) puzzle
      /\ Permutation (concat puzzle)
           (expectedValuesList (len puzzle * len puzzle))
      /\ isPuzzleSolvable puzzle = Some true.
Proof. apply validatePuzzleState_accepts. Qed.

(** X22.  A square board with more than 50 rows is not reported as
    invalid: [validatePuzzleState] ends in a TypeError while it builds
    the message, which reads [VALIDATION.BOARD.MIN_SIZE] although
    [VALIDATION] has no [BOARD]. *)
Theorem validatePuzzleState_oversize (puzzle : Board) :
  square (length puzzle) puzzle ->
  (50 < length puzzle)%nat ->
  validatePuzzleState puzzle = Fault.
Proof.
  intros [_ Hsq] Hbig. unfold validatePuzzleState.
  destruct (length puzzle =? 0)%nat eqn:E0; [apply Nat.eqb_eq in E0; lia|].
  apply (rowLengthErrors_nil _ _ 0) in Hsq. rewrite Hsq. cbn [length Nat.ltb Nat.leb].
  destruct (isValidBoardSize (Z.of_nat (length puzzle))) eqn:Es; [|reflexivity].
  apply isValidBoardSize_iff in Es. lia.
Qed.

Lemma validatePuzzleState_oversize_witness :
  validatePuzzleState (create2DArray 51 51 0) = Fault.
Proof.
  apply validatePuzzleState_oversize.
  - split; [reflexivity|]. apply Forall_forall. intros line Hin.
    apply (bool_decide_unpack _).
    revert line Hin. apply Forall_forall. apply (bool_decide_unpack _).
    vm_compute. exact I.
  - vm_compute. lia.
Defined.

(* ===================================================================== *)
(** * [getManhattanDistance] *)
(* ===================================================================== *)

Section Manhattan.

Variable S : nat.
Variable b : Board.
Hypothesis sq : square S b.

Lemma getManhattanLoop_sum (todo : list (nat * nat)) :
  forall distance : Z,
    (forall r c, In (r, c) todo -> (r < S)%nat /\ (c < S)%nat) ->
    getManhattanLoop b S todo distance
    = Some (distance + distanceSum b S todo).
Proof.
  induction todo as [|[r c] rest IH]; intros distance Hin.
  - simpl. f_equal. lia.
  - cbn [getManhattanLoop distanceSum fold_right]. unfold distanceTerm at 1.
    cbn [fst snd].
    destruct (cellAt_is_Some S b (mkPos (Z.of_nat r) (Z.of_nat c)) sq) as [v Hv].
    { destruct (Hin r c (or_introl eq_refl)). split; cbn [row col]; lia. }
    cbn [row col] in Hv. rewrite Hv.
    rewrite IH by (intros r' c' H'; apply Hin; right; exact H').
    fold (distanceSum b S rest).
    destruct (negb (v =? MECHANICS.EMPTY_TILE)); f_equal; lia.
Qed.

Lemma tileDistance_nonneg (size r c v : Z) : 0 <= tileDistance size r c v.
Proof. unfold tileDistance. lia. Qed.

Lemma distanceTerm_nonneg (rc : nat * nat) : 0 <= distanceTerm b S rc.
Proof.
  unfold distanceTerm. destruct (cellAt b _ _) as [v|]; [|lia].
  destruct (negb _); [apply tileDistance_nonneg | lia].
Qed.

Lemma distanceSum_nonneg (cells : list (nat * nat)) : 0 <= distanceSum b S cells.
Proof.
  induction cells as [|rc rest IH]; [simpl; lia|].
  unfold distanceSum in *. cbn [fold_right].
  pose proof (distanceTerm_nonneg rc). lia.
Qed.

Lemma distanceSum_zero (cells : list (nat * nat)) :
  distanceSum b S cells = 0
  <-> forall rc, In rc cells -> distanceTerm b S rc = 0.
Proof.
  induction cells as [|rc rest IH].
  - simpl. split; [contradiction | reflexivity].
  - pose proof (distanceTerm_nonneg rc).
    pose proof (distanceSum_nonneg rest) as Hrest.
    unfold distanceSum in *. cbn [fold_right In].
    split.
    + intros Hz rc' [<- | Hin]; [lia|]. apply IH; [lia | exact Hin].
    + intros Hall. rewrite (Hall rc) by (left; reflexivity).
      rewrite (proj2 IH); [reflexivity|]. intros rc' H'. apply Hall. right. exact H'.
Qed.

(** A tile is at distance 0 exactly when it is the tile of the solved
    board at that cell. *)
Lemma tileDistance_zero (r c : nat) (v : Z) :
  (r < S)%nat -> (c < S)%nat -> 1 <= v ->
  tileDistance (Z.of_nat S) (Z.of_nat r) (Z.of_nat c) v = 0
  <-> v = Z.of_nat r * Z.of_nat S + Z.of_nat c + 1.
Proof.
  intros Hr Hc Hv. unfold tileDistance.
  rewrite Z.rem_mod_nonneg by lia.
  pose proof (Z.div_mod (v - 1) (Z.of_nat S) ltac:(lia)) as Hdm.
  pose proof (Z.mod_pos_bound (v - 1) (Z.of_nat S) ltac:(lia)) as Hmod.
  split.
  - intros Hz.
    assert (H1 : Z.of_nat r = (v - 1) / Z.of_nat S) by lia.
    assert (H2 : Z.of_nat c = (v - 1) mod Z.of_nat S) by lia.
    rewrite <- H1, <- H2 in Hdm. lia.
  - intros ->.
    replace (Z.of_nat r * Z.of_nat S + Z.of_nat c + 1 - 1)
      with (Z.of_nat c + Z.of_nat r * Z.of_nat S) by lia.
    rewrite Z.div_add, Z.mod_add by lia.
    rewrite Z.div_small, Z.mod_small by lia. lia.
Qed.

Hypothesis values : Permutation (concat b) (expectedValuesList (Z.of_nat S * Z.of_nat S)).

Lemma cell_in_range (r c : nat) (v : Z) :
  (r < S)%nat -> (c < S)%nat ->
  cellAt b (Z.of_nat r) (Z.of_nat c) = Some v ->
  0 <= v <= Z.of_nat S * Z.of_nat S - 1.
Proof.
  intros Hr Hc Hcell.
  change (cellAt b (row (mkPos (Z.of_nat r) (Z.of_nat c)))
                   (col (mkPos (Z.of_nat r) (Z.of_nat c))) = Some v) in Hcell.
  rewrite (cellAt_flat S b (mkPos (Z.of_nat r) (Z.of_nat c)) sq) in Hcell
    by (split; cbn [row col]; lia).
  apply list_elem_of_lookup_2, list_elem_of_In in Hcell.
  apply expectedValuesList_In. eapply Permutation_in; eassumption.
Qed.

Lemma permutation_wellFormed : wellFormedBoard S b.
Proof.
  split; [exact sq|]. apply NoDup_ListNoDup.
  eapply Permutation.Permutation_NoDup; [symmetry; exact values|].
  apply expectedValuesList_NoDup.
Qed.

Lemma distance_zero_solved :
  (forall rc, In rc (gridPositions S) -> distanceTerm b S rc = 0)
  <-> forall r c : nat, (r < S)%nat -> (c < S)%nat ->
                        cellAt b (Z.of_nat r) (Z.of_nat c) = Some (solvedCell S r c).
Proof.
  destruct permutation_wellFormed as [_ Hnd].
  split.
  - intros Hterms.
    assert (Hcell : forall r c v, (r < S)%nat -> (c < S)%nat ->
              cellAt b (Z.of_nat r) (Z.of_nat c) = Some v ->
              v = 0 \/ v = Z.of_nat r * Z.of_nat S + Z.of_nat c + 1).
    { intros r c v Hr Hc Hv.
      specialize (Hterms (r, c) (proj2 (gridPositions_In S r c) (conj Hr Hc))).
      unfold distanceTerm in Hterms. cbn [fst snd] in Hterms. rewrite Hv in Hterms.
      destruct (v =? MECHANICS.EMPTY_TILE) eqn:E0; cbn [negb] in Hterms.
      - left. apply Z.eqb_eq in E0. exact E0.
      - right. apply Z.eqb_neq in E0. unfold MECHANICS.EMPTY_TILE in E0.
        pose proof (cell_in_range r c v Hr Hc Hv).
        apply tileDistance_zero; [assumption | assumption | lia | exact Hterms]. }
    assert (Hlast : (1 <= S)%nat ->
                    cellAt b (Z.of_nat (S - 1)) (Z.of_nat (S - 1)) = Some 0).
    { intros HS.
      destruct (cellAt_is_Some S b (mkPos (Z.of_nat (S - 1)) (Z.of_nat (S - 1))) sq)
        as [v Hv]; [split; cbn [row col]; lia|]. cbn [row col] in Hv. rewrite Hv. f_equal.
      destruct (Hcell (S - 1)%nat (S - 1)%nat v ltac:(lia) ltac:(lia) Hv)
        as [H0 | Hs]; [exact H0|].
      pose proof (cell_in_range (S - 1)%nat (S - 1)%nat v ltac:(lia) ltac:(lia) Hv).
      nia. }
    intros r c Hr Hc.
    destruct (cellAt_is_Some S b (mkPos (Z.of_nat r) (Z.of_nat c)) sq)
      as [v Hv]; [split; cbn [row col]; lia|]. cbn [row col] in Hv. rewrite Hv. f_equal.
    unfold solvedCell.
    destruct ((Z.of_nat r =? Z.of_nat S - 1) && (Z.of_nat c =? Z.of_nat S - 1))
      eqn:El.
    + apply andb_true_iff in El as [E1 E2]. apply Z.eqb_eq in E1, E2.
      assert (r = (S - 1)%nat) by lia. assert (c = (S - 1)%nat) by lia. subst r c.
      rewrite Hlast in Hv by lia. congruence.
    + destruct (Hcell r c v Hr Hc Hv) as [H0 | Hs]; [|exact Hs].
      exfalso. subst v.
      pose proof (findPosition_unique S b (mkPos (Z.of_nat r) (Z.of_nat c)) 0
                    sq Hnd ltac:(split; cbn [row col]; lia) Hv) as H1.
      pose proof (findPosition_unique S b
                    (mkPos (Z.of_nat (S - 1)) (Z.of_nat (S - 1))) 0
                    sq Hnd ltac:(split; cbn [row col]; lia) (Hlast ltac:(lia))) as H2.
      rewrite H1 in H2. inversion H2 as [[E1 E2]].
      apply andb_false_iff in El as [El | El]; apply Z.eqb_neq in El; lia.
  - intros Hcells [r c] Hin. apply gridPositions_In in Hin as [Hr Hc].
    unfold distanceTerm. cbn [fst snd]. rewrite (Hcells r c Hr Hc).
    unfold solvedCell.
    destruct ((Z.of_nat r =? Z.of_nat S - 1) && (Z.of_nat c =? Z.of_nat S - 1));
      [reflexivity|].
    replace (Z.of_nat r * Z.of_nat S + Z.of_nat c + 1 =? MECHANICS.EMPTY_TILE)
      with false by (symmetry; apply Z.eqb_neq; unfold MECHANICS.EMPTY_TILE; nia).
    cbn [negb]. apply tileDistance_zero; [assumption | assumption | nia | reflexivity].
Qed.

End Manhattan.

(** X23.  On a square board that holds each of 0 .. size*size - 1 once,
    [getManhattanDistance] returns a number that is never negative, and
    that is 0 exactly when [isPuzzleSolved] holds. *)
Theorem getManhattanDistance_zero_iff_solved (puzzle : Board) :
  square (length puzzle) puzzle ->
  Permutation (concat puzzle)
    (expectedValuesList (len puzzle * len puzzle)) ->
  exists distance,
    getManhattanDistance puzzle (length puzzle) = Some distance
    /\ 0 <= distance
    /\ (distance = 0 <-> isPuzzleSolved puzzle = true).
Proof.
  intros Hsq Hperm. unfold getManhattanDistance.
  rewrite (getManhattanLoop_sum (length puzzle) puzzle Hsq)
    by (intros r c; apply gridPositions_In).
  eexists. split; [reflexivity|]. rewrite Z.add_0_l.
  split; [apply distanceSum_nonneg|].
  rewrite distanceSum_zero, isPuzzleSolved_cells.
  apply distance_zero_solved; assumption.
Qed.

Lemma getManhattanDistance_zero_iff_solved_witness :
  exists distance,
    getManhattanDistance scenarioA (length scenarioA) = Some distance
    /\ 0 <= distance
    /\ (distance = 0 <-> isPuzzleSolved scenarioA = true).
Proof.
  apply getManhattanDistance_zero_iff_solved.
  - split; [reflexivity | repeat constructor].
  - apply (Permutation_sym (l := expectedValuesList _)).
    change (Permutation [0;1;2;3;4;5;6;7;8] [1;2;3;4;5;6;7;0;8]).
    apply Permutation_cons_app with (l1 := [1;2;3;4;5;6;7]) (l2 := [8]).
    reflexivity.
Defined.

(* ===================================================================== *)
(** * Valid boards; moves by tile value; export and import *)
(* ===================================================================== *)

Section ValidBoards.

Variable S : nat.
Variable b : Board.
Hypothesis vb : validBoard S b.

Lemma validBoard_wellFormed : wellFormedBoard S b.
Proof. destruct vb as [Hsq Hperm]. apply permutation_wellFormed; assumption. Qed.

Lemma validBoard_len : len b = Z.of_nat S.
Proof. destruct vb as [[Hlen _] _]. unfold len. rewrite Hlen. reflexivity. Qed.

(** Every value of the range is on the board. *)
Lemma validBoard_findPosition (v : Z) :
  0 <= v <= Z.of_nat S * Z.of_nat S - 1 ->
  exists pos, findPosition b v = Some pos
              /\ inGrid S pos /\ cellAt b (row pos) (col pos) = Some v.
Proof.
  intros Hv. destruct vb as [Hsq Hperm]. pose proof Hsq as [Hlen Hall].
  assert (Hin : In v (concat b)).
  { eapply Permutation_in; [symmetry; exact Hperm|].
    apply expectedValuesList_In. exact Hv. }
  apply list_elem_of_In, list_elem_of_lookup_1 in Hin as [i Hi].
  pose proof (lookup_lt_Some _ _ _ Hi) as Hlt.
  rewrite (concat_length S) in Hlt by assumption. rewrite Hlen in Hlt.
  assert (HS : (0 < S)%nat) by (destruct S; [simpl in Hlt; lia | lia]).
  set (pos := mkPos (Z.of_nat (i / S)) (Z.of_nat (i mod S))).
  assert (Hgrid : inGrid S pos).
  { unfold inGrid, pos. cbn [row col].
    pose proof (Nat.mod_upper_bound i S ltac:(lia)).
    assert (i / S < S)%nat by (apply Nat.Div0.div_lt_upper_bound; lia). lia. }
  assert (Hcell : cellAt b (row pos) (col pos) = Some v).
  { rewrite (cellAt_flat S b pos Hsq Hgrid). unfold flatIndex, pos. cbn [row col].
    rewrite !Nat2Z.id.
    replace (i / S * S + i mod S)%nat with i; [exact Hi|].
    pose proof (Nat.div_mod_eq i S). lia. }
  exists pos. split; [|split; assumption].
  destruct validBoard_wellFormed as [_ Hnd].
  apply (findPosition_unique S); assumption.
Qed.

Lemma validBoard_empty :
  (1 <= S)%nat -> is_Some (findEmptyPosition b).
Proof.
  intros HS. destruct (validBoard_findPosition 0 ltac:(nia)) as (pos & H & _).
  exists pos. exact H.
Qed.

Lemma validBoard_range (pos : Position) (v : Z) :
  findPosition b v = Some pos -> 0 <= v <= Z.of_nat S * Z.of_nat S - 1.
Proof.
  intros H. apply findPosition_bounds in H as [_ Hcell].
  destruct vb as [Hsq Hperm].
  pose proof (cellAt_inGrid S b _ _ _ Hsq Hcell) as [Hr Hc]. cbn [row col] in Hr, Hc.
  apply (cell_in_range S b Hsq Hperm (Z.to_nat (row pos)) (Z.to_nat (col pos)));
    try lia.
  rewrite !Z2Nat.id by lia. exact Hcell.
Qed.

End ValidBoards.

(** X24.  On a running session with a valid board, [moveTileByValue]
    returns exactly the verdict of [validateTileMoveByValue] on the
    current board, for every value: the empty value, values that are not
    on the board, and tiles. *)
Theorem moveTileByValue_agrees_with_validator
        (p : Puzzle) (tStart tMove tEnd v : Z) :
  validBoard (size p) (currentState p) ->
  isComplete p = false ->
  (moveTileByValue p tStart tMove tEnd v).1
  = Returns (valid (validateTileMoveByValue (currentState p) v)).
Proof.
  intros Hvb Hrun.
  pose proof (validBoard_wellFormed _ _ Hvb) as Hwf.
  pose proof (validBoard_len _ _ Hvb) as Hlen.
  unfold moveTileByValue, validateTileMoveByValue, isValidTileValue.
  rewrite Hlen. unfold MECHANICS.EMPTY_TILE.
  destruct (Nat.eq_dec (size p) 0%nat) as [H0 | HS].
  { assert (Hf : (v >=? 0) && (v <? Z.of_nat (size p) * Z.of_nat (size p)) = false).
    { rewrite H0. change (Z.of_nat 0 * Z.of_nat 0) with 0. rewrite Z.geb_leb.
      destruct (Z.leb_spec 0 v), (Z.ltb_spec v 0); simpl; try reflexivity; lia. }
    rewrite Hf. cbn [negb valid].
    destruct Hvb as [[Hl _] _]. rewrite H0 in Hl.
    apply length_zero_iff_nil in Hl. rewrite Hl.
    destruct (v =? 0); reflexivity. }
  pose proof (validBoard_empty _ _ Hvb ltac:(lia)) as Hempty.
  destruct (v =? 0) eqn:Ev.
  - apply Z.eqb_eq in Ev. subst v. cbn [fst].
    replace (0 >=? 0) with true by reflexivity.
    replace (0 <? Z.of_nat (size p) * Z.of_nat (size p)) with true
      by (symmetry; apply Z.ltb_lt; nia).
    cbn [andb negb]. destruct Hempty as [e He].
    unfold findEmptyPosition, MECHANICS.EMPTY_TILE in He. rewrite He.
    f_equal. symmetry. apply not_true_is_false. intros V.
    apply (validateTileMove_valid _ _ Hwf) in V as [_ (e' & He' & Hadj)].
    unfold findEmptyPosition, MECHANICS.EMPTY_TILE in He'.
    rewrite He in He'. inversion He'; subst e'. destruct e as [er ec].
    cbn [row col] in Hadj. rewrite areAdjacent_same in Hadj. discriminate.
  - destruct (findPosition (currentState p) v) as [pos|] eqn:Hpos.
    + pose proof (validBoard_range _ _ Hvb pos v Hpos) as Hrange.
      rewrite Z.geb_leb.
      replace (0 <=? v) with true by (symmetry; apply Z.leb_le; lia).
      replace (v <? Z.of_nat (size p) * Z.of_nat (size p)) with true
        by (symmetry; apply Z.ltb_lt; lia).
      cbn [andb negb]. apply moveTile_validator; assumption.
    + cbn [fst]. destruct (negb _); reflexivity.
Qed.

Lemma moveTileByValue_agrees_with_validator_witness :
  (moveTileByValue (sessionFrom scenarioA 10) 1 2 3 8).1
  = Returns (valid (validateTileMoveByValue
                      (currentState (sessionFrom scenarioA 10)) 8)).
Proof.
  apply moveTileByValue_agrees_with_validator; [|vm_compute; reflexivity].
  split; [split; [reflexivity | repeat constructor]|].
  apply (Permutation_sym (l := expectedValuesList _)).
  change (Permutation [0;1;2;3;4;5;6;7;8] [1;2;3;4;5;6;7;0;8]).
  apply Permutation_cons_app with (l1 := [1;2;3;4;5;6;7]) (l2 := [8]).
  reflexivity.
Defined.

(** X25.  Importing the exported state of a reachable session gives the
    session back - every exported field and the solved board - exactly
    when the move budget is not 0 and neither time stamp is 0:
    [importState] replaces a budget of 0 by 100 and a stamp of 0 by
    null. *)
Theorem importState_exportState (p q : Puzzle) :
  reachable p ->
  (exportState (importState q (exportState p)).1 = exportState p
   <-> maxMoves p <> 0 /\ startTime p <> Some 0 /\ endTime p <> Some 0)
  /\ solvedState (importState q (exportState p)).1 = solvedState p
  /\ (importState q (exportState p)).2 = currentState p
  /\ (maxMoves p = 0 -> maxMoves (importState q (exportState p)).1 = 100).
Proof.
  intros Hr. destruct (reachable_invariant p Hr) as [_ _ _ _ _ _ Hsolved].
  unfold importState, exportState. cbn.
  rewrite clone2DArray_id, orb_false_r.
  split; [|split; [symmetry; exact Hsolved | split; [reflexivity|]]].
  2:{ intros ->. reflexivity. }
  assert (Hcount : orNumber (moveCount p) 0 = moveCount p).
  { unfold orNumber. destruct (moveCount p =? 0) eqn:E; [|reflexivity].
    apply Z.eqb_eq in E. congruence. }
  rewrite Hcount. split.
  - intros H.
    pose proof (f_equal ex_maxMoves H) as Hmax.
    pose proof (f_equal ex_startTime H) as Hstart.
    pose proof (f_equal ex_endTime H) as Hend.
    cbn [ex_maxMoves ex_startTime ex_endTime] in Hmax, Hstart, Hend. clear H.
    split; [|split].
    + intros H0. rewrite H0 in Hmax. vm_compute in Hmax. discriminate.
    + intros H0. rewrite H0 in Hstart. vm_compute in Hstart. discriminate.
    + intros H0. rewrite H0 in Hend. vm_compute in Hend. discriminate.
  - intros (Hmax & Hstart & Hend).
    assert (H1 : orNumber (maxMoves p) 100 = maxMoves p).
    { unfold orNumber. destruct (maxMoves p =? 0) eqn:E; [|reflexivity].
      apply Z.eqb_eq in E. contradiction. }
    assert (H2 : forall t, t <> Some 0 -> orNull t = t).
    { intros [t|] Ht; [|reflexivity]. simpl. destruct (t =? 0) eqn:E; [|reflexivity].
      apply Z.eqb_eq in E. subst t. contradiction. }
    rewrite H1, !H2 by assumption. reflexivity.
Qed.

Lemma importState_exportState_witness :
  let p := (moveTile (sessionFrom scenarioA 10) 1 2 3 2 2).2 in
  let q := newPuzzle 4 in
  (exportState (importState q (exportState p)).1 = exportState p
   <-> maxMoves p <> 0 /\ startTime p <> Some 0 /\ endTime p <> Some 0)
  /\ solvedState (importState q (exportState p)).1 = solvedState p
  /\ (importState q (exportState p)).2 = currentState p
  /\ (maxMoves p = 0 -> maxMoves (importState q (exportState p)).1 = 100).
Proof.
  cbv zeta. apply importState_exportState.
  apply reach_moveTile.
  assert (Hs : sessionFrom scenarioA 10
               = (setPuzzleState (newPuzzle (length scenarioA)) scenarioA 10).2)
    by (vm_compute; reflexivity).
  rewrite Hs. apply reach_setPuzzleState, reach_new.
Defined.

(* ===================================================================== *)
(** * The boards of a session of play *)
(* ===================================================================== *)

Section Played.
















Lemma played_reachable (p : Puzzle) : played p -> reachable p.
Proof. induction 1; constructor; assumption. Qed.

End Played.



(* ===================================================================== *)
(** * [calculateLinearConflicts]; [Puzzle.getValidMoves]; geometry *)
(* ===================================================================== *)

Section LinearConflicts.

Variable target : Z -> Z.

Lemma lineConflictsInner_inOrder (tile1 : LineTile) (after : list LineTile) :
  forall conflicts : Z,
    List.Forall (inOrder target tile1) after ->
    lineConflictsInner target tile1 after conflicts = conflicts.
Proof.
  induction after as [|tile2 rest IH]; intros conflicts Hall; [reflexivity|].
  inversion Hall as [|? ? [Hat Htarget] Hrest]; subst.
  cbn [lineConflictsInner].
  replace (target (lt_value tile1) >? target (lt_value tile2)) with false
    by (symmetry; rewrite Z.gtb_ltb; apply Z.ltb_ge; lia).
  replace (lt_at tile1 >? lt_at tile2) with false
    by (symmetry; rewrite Z.gtb_ltb; apply Z.ltb_ge; lia).
  rewrite andb_false_r. cbn [andb orb]. apply IH, Hrest.
Qed.

Lemma lineConflicts_sorted (tiles : list LineTile) :
  forall conflicts : Z,
    lineInOrder target tiles ->
    lineConflicts target tiles conflicts = conflicts.
Proof.
  induction tiles as [|tile1 after IH]; intros conflicts Hs; [reflexivity|].
  destruct Hs as [Hall Hafter].
  cbn [lineConflicts].
  rewrite lineConflictsInner_inOrder by assumption. apply IH, Hafter.
Qed.

(** Tiles collected along a line, each standing at its own target,
    are in order. *)
Lemma collected_sorted (f : nat -> list LineTile) (n : nat) :
  forall a : nat,
    (forall k t, (a <= k < a + n)%nat -> In t (f k) ->
                 lt_at t = Z.of_nat k /\ target (lt_value t) = Z.of_nat k) ->
    (forall k, (length (f k) <= 1)%nat) ->
    lineInOrder target (flat_map f (seq a n)).
Proof.
  induction n as [|n IH]; intros a Hat Hone; [exact I|].
  cbn [seq flat_map].
  assert (Hrest : lineInOrder target (flat_map f (seq (Datatypes.S a) n))).
  { apply IH; [|exact Hone]. intros k t Hk. apply Hat. lia. }
  specialize (Hone a).
  destruct (f a) as [|t [|t' more]] eqn:Ef; [exact Hrest | | simpl in Hone; lia].
  cbn [app lineInOrder]. split; [|exact Hrest].
  apply List.Forall_forall. intros t2 Hin.
  apply in_flat_map in Hin as (k & Hk & Hin). apply in_seq in Hk.
  destruct (Hat a t ltac:(lia)) as [H1 H2]; [rewrite Ef; left; reflexivity|].
  destruct (Hat k t2 ltac:(lia) Hin) as [H3 H4].
  unfold inOrder. lia.
Qed.

Lemma fold_left_unchanged {A} (g : Z -> A -> Z) (l : list A) (start : Z) :
  (forall x acc, In x l -> g acc x = acc) -> fold_left g l start = start.
Proof.
  revert start. induction l as [|x l IH]; intros start H; [reflexivity|].
  cbn [fold_left]. rewrite (H x start) by (left; reflexivity).
  apply IH. intros y acc Hy. apply H. right. exact Hy.
Qed.

End LinearConflicts.

Section GridArithmetic.

Variable S : nat.

Lemma solved_target_row (r c : nat) :
  (c < S)%nat ->
  (Z.of_nat r * Z.of_nat S + Z.of_nat c + 1 - 1) / Z.of_nat S = Z.of_nat r.
Proof.
  intros Hc.
  replace (Z.of_nat r * Z.of_nat S + Z.of_nat c + 1 - 1)
    with (Z.of_nat c + Z.of_nat r * Z.of_nat S) by lia.
  rewrite Z.div_add by lia. rewrite Z.div_small by lia. lia.
Qed.

Lemma solved_target_col (r c : nat) :
  (c < S)%nat ->
  Z.rem (Z.of_nat r * Z.of_nat S + Z.of_nat c + 1 - 1) (Z.of_nat S) = Z.of_nat c.
Proof.
  intros Hc. rewrite Z.rem_mod_nonneg by nia.
  replace (Z.of_nat r * Z.of_nat S + Z.of_nat c + 1 - 1)
    with (Z.of_nat c + Z.of_nat r * Z.of_nat S) by lia.
  rewrite Z.mod_add by lia. apply Z.mod_small. lia.
Qed.

End GridArithmetic.

(** X27.  On a board that [isPuzzleSolved] accepts,
    [calculateLinearConflicts] counts no conflict. *)
Theorem calculateLinearConflicts_solved (puzzle : Board) :
  isPuzzleSolved puzzle = true ->
  calculateLinearConflicts puzzle = 0.
Proof.
  intros Hsolved. pose proof (proj1 (isPuzzleSolved_cells puzzle) Hsolved) as Hcells.
  unfold calculateLinearConflicts. set (S := length puzzle) in *.
  assert (Htile : forall r c v,
             (r < S)%nat -> (c < S)%nat ->
             cellAt puzzle (Z.of_nat r) (Z.of_nat c) = Some v ->
             negb (v =? MECHANICS.EMPTY_TILE) = true ->
             v = Z.of_nat r * Z.of_nat S + Z.of_nat c + 1).
  { intros r c v Hr Hc Hv Hnz. rewrite (Hcells r c Hr Hc) in Hv.
    inversion Hv as [Hval]. unfold solvedCell in *.
    destruct ((Z.of_nat r =? Z.of_nat S - 1) && (Z.of_nat c =? Z.of_nat S - 1));
      [|reflexivity].
    subst v. discriminate. }
  rewrite fold_left_unchanged.
  - apply fold_left_unchanged. intros r acc Hr. apply in_seq in Hr.
    apply lineConflicts_sorted. unfold tilesInCorrectRow.
    apply collected_sorted.
    + intros c t Hc Hin.
      destruct (cellAt puzzle (Z.of_nat r) (Z.of_nat c)) as [v|] eqn:Hv;
        [|contradiction].
      destruct (negb (v =? MECHANICS.EMPTY_TILE)) eqn:Hnz; [|contradiction].
      destruct ((v - 1) / Z.of_nat S =? Z.of_nat r); [|contradiction].
      destruct Hin as [<- | []]. cbn [lt_at lt_value].
      split; [reflexivity|].
      rewrite (Htile r c v) by (assumption || lia).
      apply solved_target_col. lia.
    + intros c. destruct (cellAt puzzle _ _) as [v|]; [|simpl; lia].
      destruct (_ && _); simpl; lia.
  - intros c acc Hc. apply in_seq in Hc.
    apply lineConflicts_sorted. unfold tilesInCorrectCol.
    apply collected_sorted.
    + intros r t Hr Hin.
      destruct (cellAt puzzle (Z.of_nat r) (Z.of_nat c)) as [v|] eqn:Hv;
        [|contradiction].
      destruct (negb (v =? MECHANICS.EMPTY_TILE)) eqn:Hnz; [|contradiction].
      destruct (Z.rem (v - 1) (Z.of_nat S) =? Z.of_nat c); [|contradiction].
      destruct Hin as [<- | []]. cbn [lt_at lt_value].
      split; [reflexivity|].
      rewrite (Htile r c v) by (assumption || lia).
      apply solved_target_row. lia.
    + intros r. destruct (cellAt puzzle _ _) as [v|]; [|simpl; lia].
      destruct (_ && _); simpl; lia.
Qed.

Lemma calculateLinearConflicts_solved_witness :
  calculateLinearConflicts (createSolvedPuzzle 4) = 0.
Proof.
  apply calculateLinearConflicts_solved. vm_compute. reflexivity.
Defined.

(** X28.  On a running session with a valid board of size at least 1,
    [Puzzle.getValidMoves()] returns exactly the positions at which
    [moveTile] succeeds. *)
Theorem puzzleGetValidMoves_moveTile (p : Puzzle) :
  validBoard (size p) (currentState p) ->
  (1 <= size p)%nat ->
  isComplete p = false ->
  exists moves,
    puzzleGetValidMoves p = Returns moves
    /\ forall tStart tMove tEnd r c,
        In (mkPos r c) moves
        <-> (moveTile p tStart tMove tEnd r c).1 = Returns true.
Proof.
  intros Hvb HS Hrun.
  pose proof (validBoard_wellFormed _ _ Hvb) as Hwf.
  pose proof (validBoard_len _ _ Hvb) as Hlen.
  destruct (validBoard_empty _ _ Hvb HS) as [e He].
  unfold puzzleGetValidMoves. rewrite He. eexists. split; [reflexivity|].
  intros tStart tMove tEnd r c.
  rewrite moveTile_validator by (assumption || eauto).
  rewrite getAdjacentPositions_iff. cbn [row col].
  pose proof (validateTileMove_valid _ _ Hwf r c) as Hval. rewrite Hlen in Hval.
  split.
  - intros [Hv Hadj]. f_equal. apply Hval. split; [exact Hv|].
    exists e. split; [exact He|]. destruct e. exact Hadj.
  - intros H.
    assert (Hvalid : valid (validateTileMove (currentState p) r c) = true)
      by congruence.
    apply Hval in Hvalid as [Hv (e' & He' & Hadj)].
    assert (e' = e) by congruence. subst e'. split; [exact Hv|].
    destruct e. exact Hadj.
Qed.

Lemma puzzleGetValidMoves_moveTile_witness :
  exists moves,
    puzzleGetValidMoves (sessionFrom scenarioA 10) = Returns moves
    /\ forall tStart tMove tEnd r c,
        In (mkPos r c) moves
        <-> (moveTile (sessionFrom scenarioA 10) tStart tMove tEnd r c).1
            = Returns true.
Proof.
  apply puzzleGetValidMoves_moveTile.
  - split; [split; [reflexivity | repeat constructor]|].
    apply (Permutation_sym (l := expectedValuesList _)).
    change (Permutation [0;1;2;3;4;5;6;7;8] [1;2;3;4;5;6;7;0;8]).
    apply Permutation_cons_app with (l1 := [1;2;3;4;5;6;7]) (l2 := [8]).
    reflexivity.
  - vm_compute. lia.
  - vm_compute. reflexivity.
Defined.

(** X29.  The pixel layout of [getTilePosition] fits the board of
    [getBoardDimensions]: every tile of a board of [size] cells lies
    inside the padding, tiles of neighbouring columns or rows are a gap
    apart, and the last tile ends exactly at the padding. *)
Theorem getTilePosition_fits_board (size' r c : Z) :
  0 <= r < size' -> 0 <= c < size' ->
  BOARD.PADDING <= (getTilePosition r c).1
  /\ (getTilePosition r c).1 + BOARD.TILE_SIZE
     <= (getBoardDimensions size').1 - BOARD.PADDING
  /\ BOARD.PADDING <= (getTilePosition r c).2
  /\ (getTilePosition r c).2 + BOARD.TILE_SIZE
     <= (getBoardDimensions size').2 - BOARD.PADDING
  /\ (getTilePosition r (c + 1)).1
     = (getTilePosition r c).1 + BOARD.TILE_SIZE + BOARD.TILE_GAP
  /\ (getTilePosition (r + 1) c).2
     = (getTilePosition r c).2 + BOARD.TILE_SIZE + BOARD.TILE_GAP
  /\ (getTilePosition (size' - 1) (size' - 1)).1 + BOARD.TILE_SIZE
     = (getBoardDimensions size').1 - BOARD.PADDING
  /\ (getTilePosition (size' - 1) (size' - 1)).2 + BOARD.TILE_SIZE
     = (getBoardDimensions size').2 - BOARD.PADDING.
Proof.
  intros Hr Hc.
  unfold getTilePosition, getBoardDimensions, BOARD.PADDING, BOARD.TILE_SIZE,
    BOARD.TILE_GAP.
  cbn [fst snd]. repeat split; lia.
Qed.

Lemma getTilePosition_fits_board_witness :
  BOARD.PADDING <= (getTilePosition 2 3).1
  /\ (getTilePosition 2 3).1 + BOARD.TILE_SIZE
     <= (getBoardDimensions 4).1 - BOARD.PADDING
  /\ BOARD.PADDING <= (getTilePosition 2 3).2
  /\ (getTilePosition 2 3).2 + BOARD.TILE_SIZE
     <= (getBoardDimensions 4).2 - BOARD.PADDING
  /\ (getTilePosition 2 (3 + 1)).1
     = (getTilePosition 2 3).1 + BOARD.TILE_SIZE + BOARD.TILE_GAP
  /\ (getTilePosition (2 + 1) 3).2
     = (getTilePosition 2 3).2 + BOARD.TILE_SIZE + BOARD.TILE_GAP
  /\ (getTilePosition (4 - 1) (4 - 1)).1 + BOARD.TILE_SIZE
     = (getBoardDimensions 4).1 - BOARD.PADDING
  /\ (getTilePosition (4 - 1) (4 - 1)).2 + BOARD.TILE_SIZE
     = (getBoardDimensions 4).2 - BOARD.PADDING.
Proof.
  apply (getTilePosition_fits_board 4 2 3); lia.
Defined.
